(** * Decent Injection: the scope container of [lib/scope.js]

    A shallow embedding of the service container: JavaScript objects live
    in a heap indexed by addresses, so that reference equality ([===] on
    objects) is equality of addresses; the container's functions are
    written in a state-and-exception monad over that heap.

    What the container cannot see is abstracted:
    - a user constructor [new F(a1, ..., an)] allocates a fresh object that
      inherits from [F.prototype] and remembers the arguments it was
      built with; it has no other effect on the container;
    - the properties the container reads on a service ([isStatic],
      [transient], [scope], [inject], [injectProperties], [init], [on])
      are fixed once the service object exists; the other properties of
      an object are a map that property injection writes;
    - a user function called as a step [(options, next)] is described by
      its reply: it calls [next] once with some value, or never;
    - the [done] continuation of a chain is a label; calling it is
      recorded in the trace;
    - scope names and service names are strings, none of them the name of
      a property that every JavaScript object inherits. *)

From stdpp Require Import base option list gmap strings fin_maps sets.
From Stdlib Require Import ZArith.

Local Open Scope string_scope.
Local Open Scope list_scope.

(** ** Values and objects *)

Abbreviation addr := nat.

Inductive value :=
| VUndef
| VNull
| VBool (b : bool)
| VNum (n : Z)
| VStr (s : string)
| VRef (a : addr).

#[global] Instance value_eq_dec : EqDecision value.
Proof. solve_decision. Defined.

#[global] Instance value_inhabited : Inhabited value := populate VUndef.

(** JavaScript truthiness: what [if (v)] tests. *)
Definition truthy (v : value) : bool :=
  match v with
  | VUndef | VNull => false
  | VBool b => b
  | VNum n => negb (n =? 0)%Z
  | VStr s => negb (String.eqb s "")
  | VRef _ => true
  end.

(** What a step function does with its callback. *)
Inductive reply :=
| Calls (err : value)   (* next(err): a falsy [err] is success *)
| Silent.               (* the callback is never called *)

(** The properties the container reads on a registered service
    ([ServiceClass.isStatic], [.transient], [.scope], [.inject],
    [.injectProperties], [.init], [.on]).  [injectProperties] keeps the
    order of [Object.getOwnPropertyNames]; [on] lists the event names. *)
Record statics := Statics {
  isStatic : bool;
  transient : bool;
  scope_prop : option string;
  inject : option (list string);
  injectProperties : option (list (string * string));
  init : bool;
  on : list string
}.

Definition no_statics : statics :=
  Statics false false None None None false [].

Record object := Object {
  o_statics : statics;
  (* [Some b] when [typeof o === 'function']; [b this options] is the
     reply of the function when it is called as a step *)
  o_call : option (value → value → reply);
  (* the properties of [o.prototype], inherited by [new o(...)] *)
  o_prototype : gmap string value;
  (* the other own properties: methods, injected dependencies *)
  o_props : gmap string value;
  (* for an instance: the constructor it was built from, and with what *)
  o_class : option addr;
  o_args : list value
}.

Definition plain_object : object :=
  Object no_statics None ∅ ∅ None [].

(** The fields [scope()] adds to an object. [services] maps a service
    name to the address of an array of registered services: the arrays
    are shared between a scope and the sub-scopes copied from it.
    [instances] maps a service name to the array of cached singletons. *)
Record scoped := Scoped {
  scopeName : string;
  parentScope : option addr;
  services : gmap string addr;
  instances : gmap string (list value);
  scopeInitialized : bool
}.

Inductive error :=
| TypeError
| NoInstance (service scopeName : string)
    (* Error("Couldn't find an instance of %s on scope %s.") *)
| RangeError      (* the call stack is exhausted *)
| Diverges.       (* a loop that never ends *)

(** A bound step: a function and the [this] it is called with. *)
Abbreviation step := (value * value)%type.

(** What [process.nextTick] has queued. *)
Inductive task :=
| CallNextService (insts : list value) (method : string) (options : value)
    (done : nat) (n : nat)
| CallNextStep (methodArray : list step) (options : value) (done : nat) (n : nat).

Inductive event :=
| EvInit (ServiceClass : value) (sc : addr)
| EvOn (sc : addr) (eventName : string) (ServiceClass : value)
| EvCall (f : addr) (this : value) (options : value)
| EvDone (done : nat) (err : value).

Record state := State {
  st_objs : gmap addr object;
  st_scopes : gmap addr scoped;
  st_arrays : gmap addr (list value);
  st_trace : list event;
  st_queue : list task
}.

(** ** The monad: state, and exceptions that keep the state *)

Inductive outcome (A : Type) :=
| Ret (a : A)
| Throw (e : error).
Arguments Ret {A} a.
Arguments Throw {A} e.

Definition M (A : Type) : Type := state → outcome A * state.

Definition ret {A} (a : A) : M A := fun st => (Ret a, st).
Definition throw {A} (e : error) : M A := fun st => (Throw e, st).
Definition bind {A B} (m : M A) (k : A → M B) : M B :=
  fun st =>
    match m st with
    | (Ret a, st') => k a st'
    | (Throw e, st') => (Throw e, st')
    end.

Notation "x <- m ;; k" := (bind m (fun x => k))
  (at level 100, m at next level, right associativity).
Notation "m ;;; k" := (bind m (fun _ => k))
  (at level 100, right associativity).

Definition get_state : M state := fun st => (Ret st, st).

Fixpoint mapM {A B} (f : A → M B) (l : list A) : M (list B) :=
  match l with
  | [] => ret []
  | x :: l' => y <- f x ;; ys <- mapM f l' ;; ret (y :: ys)
  end.

Fixpoint forM_ {A} (f : A → M unit) (l : list A) : M unit :=
  match l with
  | [] => ret tt
  | x :: l' => f x ;;; forM_ f l'
  end.

(** ** Heap primitives *)

(** The object a property read [v.p] looks at: reading a property of
    [null] or [undefined] throws; a primitive has none of the properties
    the container looks for. *)
Definition get_obj (v : value) : M object :=
  fun st =>
    match v with
    | VUndef | VNull => (Throw TypeError, st)
    | VRef a => (Ret (default plain_object (st_objs st !! a)), st)
    | _ => (Ret plain_object, st)
    end.

Definition get_statics (v : value) : M statics :=
  o <- get_obj v ;; ret (o_statics o).

(** [typeof v === 'function'] *)
Definition is_function (st : state) (v : value) : bool :=
  match v with
  | VRef a =>
      match st_objs st !! a with
      | Some o => bool_decide (is_Some (o_call o))
      | None => false
      end
  | _ => false
  end.

(** [v[key]]: own properties, then the prototype of the constructor. *)
Definition lookup_prop (st : state) (o : object) (key : string) : value :=
  match o_props o !! key with
  | Some v => v
  | None =>
      match o_class o ≫= (fun c => st_objs st !! c) with
      | Some c => default VUndef (o_prototype c !! key)
      | None => VUndef
      end
  end.

Definition get_prop (v : value) (key : string) : M value :=
  fun st =>
    match v with
    | VUndef | VNull => (Throw TypeError, st)
    | VRef a =>
        match st_objs st !! a with
        | Some o => (Ret (lookup_prop st o key), st)
        | None => (Ret VUndef, st)
        end
    | _ => (Ret VUndef, st)
    end.

Definition with_props (o : object) (p : gmap string value) : object :=
  Object (o_statics o) (o_call o) (o_prototype o) p (o_class o) (o_args o).

(** [v[key] = x] in strict mode. *)
Definition set_prop (v : value) (key : string) (x : value) : M unit :=
  fun st =>
    match v with
    | VRef a =>
        let o := default plain_object (st_objs st !! a) in
        (Ret tt,
         State (<[a := with_props o (<[key := x]> (o_props o))]> (st_objs st))
               (st_scopes st) (st_arrays st) (st_trace st) (st_queue st))
    | _ => (Throw TypeError, st)
    end.

(** [new ServiceClass(args)] *)
Definition new_instance (ServiceClass : addr) (args : list value) : M value :=
  fun st =>
    let a := fresh (dom (st_objs st) ∪ dom (st_scopes st)) in
    (Ret (VRef a),
     State (<[a := Object no_statics None ∅ ∅ (Some ServiceClass) args]> (st_objs st))
           (st_scopes st) (st_arrays st) (st_trace st) (st_queue st)).

Definition get_scope (sc : addr) : M scoped :=
  fun st =>
    match st_scopes st !! sc with
    | Some s => (Ret s, st)
    | None => (Throw TypeError, st)
    end.

Definition put_scope (sc : addr) (s : scoped) : M unit :=
  fun st =>
    (Ret tt,
     State (st_objs st) (<[sc := s]> (st_scopes st)) (st_arrays st)
           (st_trace st) (st_queue st)).

(** [s.services[service]]: [None] is [undefined]. *)
Definition services_of (st : state) (s : scoped) (service : string)
  : option (list value) :=
  services s !! service ≫= (fun a => st_arrays st !! a).

Definition log (e : event) : M unit :=
  fun st =>
    (Ret tt,
     State (st_objs st) (st_scopes st) (st_arrays st)
           (st_trace st ++ [e]) (st_queue st)).

(** [process.nextTick] *)
Definition nextTick (t : task) : M unit :=
  fun st =>
    (Ret tt,
     State (st_objs st) (st_scopes st) (st_arrays st)
           (st_trace st) (st_queue st ++ [t])).

(** ** Arrays *)

(** [a[i]] *)
Definition array_get (l : list value) (i : nat) : value :=
  default VUndef (l !! i).

(** [a[i] = v]: a JavaScript array grows when written past its end. *)
Definition array_set (l : list value) (i : nat) (v : value) : list value :=
  if decide (i < length l) then <[i := v]> l
  else l ++ replicate (i - length l) VUndef ++ [v].

(** [a.indexOf(x)] *)
Fixpoint indexOf (l : list value) (x : value) : option nat :=
  match l with
  | [] => None
  | y :: l' => if decide (y = x) then Some 0 else S <$> indexOf l' x
  end.

(** ** The container *)

Definition nonempty (s : string) : bool := negb (String.eqb s "").

Definition with_instances (s : scoped) (i : gmap string (list value)) : scoped :=
  Scoped (scopeName s) (parentScope s) (services s) i (scopeInitialized s).

(** [scope.instances[service][index] = v], on the array the scope holds. *)
Definition set_instance (sc : addr) (service : string) (index : nat) (v : value)
  : M unit :=
  s <- get_scope sc ;;
  put_scope sc
    (with_instances s
       (<[service := array_set (default [] (instances s !! service)) index v]>
          (instances s))).

(** [construct(scope, ServiceClass, options)]; [require] is the
    [scope.require] the body calls back into. *)
Definition construct (require : addr → string → value → M value)
    (sc : addr) (ServiceClass : value) (options : value) : M value :=
  if negb (truthy ServiceClass) then ret VNull else
  d <- get_statics ServiceClass ;;
  st <- get_state ;;
  instance <-
    (if is_function st ServiceClass && negb (isStatic d) then
       match inject d with
       | Some deps =>
           resolved <- mapM (fun dependency => require sc dependency VUndef) deps ;;
           let constructorArguments :=
             if truthy options then resolved ++ [options] else resolved in
           match ServiceClass with
           | VRef c => new_instance c constructorArguments
           | _ => throw TypeError
           end
       | None =>
           match ServiceClass with
           | VRef c => new_instance c [VRef sc; options]
           | _ => throw TypeError
           end
       end
     else ret ServiceClass) ;;
  match injectProperties d with
  | Some props =>
      forM_ (fun p : string * string =>
               v <- require sc (snd p) VUndef ;;
               set_prop instance (fst p) v) props
  | None => ret tt
  end ;;;
  ret instance.

(** The [while] loop of [getSingleton]: from [cur], follow [parentScope]
    until a scope named [name].  An object that is not a scope has neither
    a [scopeName] nor a [parentScope]: the walk ends after it. [n] bounds
    the number of steps; a chain of parents longer than the number of
    scopes is a cycle, on which the loop never ends. *)
Fixpoint walk (n : nat) (scopes : gmap addr scoped) (cur : option addr)
    (name : string) : outcome (option addr) :=
  match cur with
  | None => Ret None
  | Some c =>
      match scopes !! c with
      | None => Ret None
      | Some s =>
          if decide (scopeName s = name) then Ret (Some c)
          else
            match n with
            | 0 => Throw Diverges
            | S n' => walk n' scopes (parentScope s) name
            end
      end
  end.

Definition walk_parents (sc : addr) (name : string) : M (option addr) :=
  fun st => (walk (size (st_scopes st)) (st_scopes st) (Some sc) name, st).

(** Get or build the instance cache of [service] on [sc]. *)
Definition instance_cache (sc : addr) (service : string)
    (serviceClasses : option (list value)) : M (list value) :=
  s <- get_scope sc ;;
  match instances s !! service with
  | Some l => ret l
  | None =>
      match serviceClasses with
      | Some l =>
          let a := replicate (length l) VUndef in
          put_scope sc (with_instances s (<[service := a]> (instances s))) ;;;
          ret a
      | None => throw TypeError
      end
  end.

(** The branch of [getSingleton] taken when the walk reached a scope
    other than the requesting one; [None] when it falls through. *)
Definition from_owner (require : addr → string → value → M value)
    (sc : addr) (service : string) (index : nat) (options : value)
    (serviceClass : value) (currentScope : addr) : M (option value) :=
  cs <- get_scope currentScope ;;
  st <- get_state ;;
  match services_of st cs service with
  | None => throw TypeError
  | Some currentScopeServiceClasses =>
      match indexOf currentScopeServiceClasses serviceClass with
      | None => ret None
      | Some currentScopeIndex =>
          currentScopeInstances <-
            instance_cache currentScope service (Some currentScopeServiceClasses) ;;
          let instance := array_get currentScopeInstances currentScopeIndex in
          if truthy instance then
            set_instance sc service index instance ;;;
            ret (Some instance)
          else
            v <- construct require currentScope serviceClass options ;;
            set_instance sc service index v ;;;
            set_instance currentScope service currentScopeIndex v ;;;
            ret (Some v)
      end
  end.

(** [getSingleton(scope, service, index, options)] *)
Definition getSingleton (require : addr → string → value → M value)
    (sc : addr) (service : string) (index : nat) (options : value) : M value :=
  s <- get_scope sc ;;
  st <- get_state ;;
  let serviceClasses := services_of st s service in
  insts <- instance_cache sc service serviceClasses ;;
  let instance := array_get insts index in
  if truthy instance then ret instance else
  match serviceClasses with
  | None => throw TypeError
  | Some l =>
      let serviceClass := array_get l index in
      d <- get_statics serviceClass ;;
      let here :=
        v <- construct require sc serviceClass options ;;
        set_instance sc service index v ;;;
        ret v in
      match scope_prop d with
      | Some a =>
          if nonempty a then
            currentScope <- walk_parents sc a ;;
            found <-
              match currentScope with
              | Some c =>
                  if decide (c = sc) then ret None
                  else from_owner require sc service index options serviceClass c
              | None => ret None
              end ;;
            match found with
            | Some v => ret v
            | None =>
                if decide (scopeName s = a) then here
                else throw (NoInstance service a)
            end
          else here
      | None => here
      end
  end.

(** [initializeService(scope, ServiceClass)]: the [init] hook and the
    handlers wired with [scope.on] are the user's; they are recorded. *)
Definition initializeService (sc : addr) (ServiceClass : value) : M unit :=
  if negb (truthy ServiceClass) then ret tt else
  d <- get_statics ServiceClass ;;
  (if init d then log (EvInit ServiceClass sc) else ret tt) ;;;
  forM_ (fun eventName =>
           f <- get_prop (VRef sc) "on" ;;
           st <- get_state ;;
           if is_function st f then log (EvOn sc eventName ServiceClass)
           else throw TypeError) (on d).

Definition with_initialized (s : scoped) : scoped :=
  Scoped (scopeName s) (parentScope s) (services s) (instances s) true.

(** [scope$initialize()]; the services are visited in the order of the
    map's keys. *)
Definition scope_initialize (this : addr) : M addr :=
  st <- get_state ;;
  match st_scopes st !! this with
  | None => ret this
  | Some s =>
      forM_ (fun kv : string * addr =>
               match st_arrays st !! snd kv with
               | None => ret tt
               | Some serviceClasses =>
                   forM_ (fun ServiceClass =>
                            d <- get_statics ServiceClass ;;
                            match scope_prop d with
                            | Some a =>
                                if negb (nonempty a) || bool_decide (a = scopeName s)
                                then initializeService this ServiceClass
                                else ret tt
                            | None => initializeService this ServiceClass
                            end) serviceClasses
               end) (map_to_list (services s)) ;;;
      s' <- get_scope this ;;
      put_scope this (with_initialized s') ;;;
      ret this
  end.

Definition new_array (l : list value) : M addr :=
  fun st =>
    let a := fresh (dom (st_arrays st)) in
    (Ret a,
     State (st_objs st) (st_scopes st) (<[a := l]> (st_arrays st))
           (st_trace st) (st_queue st)).

Definition put_array (a : addr) (l : list value) : M unit :=
  fun st =>
    (Ret tt,
     State (st_objs st) (st_scopes st) (<[a := l]> (st_arrays st))
           (st_trace st) (st_queue st)).

Definition with_services (s : scoped) (m : gmap string addr) : scoped :=
  Scoped (scopeName s) (parentScope s) m (instances s) (scopeInitialized s).

(** [scope$register(name, ServiceClass)] *)
Definition scope_register (this : addr) (name : string) (ServiceClass : value)
  : M addr :=
  s <- get_scope this ;;
  st <- get_state ;;
  match services s !! name ≫= (fun a => (a,.) <$> st_arrays st !! a) with
  | None =>
      a <- new_array [ServiceClass] ;;
      put_scope this (with_services s (<[name := a]> (services s)))
  | Some (a, l) => put_array a (l ++ [ServiceClass])
  end ;;;
  (if scopeInitialized s then
     d <- get_statics ServiceClass ;;
     match scope_prop d with
     | Some a =>
         if bool_decide (a = scopeName s) then initializeService this ServiceClass
         else ret tt
     | None => initializeService this ServiceClass
     end
   else ret tt) ;;;
  ret this.

(** [scope$require(service, options)], with the recursive
    [scope.require] of [construct] passed in. *)
Definition scope_require_body (require : addr → string → value → M value)
    (this : addr) (service : string) (options : value) : M value :=
  s <- get_scope this ;;
  st <- get_state ;;
  match services_of st s service with
  | None => ret VNull
  | Some l =>
      let ServiceClass :=
        if decide (0 < length l) then array_get l (length l - 1) else VNull in
      if negb (truthy ServiceClass) then ret VNull else
      d <- get_statics ServiceClass ;;
      if negb (transient d) then
        getSingleton require this service (length l - 1) options
      else construct require this ServiceClass options
  end.

(** [fuel] is the depth of call stack left for nested [require]s. *)
Fixpoint scope_require (fuel : nat) (this : addr) (service : string)
    (options : value) : M value :=
  match fuel with
  | 0 => throw RangeError
  | S fuel' => scope_require_body (scope_require fuel') this service options
  end.

(** The callback [getServiceInstance(ServiceClass, index)] of
    [scope$getServices]. *)
Definition getServiceInstance (fuel : nat) (self : addr) (service : string)
    (options : value) (ServiceClass : value) (index : nat) : M value :=
  d <- get_statics ServiceClass ;;
  if negb (transient d) then
    getSingleton (scope_require fuel) self service index options
  else construct (scope_require fuel) self ServiceClass options.

(** [Array.prototype.map], with the index. *)
Fixpoint mapMi {A B} (f : A → nat → M B) (i : nat) (l : list A) : M (list B) :=
  match l with
  | [] => ret []
  | x :: l' => y <- f x i ;; ys <- mapMi f (S i) l' ;; ret (y :: ys)
  end.

(** [scope$getServices(service, options)] *)
Definition scope_getServices (fuel : nat) (self : addr) (service : string)
    (options : value) : M (list value) :=
  s <- get_scope self ;;
  st <- get_state ;;
  match services s !! service with
  | None => ret []
  | Some a =>
      match st_arrays st !! a with
      | None => throw TypeError
      | Some l => mapMi (getServiceInstance fuel self service options) 0 l
      end
  end.

(** [scope(name, objectToScope, services, parentScope)]: [svcs] is
    [None] when no service map is passed. *)
Definition scope (name : string) (objectToScope : addr)
    (svcs : option (gmap string addr)) (parent : option addr) : M addr :=
  st <- get_state ;;
  let old := st_scopes st !! objectToScope in
  if match old with Some s => nonempty (scopeName s) | None => false end
  then ret objectToScope else
  servicesCopy <-
    match svcs, old with
    | Some m, _ => ret m
    | None, Some s => ret (services s)
    | None, None => throw TypeError
    end ;;
  a <- new_array [VRef objectToScope] ;;
  put_scope objectToScope
    (Scoped name parent (<[name := a]> servicesCopy) ∅
       (match old with Some s => scopeInitialized s | None => false end)) ;;;
  match svcs with
  | Some _ => scope_initialize objectToScope
  | None => ret objectToScope
  end ;;;
  ret objectToScope.

(** [scope$makeSubScope(name, subScope)] *)
Definition scope_makeSubScope (this : addr) (name : string) (subScope : addr)
  : M addr :=
  st <- get_state ;;
  scope name subScope (services <$> st_scopes st !! this) (Some this) ;;;
  ret subScope.

(** ** The sequencer *)

(** [f.call(this, options, callback)] *)
Definition call_function (f this options : value) : M reply :=
  st <- get_state ;;
  match f with
  | VRef a =>
      match st_objs st !! a ≫= o_call with
      | Some b => log (EvCall a this options) ;;; ret (b this options)
      | None => throw TypeError
      end
  | _ => throw TypeError
  end.

Definition nextService (insts : list value) (method : string) (options : value)
    (done n : nat) (err : value) : M unit :=
  if truthy err then log (EvDone done err)
  else if decide (n + 1 < length insts) then
    nextTick (CallNextService insts method options done (n + 1))
  else log (EvDone done VUndef).

Definition callNthService (insts : list value) (method : string)
    (options : value) (done n : nat) : M unit :=
  let service := array_get insts n in
  m <- get_prop service method ;;
  if truthy m then
    r <- call_function m service options ;;
    match r with
    | Calls err => nextService insts method options done n err
    | Silent => ret tt
    end
  else nextService insts method options done n VUndef.

(** [scope$callService(service, method, options, done)] *)
Definition scope_callService (fuel : nat) (this : addr) (service method : string)
    (options : value) (done : nat) : M addr :=
  insts <- scope_getServices fuel this service VUndef ;;
  (if decide (0 < length insts) then callNthService insts method options done 0
   else log (EvDone done VUndef)) ;;;
  ret this.

(** The arguments of [scope.lifecycle]: names and functions. *)
Inductive lifecycle_arg :=
| ArgName (name : string)
| ArgFunction (f : addr).

(** [service[methodName].bind(service)]; after a service name, the next
    argument is the method name whatever it is: a missing one reads the
    property ["undefined"], a function is no property name in use. *)
Definition serviceToMethod (methodName : option lifecycle_arg) (service : value)
  : M step :=
  m <- match methodName with
       | Some (ArgName n) => get_prop service n
       | Some (ArgFunction _) => get_obj service ;;; ret VUndef
       | None => get_prop service "undefined"
       end ;;
  st <- get_state ;;
  if is_function st m then ret (m, service) else throw TypeError.

(** The loop of [scope$lifecycle] that fills [methodArray]. *)
Fixpoint lifecycle_steps (fuel : nat) (this : addr) (args : list lifecycle_arg)
  : M (list step) :=
  match args with
  | [] => ret []
  | ArgFunction f :: rest =>
      methodArray <- lifecycle_steps fuel this rest ;;
      ret ((VRef f, VUndef) :: methodArray)
  | ArgName serviceName :: rest =>
      insts <- scope_getServices fuel this serviceName VUndef ;;
      match rest with
      | [] =>
          bound <- mapM (serviceToMethod None) insts ;;
          ret bound
      | methodName :: rest' =>
          bound <- mapM (serviceToMethod (Some methodName)) insts ;;
          methodArray <- lifecycle_steps fuel this rest' ;;
          ret (bound ++ methodArray)
      end
  end.

(** [scope$lifecycle(...)]: the function it returns closes over
    [methodArray] only. *)
Definition scope_lifecycle := lifecycle_steps.

Definition nextStep (methodArray : list step) (options : value)
    (done n : nat) (err : value) : M unit :=
  if truthy err then log (EvDone done err)
  else if decide (n + 1 < length methodArray) then
    nextTick (CallNextStep methodArray options done (n + 1))
  else log (EvDone done VUndef).

Definition executeNthStep (methodArray : list step) (options : value)
    (done n : nat) : M unit :=
  match methodArray !! n with
  | None => throw TypeError
  | Some method =>
      r <- call_function (fst method) (snd method) options ;;
      match r with
      | Calls err => nextStep methodArray options done n err
      | Silent => ret tt
      end
  end.

(** The function [lifecycle(options, done)] returned by the builder. *)
Definition lifecycle (methodArray : list step) (options : value) (done : nat)
  : M unit :=
  if decide (0 < length methodArray) then executeNthStep methodArray options done 0
  else log (EvDone done VUndef).

(** ** The event loop *)

Definition run_task (t : task) : M unit :=
  match t with
  | CallNextService insts method options done n =>
      callNthService insts method options done n
  | CallNextStep methodArray options done n =>
      executeNthStep methodArray options done n
  end.

Definition pop_task : M (option task) :=
  fun st =>
    match st_queue st with
    | [] => (Ret None, st)
    | t :: q =>
        (Ret (Some t),
         State (st_objs st) (st_scopes st) (st_arrays st) (st_trace st) q)
    end.

(** Run the queued callbacks, at most [ticks] of them. *)
Fixpoint run_ticks (ticks : nat) : M unit :=
  match ticks with
  | 0 => ret tt
  | S k =>
      t <- pop_task ;;
      match t with
      | None => ret tt
      | Some t => run_task t ;;; run_ticks k
      end
  end.

(** ** What resolution leaves unchanged *)

(** The fields of a scope that only [scope()] and [register] write. *)
Definition scope_static (s : scoped) : string * option addr * gmap string addr * bool :=
  (scopeName s, parentScope s, services s, scopeInitialized s).

(** The object an address stands for, as [get_obj] sees it. *)
Definition obj_at (st : state) (a : addr) : object :=
  default plain_object (st_objs st !! a).

Definition core (o : object)
  : statics * option (value → value → reply) * gmap string value :=
  (o_statics o, o_call o, o_prototype o).

(** [extends st st']: [st'] is [st] with more objects, more properties
    on the objects and more cached instances; nothing else differs. *)
Record extends (st st' : state) : Prop := Extends {
  ext_arrays : st_arrays st' = st_arrays st;
  ext_trace : st_trace st' = st_trace st;
  ext_queue : st_queue st' = st_queue st;
  ext_scopes : scope_static <$> st_scopes st' = scope_static <$> st_scopes st;
  ext_core : ∀ a, core (obj_at st' a) = core (obj_at st a);
  ext_objs : ∀ a o, st_objs st !! a = Some o →
             ∃ o', st_objs st' !! a = Some o' ∧
                   o_class o' = o_class o ∧ o_args o' = o_args o
}.

(** [same_heap st st']: only the trace differs. *)
Definition same_heap (st st' : state) : Prop :=
  st_objs st' = st_objs st ∧ st_scopes st' = st_scopes st ∧
  st_arrays st' = st_arrays st ∧ st_queue st' = st_queue st.

(** A computation whose initial and final states are related by [R],
    whatever its outcome. *)
Definition respects (R : relation state) {A} (m : M A) : Prop :=
  ∀ st r st', m st = (r, st') → R st st'.

(** A computation that only extends the state, whatever its outcome. *)
Definition framed {A} (m : M A) : Prop :=
  ∀ st r st', m st = (r, st') → extends st st'.

(** The cached instance of slot [index] of [service] on scope [sc]. *)
Definition cached (st : state) (sc : addr) (service : string) (index : nat)
  : value :=
  match st_scopes st !! sc with
  | Some s => array_get (default [] (instances s !! service)) index
  | None => VUndef
  end.

(** ** Example heaps *)

(** A constructor function whose prototype has the given methods. *)
Definition ServiceClass (d : statics) (proto : gmap string value) : object :=
  Object d (Some (fun _ _ => Calls VUndef)) proto ∅ None [].

Definition transient_statics : statics :=
  Statics false true None None None false [].

Definition singleton_statics (name : string) : statics :=
  Statics false false (Some name) None None false [].

(** Objects 0 (to be scoped), 1 (a transient class), 2 (a singleton
    class of the scope named [""]), as in the test suite. *)
Definition test_heap : state :=
  State {[ 0 := plain_object;
           1 := ServiceClass transient_statics ∅;
           2 := ServiceClass (singleton_statics "") ∅ ]}
        ∅
        {[ 0 := [VRef 1]; 1 := [VRef 2]; 2 := [VRef 1; VRef 2] ]}
        [] [].

Definition test_scope : state :=
  snd (scope "" 0 (Some {[ "service" := 0; "singleton" := 1; "both" := 2 ]})
         None test_heap).

(** A plain object flagged [transient]: a static service. *)
Definition static_transient_heap : state :=
  State {[ 0 := plain_object;
           1 := Object transient_statics None ∅ ∅ None [] ]}
        ∅
        {[ 0 := [VRef 1] ]}
        [] [].

Definition static_transient_scope : state :=
  snd (scope "app" 0 (Some {[ "service" := 0 ]}) None static_transient_heap).

(** Constructor injection, as in the test suite: class 1 is transient
    and injects ['singleton', 'other-service', 'the-scope']; class 2 is a
    singleton; class 3 is transient; object 4 is an options object. *)
Definition inject_heap : state :=
  State {[ 0 := plain_object;
           1 := ServiceClass
                  (Statics false true (Some "the-scope")
                     (Some ["singleton"; "other-service"; "the-scope"])
                     None false []) ∅;
           2 := ServiceClass (singleton_statics "the-scope") ∅;
           3 := ServiceClass transient_statics ∅;
           4 := plain_object ]}
        ∅
        {[ 0 := [VRef 1]; 1 := [VRef 2]; 2 := [VRef 3] ]}
        [] [].


(** A scope "inner" under a scope "outer"; class 2 is a singleton of
    "outer", registered in "inner" only: "outer" lists class 3. *)
Definition orphan_heap : state :=
  State {[ 0 := plain_object;
           1 := plain_object;
           2 := ServiceClass (singleton_statics "outer") ∅;
           3 := ServiceClass transient_statics ∅ ]}
        ∅
        {[ 0 := [VRef 3]; 1 := [VRef 2] ]}
        [] [].

Definition orphan_state : state :=
  snd (scope "inner" 1 (Some {[ "service" := 1 ]}) (Some 0)
         (snd (scope "outer" 0 (Some {[ "service" := 0 ]}) None orphan_heap))).

(** A scope "outer" and its sub-scope "inner"; class 2 is a singleton
    of "outer", registered under the names "a" and "b". *)
Definition shared_heap : state :=
  State {[ 0 := plain_object;
           1 := plain_object;
           2 := ServiceClass (singleton_statics "outer") ∅ ]}
        ∅
        {[ 0 := [VRef 2]; 1 := [VRef 2] ]}
        [] [].

Definition shared_state : state :=
  snd (scope_makeSubScope 0 "inner" 1
         (snd (scope "outer" 0 (Some {[ "a" := 0; "b" := 1 ]}) None shared_heap))).

(** Object 0 is to be scoped; object 1 is a static service (a plain
    object); class 2 is transient. *)
Definition host_heap : state :=
  State {[ 0 := plain_object;
           1 := plain_object;
           2 := ServiceClass transient_statics ∅ ]}
        ∅
        {[ 0 := [VRef 2] ]}
        [] [].

(** A function that answers [next()]. *)
Definition succeeding_function : object :=
  Object no_statics (Some (fun _ _ => Calls VUndef)) ∅ ∅ None [].

(** A function that answers [next("failed")]. *)
Definition failing_function : object :=
  Object no_statics (Some (fun _ _ => Calls (VStr "failed"))) ∅ ∅ None [].

(** As in the test suite: class 1 is transient and has a [method]; class
    2 is a singleton without it; class 3 is a singleton with it; class 4
    is transient and its [method] reports an error. Objects 5, 6 and 7 are
    the functions; 8 is an ad-hoc step; 9 an options object. *)
Definition chain_heap : state :=
  State {[ 0 := plain_object;
           1 := ServiceClass transient_statics {[ "method" := VRef 5 ]};
           2 := ServiceClass no_statics ∅;
           3 := ServiceClass (singleton_statics "") {[ "method" := VRef 6 ]};
           4 := ServiceClass transient_statics {[ "method" := VRef 7 ]};
           5 := succeeding_function;
           6 := succeeding_function;
           7 := failing_function;
           8 := succeeding_function;
           9 := plain_object ]}
        ∅
        {[ 0 := [VRef 1; VRef 2; VRef 3];
           1 := [VRef 1; VRef 4; VRef 3];
           2 := [VRef 1; VRef 3] ]}
        [] [].

Definition chain_scope : state :=
  snd (scope "" 0 (Some {[ "service" := 0; "failing" := 1; "pair" := 2 ]})
         None chain_heap).

(** ** Specification vocabulary *)

(** [resolved_in_order f i l st vs st']: the values [vs] are the results
    of [f] on the elements of [l], taken from left to right with the
    indices [i], [i+1], ...; [st'] is the state after the last one. *)
Inductive resolved_in_order {A B} (f : A → nat → M B)
  : nat → list A → state → list B → state → Prop :=
| resolved_nil i st : resolved_in_order f i [] st [] st
| resolved_cons i x l st y st1 ys st' :
    f x i st = (Ret y, st1) →
    resolved_in_order f (S i) l st1 ys st' →
    resolved_in_order f i (x :: l) st (y :: ys) st'.

(** The statics a value carries, as [get_statics] reads them. *)
Definition statics_of (st : state) (v : value) : statics :=
  match v with
  | VRef a => o_statics (obj_at st a)
  | _ => no_statics
  end.

(** [typeof C === 'function' && !C.isStatic]: [construct] calls [new]. *)
Definition constructible (st : state) (C : value) : bool :=
  is_function st C && negb (isStatic (statics_of st C)).

(** The scope [getSingleton] reaches when it walks the parents of [sc]
    for a scope named [a]. *)
Definition owner_of (st : state) (sc : addr) (a : string) : outcome (option addr) :=
  walk (size (st_scopes st)) (st_scopes st) (Some sc) a.

(** The scope-affinity [a] of [D] cannot be satisfied from [sc]: [sc] is
    not named [a], and the walk reaches no scope named [a], or one whose
    list for [service] does not hold [D]. *)
Definition unsatisfiable (st : state) (sc : addr) (s : scoped)
    (service : string) (D : value) (a : string) : Prop :=
  scopeName s ≠ a ∧
  (owner_of st sc a = Ret None ∨
   ∃ c cs lo, owner_of st sc a = Ret (Some c) ∧ st_scopes st !! c = Some cs ∧
              services_of st cs service = Some lo ∧ indexOf lo D = None).

(** [construct] has nothing to [require] for [D]. *)
Definition dependency_free (st : state) (D : value) : Prop :=
  injectProperties (statics_of st D) = None ∧
  (constructible st D = true → inject (statics_of st D) = None).

(** What [getSingleton] does once the slot was found empty: the part of
    its body after the test of the cache. *)
Definition resolve_miss (require : addr → string → value → M value)
    (sc : addr) (service : string) (index : nat) (options : value)
    (s : scoped) (l : list value) : M value :=
  let serviceClass := array_get l index in
  d <- get_statics serviceClass ;;
  let here :=
    v <- construct require sc serviceClass options ;;
    set_instance sc service index v ;;;
    ret v in
  match scope_prop d with
  | Some a =>
      if nonempty a then
        currentScope <- walk_parents sc a ;;
        found <-
          match currentScope with
          | Some c =>
              if decide (c = sc) then ret None
              else from_owner require sc service index options serviceClass c
          | None => ret None
          end ;;
        match found with
        | Some v => ret v
        | None =>
            if decide (scopeName s = a) then here
            else throw (NoInstance service a)
        end
      else here
  | None => here
  end.

(** What a client does with a scope. *)
Inductive operation :=
| Register (name : string) (ServiceClass : value)
| Require (service : string) (options : value)
| GetServices (service : string) (options : value).

Definition perform (fuel : nat) (sc : addr) (o : operation) : M unit :=
  match o with
  | Register name ServiceClass => scope_register sc name ServiceClass ;;; ret tt
  | Require service options => scope_require fuel sc service options ;;; ret tt
  | GetServices service options => scope_getServices fuel sc service options ;;; ret tt
  end.

(** The operations one after the other; what an operation has written
    stays when it throws and the client catches the error. *)
Definition perform_all (fuel : nat) (sc : addr) (ops : list operation)
    (st : state) : state :=
  foldl (λ st o, snd (perform fuel sc o st)) st ops.

Definition registers_elsewhere (name : string) (o : operation) : Prop :=
  match o with
  | Register name' _ => name' ≠ name
  | _ => True
  end.

(** The object that is made a scope is not itself a service to build:
    it is no constructible function and declares neither an affinity nor
    properties to inject. *)
Definition plain_host (st : state) (obj : addr) : Prop :=
  constructible st (VRef obj) = false ∧
  scope_prop (statics_of st (VRef obj)) = None ∧
  injectProperties (statics_of st (VRef obj)) = None.

(** The scope [sc] is the only service of its own name, in an array
    that no other name shares, and its slot is empty or holds [sc]. *)
Definition self_registered (st : state) (sc : addr) (name : string) : Prop :=
  ∃ s a,
    st_scopes st !! sc = Some s ∧ scopeName s = name ∧
    services s !! name = Some a ∧ st_arrays st !! a = Some [VRef sc] ∧
    (∀ name', services s !! name' = Some a → name' = name) ∧
    plain_host st sc ∧
    (cached st sc name 0 = VRef sc ∨ truthy (cached st sc name 0) = false).

(** A computation that keeps the property [P] of the state, whatever
    its outcome. *)
Definition keeps (P : state → Prop) {A} (m : M A) : Prop :=
  ∀ st r st', m st = (r, st') → P st → P st'.

(** The state with more events in its trace. *)
Definition add_events (st : state) (evs : list event) : state :=
  State (st_objs st) (st_scopes st) (st_arrays st) (st_trace st ++ evs)
        (st_queue st).

(** [service] does not expose [method]: [service[method]] is falsy. *)
Definition lacks (st : state) (service : value) (method : string) : Prop :=
  ∃ m, get_prop service method st = (Ret m, st) ∧ truthy m = false.

(** [service[method]] is the function [f], which answers the call
    [(options, next)] with [next(err)]. *)
Definition answers (st : state) (service : value) (method : string)
    (options : value) (f : addr) (err : value) : Prop :=
  get_prop service method st = (Ret (VRef f), st) ∧
  ∃ b, st_objs st !! f ≫= o_call = Some b ∧ b service options = Calls err.

(** The link of the chain for [service] succeeds. *)
Definition passes (st : state) (service : value) (method : string)
    (options : value) : Prop :=
  lacks st service method ∨
  ∃ f err, answers st service method options f err ∧ truthy err = false.

(** The calls made on the instances that expose [method], in order. *)
Definition calls_of (st : state) (method : string) (options : value)
    (insts : list value) : list event :=
  flat_map (λ service,
              match fst (get_prop service method st) with
              | Ret (VRef f) => [EvCall f service options]
              | _ => []
              end) insts.

(** The call that a step of a lifecycle is. *)
Definition step_call (options : value) (s : step) : list event :=
  match fst s with
  | VRef f => [EvCall f (snd s) options]
  | _ => []
  end.

(** The step is a function that answers [next(err)]. *)
Definition step_answers (st : state) (options : value) (s : step) (err : value)
  : Prop :=
  ∃ f b, fst s = VRef f ∧ st_objs st !! f ≫= o_call = Some b ∧
         b (snd s) options = Calls err.

(** Every service name is followed by a method name. *)
Fixpoint well_formed_args (args : list lifecycle_arg) : bool :=
  match args with
  | [] => true
  | ArgFunction _ :: rest => well_formed_args rest
  | ArgName _ :: rest =>
      match rest with
      | ArgName _ :: rest' => well_formed_args rest'
      | _ => false
      end
  end.

(** [expansion fuel this args st steps st']: [steps] is the list of
    arguments [args] with each function kept as one step and each pair
    (service name, method name) replaced by one bound step per instance
    that [getServices] returns for the name, in order. *)
Inductive expansion (fuel : nat) (this : addr)
  : list lifecycle_arg → state → list step → state → Prop :=
| expansion_nil st : expansion fuel this [] st [] st
| expansion_function f rest st steps st' :
    expansion fuel this rest st steps st' →
    expansion fuel this (ArgFunction f :: rest) st ((VRef f, VUndef) :: steps) st'
| expansion_pair serviceName methodName rest st insts st1 bound steps st' :
    scope_getServices fuel this serviceName VUndef st = (Ret insts, st1) →
    Forall2 (λ service (s : step),
               snd s = service ∧
               get_prop service methodName st1 = (Ret (fst s), st1) ∧
               is_function st1 (fst s) = true) insts bound →
    expansion fuel this rest st1 steps st' →
    expansion fuel this (ArgName serviceName :: ArgName methodName :: rest)
      st (bound ++ steps) st'.

(** [same_objects st st']: the objects and the queue are the same. *)
Definition same_objects (st st' : state) : Prop :=
  st_objs st' = st_objs st ∧ st_queue st' = st_queue st.

(** The step succeeds: it answers [next(err)] with a falsy [err]. *)
Definition step_passes (st : state) (options : value) (s : step) : Prop :=
  ∃ err, step_answers st options s err ∧ truthy err = false.

(** ** Further example heaps *)

(** As in the test suite: a scope "super" that lists class 2 under
    "super-service", and its sub-scope "sub"; class 3 is registered
    later. Objects 0 and 1 are the objects that are made scopes. *)
Definition family_heap : state :=
  State {[ 0 := plain_object;
           1 := plain_object;
           2 := ServiceClass no_statics ∅;
           3 := ServiceClass no_statics ∅ ]}
        ∅
        {[ 0 := [VRef 2] ]}
        [] [].

Definition super_scope : state :=
  snd (scope "super" 0 (Some {[ "super-service" := 0 ]}) None family_heap).

Definition family_state : state :=
  snd (scope_makeSubScope 0 "sub" 1 super_scope).

(** As in the test suite: class 2 is a singleton of the scope "outer"
    with an [init] hook; class 3 is transient with an [init] hook, and so
    is class 4, whose [scope] property is the empty string. Objects 0
    and 1 are made the scope "outer" and its sub-scope "inner". *)
Definition init_heap : state :=
  State {[ 0 := plain_object;
           1 := plain_object;
           2 := ServiceClass (Statics false false (Some "outer") None None true []) ∅;
           3 := ServiceClass (Statics false true None None None true []) ∅;
           4 := ServiceClass (Statics false true (Some "") None None true []) ∅ ]}
        ∅
        {[ 0 := [VRef 2; VRef 3] ]}
        [] [].

Definition init_scope : state :=
  snd (scope "outer" 0 (Some {[ "service" := 0 ]}) None init_heap).

Definition init_family : state :=
  snd (scope_makeSubScope 0 "inner" 1 init_scope).

(** A function that never calls the callback it is given. *)
Definition silent_function : object :=
  Object no_statics (Some (fun _ _ => Silent)) ∅ ∅ None [].

(** Class 1 is transient and its [method] never calls back; class 2 is
    transient and its [method] succeeds. Objects 3, 4 and 5 are the
    functions; 5 is an ad-hoc step. *)
Definition stall_heap : state :=
  State {[ 0 := plain_object;
           1 := ServiceClass transient_statics {[ "method" := VRef 3 ]};
           2 := ServiceClass transient_statics {[ "method" := VRef 4 ]};
           3 := silent_function;
           4 := succeeding_function;
           5 := succeeding_function ]}
        ∅
        {[ 0 := [VRef 2; VRef 1; VRef 2] ]}
        [] [].

Definition stall_scope : state :=
  snd (scope "" 0 (Some {[ "service" := 0 ]}) None stall_heap).

(** Two objects made scopes with each other as parent: [scope()] takes
    as parent any object, also one that is made a scope later. *)
Definition cyclic_state : state :=
  snd (scope "b" 1 (Some ∅) (Some 0)
         (snd (scope "a" 0 (Some ∅) (Some 1)
                 (State {[ 0 := plain_object; 1 := plain_object ]} ∅ ∅ [] [])))).

(** The classes of [inject_heap] on a scope that registers class 1
    only: none of the services that it injects is registered. *)
Definition bare_scope : state :=
  snd (scope "bare" 0 (Some {[ "service" := 0 ]}) None inject_heap).

(** Class 1 is a singleton that injects the service it implements. *)
Definition selfish_heap : state :=
  State {[ 0 := plain_object;
           1 := ServiceClass
                  (Statics false false None (Some ["service"]) None false []) ∅ ]}
        ∅
        {[ 0 := [VRef 1] ]}
        [] [].

Definition selfish_scope : state :=
  snd (scope "" 0 (Some {[ "service" := 0 ]}) None selfish_heap).



(** A scope "outer" and two sub-scopes of it, "one" and "two"; class 3
    is a singleton of "outer". *)
Definition siblings_heap : state :=
  State {[ 0 := plain_object;
           1 := plain_object;
           2 := plain_object;
           3 := ServiceClass (singleton_statics "outer") ∅ ]}
        ∅
        {[ 0 := [VRef 3] ]}
        [] [].

Definition siblings_state : state :=
  snd (scope_makeSubScope 0 "two" 2
         (snd (scope_makeSubScope 0 "one" 1
                 (snd (scope "outer" 0 (Some {[ "a" := 0 ]}) None siblings_heap))))).

(** ** Further vocabulary *)

(** A slot of the instance caches: a scope, a service name, an index. *)
Abbreviation slot := (addr * string * nat)%type.

(** [kept_except X st st']: every slot outside [X] that holds an instance
    in [st] holds the same instance in [st']. *)
Definition kept_except (X : list slot) (st st' : state) : Prop :=
  ∀ sc service index,
    (sc, service, index) ∉ X →
    truthy (cached st sc service index) = true →
    cached st' sc service index = cached st sc service index.

(** No slot that holds an instance loses it or gets another one. *)
Definition cache_kept : relation state := kept_except [].

(** A resolution: [require] or [getServices], not [register]. *)
Definition resolution (o : operation) : Prop :=
  match o with
  | Register _ _ => False
  | _ => True
  end.

(** Operations on several scopes, one after the other; as for
    [perform_all], what an operation has written stays when it throws. *)
Definition perform_each (fuel : nat) (ops : list (addr * operation))
    (st : state) : state :=
  foldl (λ st o, snd (perform fuel (fst o) (snd o) st)) st ops.

(** [!ServiceClass.scope]: the service names no scope to live on. *)
Definition unscoped (d : statics) : bool :=
  match scope_prop d with
  | Some a => negb (nonempty a)
  | None => true
  end.

(** The test of [scope$initialize]: the service names no scope, or the
    scope that is initialized. *)
Definition initialized_by (name : string) (d : statics) : bool :=
  match scope_prop d with
  | Some a => negb (nonempty a) || bool_decide (a = name)
  | None => true
  end.

(** The test of [scope$register] on an initialized scope: the service
    has no [scope] property of its own, or names the scope. *)
Definition initialized_late (name : string) (d : statics) : bool :=
  match scope_prop d with
  | Some a => bool_decide (a = name)
  | None => true
  end.

(** What [initializeService] records for the service [C] on the scope
    [sc]: the call of the [init] hook, then one handler per event of
    [on]. *)
Definition init_events (st : state) (sc : addr) (C : value) : list event :=
  if truthy C then
    (if init (statics_of st C) then [EvInit C sc] else [])
    ++ ((λ eventName, EvOn sc eventName C) <$> on (statics_of st C))
  else [].

(** What [scope$initialize] records for the scope [this], whose record
    is [s]. *)
Definition initialize_events (st : state) (this : addr) (s : scoped)
  : list event :=
  kv ← map_to_list (services s);
  C ← default [] (st_arrays st !! snd kv);
  if initialized_by (scopeName s) (statics_of st C) then init_events st this C
  else [].

(** The step is a function that never calls its callback. *)
Definition step_silent (st : state) (options : value) (s : step) : Prop :=
  ∃ f b, fst s = VRef f ∧ st_objs st !! f ≫= o_call = Some b ∧
         b (snd s) options = Silent.

(** [service[method]] is the function [f], which never calls the
    callback it is given. *)
Definition keeps_silent (st : state) (service : value) (method : string)
    (options : value) (f : addr) : Prop :=
  get_prop service method st = (Ret (VRef f), st) ∧
  ∃ b, st_objs st !! f ≫= o_call = Some b ∧ b service options = Silent.

(** [currentScope.parentScope], for an object that is a scope. *)
Definition parent_of (scopes : gmap addr scoped) (c : addr) : option addr :=
  scopes !! c ≫= parentScope.

(** The object reached from [c] after [k] steps to the parent. *)
Fixpoint ancestor (scopes : gmap addr scoped) (k : nat) (c : addr)
  : option addr :=
  match k with
  | 0 => Some c
  | S k' => parent_of scopes c ≫= ancestor scopes k'
  end.

(** [c] is a scope named [a]. *)
Definition named (scopes : gmap addr scoped) (a : string) (c : addr) : Prop :=
  ∃ s, scopes !! c = Some s ∧ scopeName s = a.

(** The loop of the walk goes on at [c]: a scope with another name. *)
Definition passed_by (scopes : gmap addr scoped) (a : string)
    (c : option addr) : Prop :=
  ∃ c' s, c = Some c' ∧ scopes !! c' = Some s ∧ scopeName s ≠ a.

(** The loop of the walk ends at [c] without a scope: no object, or an
    object that is no scope. *)
Definition chain_ends (scopes : gmap addr scoped) (c : option addr) : Prop :=
  c = None ∨ ∃ c', c = Some c' ∧ scopes !! c' = None.

(** [d] is the scope named [a] that is nearest to [sc] on its chain of
    parents, [k] steps up. *)
Definition nearest (scopes : gmap addr scoped) (sc : addr) (a : string)
    (k : nat) (d : addr) : Prop :=
  ancestor scopes k sc = Some d ∧ named scopes a d ∧
  ∀ j, j < k → passed_by scopes a (ancestor scopes j sc).

(** No list of services holds the object [a]. *)
Definition unlisted (st : state) (a : addr) : Prop :=
  ∀ x l, st_arrays st !! x = Some l → VRef a ∉ l.

(** [untouched a st st']: when [a] is an object of [st] that no list of
    services holds, [st'] has the lists of [st] and [a] is in [st'] the
    object that it is in [st]. *)
Definition untouched (a : addr) (st st' : state) : Prop :=
  a ∈ dom (st_objs st) → unlisted st a →
  st_arrays st' = st_arrays st ∧ st_objs st' !! a = st_objs st !! a.

(** The value is no reference, or a reference to an object that exists. *)
Definition known (st : state) (v : value) : Prop :=
  match v with
  | VRef b => b ∈ dom (st_objs st)
  | _ => True
  end.

#[global] Instance known_dec st v : Decision (known st v).
Proof. destruct v; simpl; apply _. Defined.


(** A static service: [construct] returns the registered object itself,
    and nothing makes [getSingleton] look for it in another scope. *)
Definition static_service (st : state) (D : value) : Prop :=
  truthy D = true ∧ constructible st D = false ∧
  injectProperties (statics_of st D) = None ∧
  (transient (statics_of st D) = true ∨ unscoped (statics_of st D) = true).

(** ** Properties *)

Section Monad.
Context {A B : Type}.

Lemma bind_Ret (m : M A) (k : A → M B) st b st' :
  bind m k st = (Ret b, st') →
  ∃ a st1, m st = (Ret a, st1) ∧ k a st1 = (Ret b, st').
Proof.
  unfold bind. destruct (m st) as [[a|e] st1]; [eauto | discriminate].
Qed.

Lemma bind_run (m : M A) (k : A → M B) st a st1 :
  m st = (Ret a, st1) → bind m k st = k a st1.
Proof. unfold bind. by intros ->. Qed.

Lemma bind_run_throw (m : M A) (k : A → M B) st e st1 :
  m st = (Throw e, st1) → bind m k st = (Throw e, st1).
Proof. unfold bind. by intros ->. Qed.
End Monad.

#[global] Instance extends_refl : Reflexive extends.
Proof. intros st. split; eauto. Qed.

#[global] Instance extends_trans : Transitive extends.
Proof.
  intros st1 st2 st3 [] []. split; try congruence.
  intros a o Ho. destruct (ext_objs0 a o Ho) as (o' & Ho' & ? & ?).
  destruct (ext_objs1 a o' Ho') as (o'' & ? & ? & ?).
  exists o''. split_and!; [done | congruence..].
Qed.

Lemma extends_scope st st' sc s :
  extends st st' → st_scopes st !! sc = Some s →
  ∃ s', st_scopes st' !! sc = Some s' ∧ scope_static s' = scope_static s.
Proof.
  intros E Hs. pose proof (ext_scopes _ _ E) as Hm.
  apply (f_equal (.!! sc)) in Hm. rewrite !lookup_fmap, Hs in Hm.
  destruct (st_scopes st' !! sc) as [s'|]; simplify_eq/=.
  eexists; split; [done|]. unfold scope_static. congruence.
Qed.

Lemma extends_dom_scopes st st' :
  extends st st' → dom (st_scopes st') = dom (st_scopes st).
Proof.
  intros E. rewrite <- (dom_fmap_L scope_static (st_scopes st')).
  rewrite (ext_scopes _ _ E). apply dom_fmap_L.
Qed.

Lemma extends_dom_objs st st' a :
  extends st st' → a ∈ dom (st_objs st) → a ∈ dom (st_objs st').
Proof.
  intros E [o Ho]%elem_of_dom. apply elem_of_dom.
  destruct (ext_objs _ _ E a o Ho) as (o' & -> & _). eauto.
Qed.

Lemma scope_static_inv s s' :
  scope_static s' = scope_static s →
  scopeName s' = scopeName s ∧ parentScope s' = parentScope s ∧
  services s' = services s ∧ scopeInitialized s' = scopeInitialized s.
Proof. unfold scope_static. intros ?; simplify_eq. done. Qed.

Lemma extends_services_of st st' s s' service :
  extends st st' → scope_static s' = scope_static s →
  services_of st' s' service = services_of st s service.
Proof.
  intros E (_ & _ & Hs & _)%scope_static_inv. unfold services_of.
  by rewrite Hs, (ext_arrays _ _ E).
Qed.

Lemma extends_is_function st st' v :
  extends st st' → is_function st' v = is_function st v.
Proof.
  intros E. destruct v; try done. simpl.
  pose proof (ext_core _ _ E a) as Hc. unfold core, obj_at in Hc.
  destruct (st_objs st' !! a) as [o'|], (st_objs st !! a) as [o|];
    simpl in Hc; try done; injection Hc as _ Hcall _.
  - by rewrite Hcall.
  - by rewrite Hcall.
  - by rewrite <- Hcall.
Qed.

(** *** Resolution only extends the state *)

Lemma framed_ret {A} (a : A) : framed (ret a).
Proof. intros st r st' [= <- <-]. done. Qed.

Lemma framed_throw {A} (e : error) : framed (@throw A e).
Proof. intros st r st' [= <- <-]. done. Qed.

Lemma framed_bind {A B} (m : M A) (k : A → M B) :
  framed m → (∀ a, framed (k a)) → framed (bind m k).
Proof.
  intros Hm Hk st r st'. unfold bind.
  destruct (m st) as [[a|e] st1] eqn:E; intros H.
  - etrans; [by eapply Hm | by eapply Hk].
  - simplify_eq. by eapply Hm.
Qed.

Lemma framed_read {A} (m : M A) : (∀ st, snd (m st) = st) → framed m.
Proof. intros H st r st' E. specialize (H st). rewrite E in H. by subst. Qed.

Lemma framed_get_state : framed get_state.
Proof. by apply framed_read. Qed.

Lemma framed_get_obj v : framed (get_obj v).
Proof. apply framed_read. intros st. by destruct v. Qed.

Lemma framed_get_statics v : framed (get_statics v).
Proof.
  apply framed_bind; [apply framed_get_obj | intros; apply framed_ret].
Qed.

Lemma framed_get_prop v key : framed (get_prop v key).
Proof.
  apply framed_read. intros st. unfold get_prop.
  destruct v; try done. by destruct (st_objs st !! a).
Qed.

Lemma framed_get_scope sc : framed (get_scope sc).
Proof.
  apply framed_read. intros st. unfold get_scope.
  by destruct (st_scopes st !! sc).
Qed.

Lemma framed_walk_parents sc name : framed (walk_parents sc name).
Proof. by apply framed_read. Qed.

Lemma framed_set_prop v key x : framed (set_prop v key x).
Proof.
  intros st r st'. unfold set_prop. destruct v; intros [= <- <-]; try done.
  split; try done; simpl.
  - intros b. unfold obj_at; simpl. destruct (decide (a = b)) as [->|].
    + by rewrite lookup_insert_eq.
    + by rewrite lookup_insert_ne.
  - intros b o Ho. destruct (decide (a = b)) as [->|].
    + rewrite lookup_insert_eq, Ho. eauto.
    + rewrite lookup_insert_ne by done. eauto.
Qed.

Lemma new_instance_fresh st :
  st_objs st !! fresh (dom (st_objs st) ∪ dom (st_scopes st)) = None.
Proof.
  apply not_elem_of_dom.
  pose proof (is_fresh (dom (st_objs st) ∪ dom (st_scopes st))). set_solver.
Qed.

Lemma framed_new_instance c args : framed (new_instance c args).
Proof.
  intros st r st'. unfold new_instance. intros [= <- <-].
  pose proof (new_instance_fresh st) as Hf.
  split; try done; simpl.
  - intros b. unfold obj_at; simpl.
    destruct (decide (fresh (dom (st_objs st) ∪ dom (st_scopes st)) = b)) as [<-|].
    + by rewrite lookup_insert_eq, Hf.
    + by rewrite lookup_insert_ne.
  - intros b o Ho. rewrite lookup_insert_ne by congruence. eauto.
Qed.

Lemma extends_put_scope st sc s s' :
  st_scopes st !! sc = Some s → scope_static s' = scope_static s →
  extends st (snd (put_scope sc s' st)).
Proof.
  intros Hs Heq. split; try done; simpl; [|eauto].
  rewrite fmap_insert, Heq. apply insert_id. by rewrite lookup_fmap, Hs.
Qed.

Lemma framed_set_instance sc service index v :
  framed (set_instance sc service index v).
Proof.
  intros st r st'. unfold set_instance, bind, get_scope.
  destruct (st_scopes st !! sc) as [s|] eqn:Hs; intros [= <- <-]; [|done].
  by apply (extends_put_scope st sc s).
Qed.

Lemma framed_instance_cache sc service cls :
  framed (instance_cache sc service cls).
Proof.
  intros st r st'. unfold instance_cache, bind, get_scope.
  destruct (st_scopes st !! sc) as [s|] eqn:Hs; [|by intros [= <- <-]].
  destruct (instances s !! service); [by intros [= <- <-]|].
  destruct cls; intros [= <- <-]; [|done].
  by apply (extends_put_scope st sc s).
Qed.

Lemma framed_mapM {A B} (f : A → M B) l :
  (∀ x, framed (f x)) → framed (mapM f l).
Proof.
  intros Hf. induction l as [|x l IH]; simpl; [apply framed_ret|].
  apply framed_bind; [done | intros y].
  apply framed_bind; [done | intros ys]. apply framed_ret.
Qed.

Lemma framed_mapMi {A B} (f : A → nat → M B) i l :
  (∀ x i, framed (f x i)) → framed (mapMi f i l).
Proof.
  intros Hf. revert i. induction l as [|x l IH]; intros i; simpl; [apply framed_ret|].
  apply framed_bind; [done | intros y].
  apply framed_bind; [done | intros ys]. apply framed_ret.
Qed.

Lemma framed_forM_ {A} (f : A → M unit) l :
  (∀ x, framed (f x)) → framed (forM_ f l).
Proof.
  intros Hf. induction l as [|x l IH]; simpl; [apply framed_ret|].
  by apply framed_bind.
Qed.

Create HintDb framed discriminated.
#[global] Hint Resolve framed_ret framed_throw framed_get_state framed_get_obj
  framed_get_statics framed_get_prop framed_get_scope framed_walk_parents
  framed_set_prop framed_new_instance framed_set_instance
  framed_instance_cache : framed.

(** Break a [framed] goal along the structure of the program. *)
Ltac framed_step :=
  lazymatch goal with
  | |- framed (bind _ _) => apply framed_bind; [|intros ?]
  | |- framed (mapM _ _) => apply framed_mapM; intros ?
  | |- framed (mapMi _ _ _) => apply framed_mapMi; intros ? ?
  | |- framed (forM_ _ _) => apply framed_forM_; intros ?
  | |- framed (if ?c then _ else _) => destruct c
  | |- framed (match ?x with _ => _ end) => destruct x
  | |- framed (let _ := _ in _) => cbv zeta
  | |- framed _ => solve [eauto with framed]
  end.
Ltac framed_tac := repeat framed_step.

Section Resolution.
Variable require : addr → string → value → M value.
Hypothesis framed_require : ∀ sc service options, framed (require sc service options).

Lemma framed_construct sc ServiceClass options :
  framed (construct require sc ServiceClass options).
Proof using framed_require. unfold construct. framed_tac. Qed.

Lemma framed_from_owner sc service index options serviceClass c :
  framed (from_owner require sc service index options serviceClass c).
Proof using framed_require.
  pose proof framed_construct. unfold from_owner. framed_tac.
Qed.

Lemma framed_getSingleton sc service index options :
  framed (getSingleton require sc service index options).
Proof using framed_require.
  pose proof framed_construct. pose proof framed_from_owner.
  unfold getSingleton. framed_tac.
Qed.

Lemma framed_scope_require_body this service options :
  framed (scope_require_body require this service options).
Proof using framed_require.
  pose proof framed_construct. pose proof framed_getSingleton.
  unfold scope_require_body. framed_tac.
Qed.
End Resolution.

Lemma framed_scope_require fuel this service options :
  framed (scope_require fuel this service options).
Proof.
  revert this service options. induction fuel as [|fuel IH]; intros; simpl.
  - apply framed_throw.
  - by apply framed_scope_require_body.
Qed.

#[global] Hint Resolve framed_scope_require : framed.

Lemma framed_getServiceInstance fuel self service options ServiceClass index :
  framed (getServiceInstance fuel self service options ServiceClass index).
Proof.
  pose proof (framed_construct _ (framed_scope_require fuel)).
  pose proof (framed_getSingleton _ (framed_scope_require fuel)).
  unfold getServiceInstance. framed_tac.
Qed.

Lemma framed_scope_getServices fuel self service options :
  framed (scope_getServices fuel self service options).
Proof.
  pose proof (framed_getServiceInstance fuel).
  unfold scope_getServices. framed_tac.
Qed.

(** *** Reading and writing the heap *)

Lemma array_get_set l i v : array_get (array_set l i v) i = v.
Proof.
  unfold array_get, array_set. case_decide.
  - by rewrite list_lookup_insert_eq.
  - rewrite lookup_app_r by lia. rewrite lookup_app_r by (rewrite length_replicate; lia).
    rewrite length_replicate. by replace (i - length l - (i - length l)) with 0 by lia.
Qed.

Lemma array_get_set_ne l i j v :
  i ≠ j → array_get (array_set l i v) j = array_get l j.
Proof.
  intros Hij. unfold array_get, array_set. case_decide.
  - by rewrite list_lookup_insert_ne.
  - destruct (decide (j < length l)).
    + by rewrite lookup_app_l.
    + rewrite (lookup_ge_None_2 l j) by lia. rewrite lookup_app_r by lia.
      destruct (decide (j - length l < i - length l)).
      * rewrite lookup_app_l by (rewrite length_replicate; lia).
        by rewrite lookup_replicate_2.
      * rewrite lookup_app_r by (rewrite length_replicate; lia).
        rewrite length_replicate.
        rewrite lookup_ge_None_2; [done | simpl; lia].
Qed.

Lemma array_get_replicate n i : array_get (replicate n VUndef) i = VUndef.
Proof.
  unfold array_get. destruct (replicate n VUndef !! i) eqn:E; [|done].
  by apply lookup_replicate in E as [-> _].
Qed.

Lemma indexOf_Some l x i : indexOf l x = Some i → array_get l i = x.
Proof.
  revert i. induction l as [|y l IH]; intros i; simpl; [done|].
  case_decide; [by intros [= <-]; subst|].
  destruct (indexOf l x) as [j|]; intros [= <-]. by apply IH.
Qed.

Lemma get_statics_run v st :
  v ≠ VUndef → v ≠ VNull → get_statics v st = (Ret (statics_of st v), st).
Proof. by destruct v. Qed.

Lemma get_statics_Ret v st d st' :
  get_statics v st = (Ret d, st') → st' = st ∧ d = statics_of st v.
Proof. destruct v; unfold get_statics, bind; simpl; intros [= <- <-]; done. Qed.

Lemma get_statics_Throw v st e st' :
  get_statics v st = (Throw e, st') → st' = st.
Proof. destruct v; unfold get_statics, bind; simpl; intros [= <-]; done. Qed.

Lemma get_scope_Ret sc st s st' :
  get_scope sc st = (Ret s, st') → st' = st ∧ st_scopes st !! sc = Some s.
Proof.
  unfold get_scope. destruct (st_scopes st !! sc); intros [= <- <-]; done.
Qed.

Lemma get_scope_Throw sc st e st' :
  get_scope sc st = (Throw e, st') → st' = st.
Proof. unfold get_scope. destruct (st_scopes st !! sc); by intros [= <-]. Qed.

Lemma get_scope_run sc st s :
  st_scopes st !! sc = Some s → get_scope sc st = (Ret s, st).
Proof. unfold get_scope. by intros ->. Qed.

Lemma set_instance_run sc service index v st s :
  st_scopes st !! sc = Some s →
  ∃ st', set_instance sc service index v st = (Ret tt, st') ∧
         extends st st' ∧
         cached st' sc service index = v ∧
         (∀ sc' service' index',
            (sc', service', index') ≠ (sc, service, index) →
            cached st' sc' service' index' = cached st sc' service' index').
Proof.
  intros Hs. eexists. split.
  { unfold set_instance. rewrite (bind_run _ _ _ _ _ (get_scope_run _ _ _ Hs)).
    reflexivity. }
  split; [by apply (extends_put_scope st sc s)|].
  unfold cached; simpl. split.
  - rewrite lookup_insert_eq; simpl. rewrite lookup_insert_eq; simpl.
    apply array_get_set.
  - intros sc' service' index' Hne. destruct (decide (sc' = sc)) as [->|];
      [|by rewrite lookup_insert_ne].
    rewrite lookup_insert_eq, Hs; simpl.
    destruct (decide (service' = service)) as [->|]; [|by rewrite lookup_insert_ne].
    rewrite lookup_insert_eq; simpl. apply array_get_set_ne. congruence.
Qed.

Lemma set_instance_Ret sc service index v st u st' :
  set_instance sc service index v st = (Ret u, st') →
  extends st st' ∧ cached st' sc service index = v ∧
  (∀ sc' service' index',
     (sc', service', index') ≠ (sc, service, index) →
     cached st' sc' service' index' = cached st sc' service' index').
Proof.
  intros H. destruct (st_scopes st !! sc) as [s|] eqn:Hs.
  - destruct (set_instance_run sc service index v st s Hs) as (st'' & E & ?).
    rewrite E in H. by simplify_eq.
  - unfold set_instance, bind, get_scope in H. by rewrite Hs in H.
Qed.

Lemma instance_cache_Ret sc service cls st insts st' :
  instance_cache sc service cls st = (Ret insts, st') →
  extends st st' ∧
  (∃ s', st_scopes st' !! sc = Some s' ∧ instances s' !! service = Some insts) ∧
  (∀ sc' service' index',
     cached st' sc' service' index' = cached st sc' service' index').
Proof.
  intros H. split; [by eapply framed_instance_cache|].
  cbv [instance_cache bind get_scope ret throw put_scope] in H.
  destruct (st_scopes st !! sc) as [s|] eqn:Hs; [|done].
  destruct (instances s !! service) as [l|] eqn:Hl.
  { simplify_eq. eauto. }
  destruct cls as [l|]; [|done]. simplify_eq. simpl. split.
  - rewrite lookup_insert_eq. eexists; split; [done|]. simpl. by rewrite lookup_insert_eq.
  - intros sc' service' index'. unfold cached; simpl.
    destruct (decide (sc' = sc)) as [->|]; [|by rewrite lookup_insert_ne].
    rewrite lookup_insert_eq, Hs; simpl.
    destruct (decide (service' = service)) as [->|]; [|by rewrite lookup_insert_ne].
    rewrite lookup_insert_eq, Hl; simpl. rewrite array_get_replicate.
    by destruct index'.
Qed.

Lemma cached_lookup st sc s service insts index :
  st_scopes st !! sc = Some s → instances s !! service = Some insts →
  cached st sc service index = array_get insts index.
Proof. unfold cached. by intros -> ->. Qed.

(** *** What [construct] returns *)

Lemma new_instance_Ret c args st v st' :
  new_instance c args st = (Ret v, st') →
  ∃ a, v = VRef a ∧ (a ∉ dom (st_objs st)) ∧
       st_objs st' !! a = Some (Object no_statics None ∅ ∅ (Some c) args).
Proof.
  unfold new_instance. intros [= <- <-]. eexists. split; [done|]. split.
  - apply not_elem_of_dom, (new_instance_fresh st).
  - simpl. by rewrite lookup_insert_eq.
Qed.

Section Construct.
Variable require : addr → string → value → M value.
Hypothesis framed_require : ∀ sc service options, framed (require sc service options).

Lemma framed_injectProperty sc instance (p : string * string) :
  framed (v <- require sc (snd p) VUndef ;; set_prop instance (fst p) v).
Proof using framed_require. framed_tac. Qed.

Lemma construct_static sc C options st :
  truthy C = true → constructible st C = false →
  injectProperties (statics_of st C) = None →
  construct require sc C options st = (Ret C, st).
Proof.
  intros HC Hn Hp. unfold construct. rewrite HC. simpl.
  rewrite (bind_run _ _ _ _ _ (get_statics_run C st ltac:(by destruct C) ltac:(by destruct C))).
  unfold get_state at 1, bind at 1. fold (constructible st C). rewrite Hn, Hp.
  reflexivity.
Qed.

Lemma construct_Ret sc C options st v st' :
  construct require sc C options st = (Ret v, st') → truthy C = true →
  if constructible st C then
    ∃ a c o', C = VRef c ∧ v = VRef a ∧ (a ∉ dom (st_objs st)) ∧
      st_objs st' !! a = Some o' ∧ o_class o' = Some c ∧
      match inject (statics_of st C) with
      | Some deps =>
          ∃ vs st1,
            mapM (fun dependency => require sc dependency VUndef) deps st
              = (Ret vs, st1) ∧
            o_args o' = if truthy options then vs ++ [options] else vs
      | None => o_args o' = [VRef sc; options]
      end
  else v = C.
Proof using framed_require.
  intros H HC. unfold construct in H. rewrite HC in H. simpl in H.
  apply bind_Ret in H as (d & st0 & Hd & H).
  apply get_statics_Ret in Hd as [-> ->].
  apply bind_Ret in H as (? & ? & [= <- <-] & H).
  fold (constructible st C) in H.
  apply bind_Ret in H as (instance & st0 & Hinst & H).
  apply bind_Ret in H as (u & st2 & Hprops & [= <- <-]).
  assert (extends st0 st2) as E2.
  { destruct (injectProperties (statics_of st C)).
    - eapply framed_forM_, Hprops. apply framed_injectProperty.
    - injection Hprops as _ <-. done. }
  destruct (constructible st C); [|by injection Hinst as <- <-].
  assert (∃ c args st1, C = VRef c ∧ new_instance c args st1 = (Ret instance, st0) ∧
            extends st st1 ∧
            match inject (statics_of st C) with
            | Some deps =>
                ∃ vs,
                  mapM (fun dependency => require sc dependency VUndef) deps st
                    = (Ret vs, st1) ∧
                  args = if truthy options then vs ++ [options] else vs
            | None => args = [VRef sc; options]
            end) as (c & args & st1 & -> & Hnew & E1 & Hargs).
  { destruct (inject (statics_of st C)) as [deps|].
    - apply bind_Ret in Hinst as (vs & st1 & Hvs & Hinst).
      destruct C; try done. do 3 eexists.
      split_and!; [done | done | | eauto].
      eapply framed_mapM, Hvs. intros ?. apply framed_require.
    - destruct C; try done. do 3 eexists. split_and!; [done | done | done | done]. }
  apply new_instance_Ret in Hnew as (a & -> & Hfresh & Ha).
  destruct (ext_objs _ _ E2 a _ Ha) as (o' & Ho' & Hcls & Hargs').
  exists a, c, o'. split_and!; try done.
  - intros Hin. apply Hfresh. by eapply extends_dom_objs.
  - destruct (inject (statics_of st (VRef c))).
    + destruct Hargs as (vs & Hm & ->). eauto.
    + by rewrite Hargs'.
Qed.

Lemma construct_truthy sc C options st v st' :
  construct require sc C options st = (Ret v, st') → truthy C = true →
  truthy v = true.
Proof using framed_require.
  intros H HC. pose proof (construct_Ret _ _ _ _ _ _ H HC) as Hv.
  destruct (constructible st C); [|by subst].
  by destruct Hv as (a & c & o' & _ & -> & _).
Qed.
End Construct.

(** *** What [getSingleton] returns is what it caches *)

Section Singleton.
Variable require : addr → string → value → M value.
Hypothesis framed_require : ∀ sc service options, framed (require sc service options).

Lemma from_owner_Ret sc service index options C c st v st' :
  from_owner require sc service index options C c st = (Ret (Some v), st') →
  c ≠ sc →
  ∃ cs lo ci,
    st_scopes st !! c = Some cs ∧ services_of st cs service = Some lo ∧
    indexOf lo C = Some ci ∧
    cached st' sc service index = v ∧ cached st' c service ci = v ∧
    (truthy C = true → truthy v = true).
Proof using framed_require.
  intros H Hne. unfold from_owner in H.
  apply bind_Ret in H as (cs & ? & [-> Hcs]%get_scope_Ret & H).
  apply bind_Ret in H as (? & ? & [= <- <-] & H).
  destruct (services_of st cs service) as [lo|] eqn:Hlo; [|done].
  destruct (indexOf lo C) as [ci|] eqn:Hci; [|done].
  apply bind_Ret in H as (cinsts & st1 & Hcache & H).
  apply instance_cache_Ret in Hcache as (E1 & (cs1 & Hcs1 & Hcinsts) & Hsame).
  exists cs, lo, ci. split_and!; try done.
  - destruct (truthy (array_get cinsts ci)) eqn:Ht.
    + apply bind_Ret in H as (u & st2 & Hset & [= <- <-]).
      by apply set_instance_Ret in Hset as (_ & ? & _).
    + apply bind_Ret in H as (v' & st2 & Hv' & H).
      apply bind_Ret in H as (u & st3 & Hset & H).
      apply bind_Ret in H as (u' & st4 & Hset' & [= <- <-]).
      apply set_instance_Ret in Hset as (_ & Hc & _).
      apply set_instance_Ret in Hset' as (_ & _ & Ho).
      rewrite Ho; [done | congruence].
  - destruct (truthy (array_get cinsts ci)) eqn:Ht.
    + apply bind_Ret in H as (u & st2 & Hset & [= <- <-]).
      apply set_instance_Ret in Hset as (_ & _ & Ho).
      rewrite Ho by congruence. by apply cached_lookup with cs1.
    + apply bind_Ret in H as (v' & st2 & Hv' & H).
      apply bind_Ret in H as (u & st3 & Hset & H).
      apply bind_Ret in H as (u' & st4 & Hset' & [= <- <-]).
      by apply set_instance_Ret in Hset' as (_ & ? & _).
  - intros HC. destruct (truthy (array_get cinsts ci)) eqn:Ht.
    + apply bind_Ret in H as (u & st2 & Hset & [= <- <-]). done.
    + apply bind_Ret in H as (v' & st2 & Hv' & H).
      apply bind_Ret in H as (u & st3 & Hset & H).
      apply bind_Ret in H as (u' & st4 & Hset' & [= <- <-]).
      by eapply construct_truthy.
Qed.

Lemma here_Ret sc service index options C st v st' :
  (v <- construct require sc C options ;;
   set_instance sc service index v ;;; ret v) st = (Ret v, st') →
  cached st' sc service index = v ∧ (truthy C = true → truthy v = true).
Proof using framed_require.
  intros H. apply bind_Ret in H as (v' & st1 & Hv' & H).
  apply bind_Ret in H as (u & st2 & Hset & [= <- <-]).
  apply set_instance_Ret in Hset as (_ & ? & _).
  split; [done|]. intros HC. by eapply construct_truthy.
Qed.

Lemma getSingleton_Ret sc service index options st v st' :
  getSingleton require sc service index options st = (Ret v, st') →
  cached st' sc service index = v ∧
  ((∀ s l, st_scopes st !! sc = Some s → services_of st s service = Some l →
           truthy (array_get l index) = true) →
   truthy v = true).
Proof using framed_require.
  intros H. unfold getSingleton in H.
  apply bind_Ret in H as (s & ? & [-> Hs]%get_scope_Ret & H).
  apply bind_Ret in H as (? & ? & [= <- <-] & H).
  apply bind_Ret in H as (insts & st1 & Hcache & H).
  apply instance_cache_Ret in Hcache as (E1 & (s1 & Hs1 & Hinsts) & Hsame).
  destruct (truthy (array_get insts index)) eqn:Ht.
  { injection H as <- <-. split; [by apply cached_lookup with s1 | done]. }
  destruct (services_of st s service) as [l|] eqn:Hl; [|done].
  apply bind_Ret in H as (d & ? & [-> ->]%get_statics_Ret & H).
  assert (∀ P : Prop, (truthy (array_get l index) = true → P) →
          (∀ s l, st_scopes st !! sc = Some s → services_of st s service = Some l →
                  truthy (array_get l index) = true) → P) as Htr.
  { intros P HP Hall. apply HP. by eapply Hall. }
  destruct (scope_prop (statics_of st1 (array_get l index))) as [a|];
    [destruct (nonempty a)|].
  - apply bind_Ret in H as (cur & ? & _ & H).
    apply bind_Ret in H as (found & st2 & Hfound & H).
    destruct found as [v'|].
    + injection H as <- <-.
      destruct cur as [c|]; [|done]. destruct (decide (c = sc)); [done|].
      apply from_owner_Ret in Hfound as (? & ? & ? & _ & _ & _ & Hc & _ & Htv); [|done].
      split; [done|]. by apply Htr.
    + destruct (decide (scopeName s = a)); [|done].
      apply here_Ret in H as [? ?]. split; [done|]. by apply Htr.
  - apply here_Ret in H as [? ?]. split; [done|]. by apply Htr.
  - apply here_Ret in H as [? ?]. split; [done|]. by apply Htr.
Qed.
End Singleton.

Lemma extends_statics_of st st' v :
  extends st st' → statics_of st' v = statics_of st v.
Proof.
  intros E. destruct v; try done. simpl.
  pose proof (ext_core _ _ E a) as Hc. by injection Hc as -> _ _.
Qed.

Lemma extends_constructible st st' v :
  extends st st' → constructible st' v = constructible st v.
Proof.
  intros E. unfold constructible.
  by rewrite (extends_is_function _ _ _ E), (extends_statics_of _ _ _ E).
Qed.

Lemma last_array_get l D : last l = Some D → array_get l (length l - 1) = D.
Proof.
  rewrite last_lookup. unfold array_get.
  replace (pred (length l)) with (length l - 1) by lia. by intros ->.
Qed.

Lemma last_nonempty {A} (l : list A) D : last l = Some D → 0 < length l.
Proof. destruct l; [done | simpl; lia]. Qed.

Lemma instance_cache_hit sc service cls st s insts :
  st_scopes st !! sc = Some s → instances s !! service = Some insts →
  instance_cache sc service cls st = (Ret insts, st).
Proof.
  intros Hs Hi. unfold instance_cache.
  rewrite (bind_run _ _ _ _ _ (get_scope_run _ _ _ Hs)). by rewrite Hi.
Qed.

(** A slot that holds an instance answers at once. *)
Lemma getSingleton_cached require sc service index options st v :
  cached st sc service index = v → truthy v = true →
  getSingleton require sc service index options st = (Ret v, st).
Proof.
  unfold cached. intros Hv Ht.
  destruct (st_scopes st !! sc) as [s|] eqn:Hs; [|by subst].
  destruct (instances s !! service) as [insts|] eqn:Hi; [|by subst].
  simpl in Hv. unfold getSingleton.
  rewrite (bind_run _ _ _ _ _ (get_scope_run _ _ _ Hs)).
  unfold get_state at 1, bind at 1.
  rewrite (bind_run _ _ _ _ _ (instance_cache_hit _ _ _ _ _ _ Hs Hi)).
  by rewrite Hv, Ht.
Qed.

(** [require] is the resolution of the last registered service. *)
Lemma require_last n sc service options st s l D :
  st_scopes st !! sc = Some s → services_of st s service = Some l →
  last l = Some D → truthy D = true →
  scope_require (S n) sc service options st =
    if transient (statics_of st D)
    then construct (scope_require n) sc D options st
    else getSingleton (scope_require n) sc service (length l - 1) options st.
Proof.
  intros Hs Hl Hlast HD. simpl. unfold scope_require_body.
  rewrite (bind_run _ _ _ _ _ (get_scope_run _ _ _ Hs)).
  unfold get_state at 1, bind at 1. rewrite Hl.
  rewrite decide_True by (by eapply last_nonempty).
  rewrite (last_array_get _ _ Hlast), HD. simpl.
  rewrite (bind_run _ _ _ _ _ (get_statics_run D st ltac:(by destruct D) ltac:(by destruct D))).
  by destruct (transient (statics_of st D)).
Qed.

Lemma require_last_falsy n sc service options st s l D :
  st_scopes st !! sc = Some s → services_of st s service = Some l →
  last l = Some D → truthy D = false →
  scope_require (S n) sc service options st = (Ret VNull, st).
Proof.
  intros Hs Hl Hlast HD. simpl. unfold scope_require_body.
  rewrite (bind_run _ _ _ _ _ (get_scope_run _ _ _ Hs)).
  unfold get_state at 1, bind at 1. rewrite Hl.
  rewrite decide_True by (by eapply last_nonempty).
  by rewrite (last_array_get _ _ Hlast), HD.
Qed.

(** *** Singletons and transients *)





(** *** [require] and [getServices] *)

Lemma mapMi_Ret {A B} (f : A → nat → M B) i l st vs st' :
  mapMi f i l st = (Ret vs, st') → resolved_in_order f i l st vs st'.
Proof.
  revert i st vs. induction l as [|x l IH]; intros i st vs H; simpl in H.
  - injection H as <- <-. constructor.
  - apply bind_Ret in H as (y & st1 & Hy & H).
    apply bind_Ret in H as (ys & st2 & Hys & [= <- <-]).
    econstructor; eauto.
Qed.

Lemma resolved_in_order_length {A B} (f : A → nat → M B) i l st vs st' :
  resolved_in_order f i l st vs st' → length vs = length l.
Proof. induction 1; simpl; congruence. Qed.

(** *** Computations that respect a preorder on states *)

Section Respects.
Context (R : relation state) `{!PreOrder R}.

Lemma respects_ret {A} (a : A) : respects R (ret a).
Proof. intros st r st' [= <- <-]. done. Qed.

Lemma respects_throw {A} (e : error) : respects R (@throw A e).
Proof. intros st r st' [= <- <-]. done. Qed.

Lemma respects_read {A} (m : M A) : (∀ st, snd (m st) = st) → respects R m.
Proof. intros H st r st' E. specialize (H st). rewrite E in H. by subst. Qed.

Lemma respects_bind {A B} (m : M A) (k : A → M B) :
  respects R m → (∀ a, respects R (k a)) → respects R (bind m k).
Proof.
  intros Hm Hk st r st'. unfold bind.
  destruct (m st) as [[a|e] st1] eqn:E; intros H.
  - etrans; [by eapply Hm | by eapply Hk].
  - simplify_eq. by eapply Hm.
Qed.

Lemma respects_forM_ {A} (f : A → M unit) l :
  (∀ x, respects R (f x)) → respects R (forM_ f l).
Proof.
  intros Hf. induction l as [|x l IH]; simpl; [apply respects_ret|].
  by apply respects_bind.
Qed.

Lemma respects_mapM {A B} (f : A → M B) l :
  (∀ x, respects R (f x)) → respects R (mapM f l).
Proof.
  intros Hf. induction l as [|x l IH]; simpl; [apply respects_ret|].
  apply respects_bind; [done | intros y].
  apply respects_bind; [done | intros ys]. apply respects_ret.
Qed.

Lemma respects_get_state : respects R get_state.
Proof. by apply respects_read. Qed.

Lemma respects_get_obj v : respects R (get_obj v).
Proof. apply respects_read. intros st. by destruct v. Qed.

Lemma respects_get_statics v : respects R (get_statics v).
Proof.
  apply respects_bind; [apply respects_get_obj | intros; apply respects_ret].
Qed.

Lemma respects_get_prop v key : respects R (get_prop v key).
Proof.
  apply respects_read. intros st. unfold get_prop.
  destruct v; try done. by destruct (st_objs st !! a).
Qed.

Lemma respects_get_scope sc : respects R (get_scope sc).
Proof.
  apply respects_read. intros st. unfold get_scope.
  by destruct (st_scopes st !! sc).
Qed.
End Respects.

#[global] Instance same_heap_preorder : PreOrder same_heap.
Proof.
  split.
  - by intros st.
  - intros st1 st2 st3 (? & ? & ? & ?) (? & ? & ? & ?).
    unfold same_heap. split_and!; congruence.
Qed.

Lemma same_heap_log e : respects same_heap (log e).
Proof. by intros st r st' [= <- <-]. Qed.

(** Break a [respects] goal along the structure of the program. *)
Ltac respects_step :=
  lazymatch goal with
  | |- respects _ (bind _ _) => apply respects_bind; [apply _| |intros ?]
  | |- respects _ (forM_ _ _) => apply respects_forM_; [apply _|intros ?]
  | |- respects _ (mapM _ _) => apply respects_mapM; [apply _|intros ?]
  | |- respects _ (ret _) => apply respects_ret, _
  | |- respects _ (throw _) => apply respects_throw, _
  | |- respects _ get_state => apply respects_get_state, _
  | |- respects _ (get_obj _) => apply respects_get_obj, _
  | |- respects _ (get_statics _) => apply respects_get_statics, _
  | |- respects _ (get_prop _ _) => apply respects_get_prop, _
  | |- respects _ (get_scope _) => apply respects_get_scope, _
  | |- respects same_heap (log _) => apply same_heap_log
  | |- respects _ (if ?c then _ else _) => destruct c
  | |- respects _ (match ?x with _ => _ end) => destruct x
  | |- respects _ (let _ := _ in _) => cbv zeta
  | |- respects _ _ => solve [eauto]
  end.
Ltac respects_tac := repeat respects_step.

(** An initialisation writes no scope, no object and no array. *)
Lemma same_heap_initializeService sc C :
  respects same_heap (initializeService sc C).
Proof. unfold initializeService. respects_tac. Qed.

(** What [register] writes: it appends to the array of the name, or
    creates it; the initialisation that follows only adds to the trace. *)
Lemma scope_register_effect this name C st r st' s :
  scope_register this name C st = (r, st') →
  st_scopes st !! this = Some s →
  st_objs st' = st_objs st ∧ st_queue st' = st_queue st ∧
  match services s !! name ≫= (λ a, (a,.) <$> st_arrays st !! a) with
  | Some (a, l) =>
      st_scopes st' = st_scopes st ∧
      st_arrays st' = <[a := l ++ [C]]> (st_arrays st)
  | None =>
      let a := fresh (dom (st_arrays st)) in
      st_scopes st' = <[this := with_services s (<[name := a]> (services s))]> (st_scopes st) ∧
      st_arrays st' = <[a := [C]]> (st_arrays st)
  end.
Proof.
  intros H Hs. unfold scope_register in H.
  rewrite (bind_run _ _ _ _ _ (get_scope_run _ _ _ Hs)) in H.
  unfold get_state at 1, bind at 1 in H.
  assert (respects same_heap
            ((if scopeInitialized s then
                d <- get_statics C ;;
                match scope_prop d with
                | Some a =>
                    if bool_decide (a = scopeName s) then initializeService this C
                    else ret tt
                | None => initializeService this C
                end
              else ret tt) ;;; ret this)) as Htail.
  { pose proof same_heap_initializeService. respects_tac. }
  destruct (services s !! name ≫= (λ a, (a,.) <$> st_arrays st !! a))
    as [[a l]|] eqn:Hl.
  - unfold bind at 1, put_array at 1 in H.
    apply Htail in H as (? & ? & ? & ?). simpl in *. done.
  - unfold bind at 1, bind at 1, new_array at 1, put_scope at 1 in H.
    apply Htail in H as (? & ? & ? & ?). simpl in *. done.
Qed.






(** *** Constructor arguments *)




(** *** The walk to the owning scope *)

Lemma walk_static n scopes scopes' cur a :
  scope_static <$> scopes' = scope_static <$> scopes →
  walk n scopes' cur a = walk n scopes cur a.
Proof.
  intros Heq. revert cur. induction n as [|n IH]; intros [c|]; simpl; try done.
  all: pose proof (f_equal (.!! c) Heq) as Hc; rewrite !lookup_fmap in Hc;
    destruct (scopes' !! c) as [s'|], (scopes !! c) as [s|]; simpl in Hc; try done;
    injection Hc as Hn Hp _ _; rewrite Hn, ?Hp; case_decide; try done.
Qed.

Lemma owner_of_extends st st' sc a :
  extends st st' → owner_of st' sc a = owner_of st sc a.
Proof.
  intros E. unfold owner_of.
  rewrite <- !(size_dom (D:=gset nat)), (extends_dom_scopes _ _ E).
  apply walk_static, (ext_scopes _ _ E).
Qed.

Lemma walk_Some n scopes cur a c :
  walk n scopes cur a = Ret (Some c) →
  ∃ s, scopes !! c = Some s ∧ scopeName s = a.
Proof.
  revert cur. induction n as [|n IH]; intros [c'|]; simpl; try done.
  - destruct (scopes !! c') as [s|] eqn:Hs; [|done].
    case_decide; [|done]. intros [= <-]. eauto.
  - destruct (scopes !! c') as [s|] eqn:Hs; [|done].
    case_decide; [intros [= <-]; eauto | apply IH].
Qed.

Lemma owner_of_self st sc s :
  st_scopes st !! sc = Some s → owner_of st sc (scopeName s) = Ret (Some sc).
Proof.
  intros Hs. unfold owner_of. destruct (size (st_scopes st)); simpl;
    by rewrite Hs, decide_True.
Qed.

Lemma owner_of_other st sc s a c :
  st_scopes st !! sc = Some s → scopeName s ≠ a →
  owner_of st sc a = Ret (Some c) → c ≠ sc.
Proof.
  intros Hs Hne Hw ->. apply walk_Some in Hw as (s' & Hs' & Hn). congruence.
Qed.

(** *** [getSingleton] on an empty slot *)

Lemma instance_cache_run sc service l st s :
  st_scopes st !! sc = Some s →
  ∃ insts st1,
    instance_cache sc service (Some l) st = (Ret insts, st1) ∧
    extends st st1 ∧
    (∃ s1, st_scopes st1 !! sc = Some s1 ∧ instances s1 !! service = Some insts ∧
           scope_static s1 = scope_static s) ∧
    (∀ sc' service' index',
       cached st1 sc' service' index' = cached st sc' service' index').
Proof.
  intros Hs.
  destruct (instance_cache sc service (Some l) st) as [[insts|e] st1] eqn:E.
  - pose proof E as (Hext & (s1 & Hs1 & Hi) & Hsame)%instance_cache_Ret.
    exists insts, st1. split_and!; try done. exists s1. split_and!; try done.
    destruct (extends_scope _ _ _ _ Hext Hs) as (s1' & Hs1' & ?). congruence.
  - unfold instance_cache in E.
    rewrite (bind_run _ _ _ _ _ (get_scope_run _ _ _ Hs)) in E.
    by destruct (instances s !! service).
Qed.

Lemma getSingleton_miss require sc service index options st s l :
  st_scopes st !! sc = Some s → services_of st s service = Some l →
  truthy (cached st sc service index) = false →
  getSingleton require sc service index options st
  = resolve_miss require sc service index options s l
      (snd (instance_cache sc service (Some l) st)).
Proof.
  intros Hs Hl Hmiss. unfold getSingleton.
  rewrite (bind_run _ _ _ _ _ (get_scope_run _ _ _ Hs)).
  unfold get_state at 1, bind at 1. rewrite Hl.
  destruct (instance_cache_run sc service l st s Hs)
    as (insts & st1 & E & _ & (s1 & Hs1 & Hi & _) & Hsame).
  rewrite (bind_run _ _ _ _ _ E), E. simpl.
  rewrite <- (cached_lookup _ _ _ _ _ index Hs1 Hi), Hsame, Hmiss.
  reflexivity.
Qed.

(** *** When resolution throws *)

Lemma walk_Throw n scopes cur a e : walk n scopes cur a = Throw e → e = Diverges.
Proof.
  revert cur. induction n as [|n IH]; intros [c|]; simpl; try done.
  - destruct (scopes !! c); [|done]. case_decide; [done|]. by intros [= <-].
  - destruct (scopes !! c); [|done]. case_decide; [done|]. apply IH.
Qed.

Section Throws.
Variable require : addr → string → value → M value.
Hypothesis framed_require : ∀ sc service options, framed (require sc service options).

(** The direct construction throws only what [construct] throws. *)
Lemma here_Throw sc service index options C st s e :
  st_scopes st !! sc = Some s →
  ((v <- construct require sc C options ;;
    set_instance sc service index v ;;; ret v) st).1 = Throw e →
  (construct require sc C options st).1 = Throw e.
Proof using framed_require.
  intros Hs. unfold bind at 1.
  destruct (construct require sc C options st) as [[v|e'] st1] eqn:E; [|done].
  assert (extends st st1) as Hext by (by eapply framed_construct).
  destruct (extends_scope _ _ _ _ Hext Hs) as (s1 & Hs1 & _).
  destruct (set_instance_run sc service index v st1 s1 Hs1) as (st2 & E2 & _).
  by rewrite (bind_run _ _ _ _ _ E2).
Qed.

(** The resolution in the owning scope throws only a [TypeError], when
    that scope has no list for the service, or what [construct] throws. *)
Lemma from_owner_Throw sc service index options C c st s cs e :
  st_scopes st !! sc = Some s → st_scopes st !! c = Some cs →
  (from_owner require sc service index options C c st).1 = Throw e →
  (e = TypeError ∧ services_of st cs service = None) ∨
  ∃ st0, extends st st0 ∧ (construct require c C options st0).1 = Throw e.
Proof using framed_require.
  intros Hs Hcs. unfold from_owner.
  rewrite (bind_run _ _ _ _ _ (get_scope_run _ _ _ Hcs)).
  unfold get_state at 1, bind at 1.
  destruct (services_of st cs service) as [lo|] eqn:Hlo; [|by intros [= <-]; left].
  destruct (indexOf lo C) as [ci|]; [|done].
  destruct (instance_cache_run c service lo st cs Hcs)
    as (cinsts & st1 & E & Hext & (cs1 & Hcs1 & _) & _).
  rewrite (bind_run _ _ _ _ _ E).
  destruct (extends_scope _ _ _ _ Hext Hs) as (s1 & Hs1 & _).
  destruct (truthy (array_get cinsts ci)).
  - destruct (set_instance_run sc service index (array_get cinsts ci) st1 s1 Hs1)
      as (st2 & E2 & _).
    by rewrite (bind_run _ _ _ _ _ E2).
  - unfold bind at 1.
    destruct (construct require c C options st1) as [[v|e'] st2] eqn:Ec.
    + assert (extends st1 st2) as Hext2 by (by eapply framed_construct).
      destruct (extends_scope _ _ _ _ Hext2 Hs1) as (s2 & Hs2 & _).
      destruct (set_instance_run sc service index v st2 s2 Hs2)
        as (st3 & E3 & Hext3 & _).
      rewrite (bind_run _ _ _ _ _ E3).
      destruct (extends_scope _ _ _ _ Hext2 Hcs1) as (cs2 & Hcs2 & _).
      destruct (extends_scope _ _ _ _ Hext3 Hcs2) as (cs3 & Hcs3 & _).
      destruct (set_instance_run c service ci v st3 cs3 Hcs3) as (st4 & E4 & _).
      by rewrite (bind_run _ _ _ _ _ E4).
    + intros [= <-]. right. exists st1. by rewrite Ec.
Qed.
End Throws.

Lemma from_owner_absent require sc service index options C c st cs lo :
  st_scopes st !! c = Some cs → services_of st cs service = Some lo →
  indexOf lo C = None →
  from_owner require sc service index options C c st = (Ret None, st).
Proof.
  intros Hcs Hlo Hidx. unfold from_owner.
  rewrite (bind_run _ _ _ _ _ (get_scope_run _ _ _ Hcs)).
  unfold get_state at 1, bind at 1. by rewrite Hlo, Hidx.
Qed.

Lemma from_owner_None require sc service index options C c st st' :
  from_owner require sc service index options C c st = (Ret None, st') →
  ∃ cs lo, st_scopes st !! c = Some cs ∧ services_of st cs service = Some lo ∧
           indexOf lo C = None.
Proof.
  intros H. unfold from_owner in H.
  apply bind_Ret in H as (cs & ? & [-> Hcs]%get_scope_Ret & H).
  apply bind_Ret in H as (? & ? & [= <- <-] & H).
  destruct (services_of st cs service) as [lo|] eqn:Hlo; [|done].
  destruct (indexOf lo C) as [ci|] eqn:Hidx; [|by eauto].
  apply bind_Ret in H as (cinsts & st1 & _ & H).
  destruct (truthy (array_get cinsts ci)).
  - by apply bind_Ret in H as (? & ? & _ & ?).
  - apply bind_Ret in H as (? & ? & _ & H).
    apply bind_Ret in H as (? & ? & _ & H).
    by apply bind_Ret in H as (? & ? & _ & ?).
Qed.

Lemma construct_dependency_free require sc D options st :
  truthy D = true → dependency_free st D →
  ∃ v st', construct require sc D options st = (Ret v, st').
Proof.
  intros HD [Hp Hi]. unfold construct. rewrite HD. simpl.
  rewrite (bind_run _ _ _ _ _ (get_statics_run D st ltac:(by destruct D) ltac:(by destruct D))).
  unfold get_state at 1, bind at 1. fold (constructible st D). rewrite Hp.
  destruct (constructible st D) eqn:Hc.
  - rewrite Hi by done. unfold constructible, is_function in Hc.
    destruct D; try done. do 2 eexists. reflexivity.
  - do 2 eexists. reflexivity.
Qed.

(** C3, as the code has it: resolving a service object [D] whose slot is
    still empty throws the error that carries the service name and the
    required scope name when [D] declares a non-empty affinity [a] that
    cannot be satisfied: the requesting scope is not named [a], and the
    walk of the parent chain reaches no scope named [a], or reaches one
    whose list for the service does not hold [D].  Whatever else
    [getSingleton] throws is the end of the walk on a cyclic chain, the
    missing list of the scope it reached, or what [construct] throws; and
    [construct] returns when [D] has no dependency to resolve, so that
    the error is then thrown if and only if the affinity cannot be
    satisfied. *)
Theorem getSingleton_error n sc service index options st s l d :
  st_scopes st !! sc = Some s →
  services_of st s service = Some l →
  l !! index = Some (VRef d) →
  truthy (cached st sc service index) = false →
  let D := VRef d in
  let run := getSingleton (scope_require n) sc service index options st in
  (∀ a, scope_prop (statics_of st D) = Some a → nonempty a = true →
        unsatisfiable st sc s service D a →
        run.1 = Throw (NoInstance service a))
  ∧ (∀ e, run.1 = Throw e →
       (∃ a, scope_prop (statics_of st D) = Some a ∧ nonempty a = true ∧
          (e = NoInstance service a ∧ unsatisfiable st sc s service D a
           ∨ e = Diverges ∧ owner_of st sc a = Throw Diverges
           ∨ e = TypeError ∧
             ∃ c cs, owner_of st sc a = Ret (Some c) ∧ c ≠ sc ∧
                     st_scopes st !! c = Some cs ∧
                     services_of st cs service = None))
       ∨ ∃ target st0,
           extends st st0 ∧
           (construct (scope_require n) target D options st0).1 = Throw e)
  ∧ (dependency_free st D →
     ∀ target st0, extends st st0 →
       ∃ v, (construct (scope_require n) target D options st0).1 = Ret v)
  ∧ (dependency_free st D →
     ∀ a, run.1 = Throw (NoInstance service a) ↔
          scope_prop (statics_of st D) = Some a ∧ nonempty a = true ∧
          unsatisfiable st sc s service D a).
Proof.
  intros Hs Hl HD Hmiss D run.
  match goal with |- ?A ∧ ?B ∧ ?C ∧ _ =>
    assert (A ∧ B ∧ C) as (H1 & H2 & H3);
      [|split_and!; [exact H1 | exact H2 | exact H3 |]]
  end.
  2:{ intros Hfree a. split.
      - intros He. destruct (H2 _ He) as [(a' & Ha & Hne & Hcase)|(t & st0 & H0 & Hc)].
        + destruct Hcase as [[[= <-] Hu]|[[? _]|[? _]]]; done.
        + destruct (H3 Hfree t st0 H0) as [v Hv]. congruence.
      - intros (Ha & Hne & Hu). by apply H1. }
  assert (array_get l index = D) as Hget by (unfold array_get; by rewrite HD).
  destruct (instance_cache_run sc service l st s Hs)
    as (insts & st1 & E & Hext & (s1 & Hs1 & _ & Hstat) & _).
  assert (run = resolve_miss (scope_require n) sc service index options s l st1)
    as Hrun.
  { unfold run. rewrite (getSingleton_miss _ _ _ _ _ _ _ _ Hs Hl Hmiss). by rewrite E. }
  assert (get_statics D st1 = (Ret (statics_of st D), st1)) as Hd.
  { rewrite <- (extends_statics_of _ _ D Hext). by apply get_statics_run. }
  assert (∀ a, walk_parents sc a st1 = (owner_of st sc a, st1)) as Hwalk.
  { intros a. unfold walk_parents. fold (owner_of st1 sc a).
    by rewrite (owner_of_extends _ _ _ _ Hext). }
  assert (∀ c cs, st_scopes st !! c = Some cs →
            ∃ cs1, st_scopes st1 !! c = Some cs1 ∧
                   services_of st1 cs1 service = services_of st cs service)
    as Hsvc.
  { intros c cs Hcs. destruct (extends_scope _ _ _ _ Hext Hcs) as (cs1 & Hcs1 & Hst).
    exists cs1. split; [done|]. by apply extends_services_of. }
  rewrite Hrun. unfold resolve_miss. rewrite Hget.
  rewrite (bind_run _ _ _ _ _ Hd).
  split_and!.
  - intros a Ha Hne [Hname Hunsat]. rewrite Ha, Hne.
    pose proof (Hwalk a) as Hwa.
    destruct Hunsat as [Hw | (c & cs & lo & Hw & Hcs & Hlo & Hidx)];
      rewrite Hw in Hwa; rewrite (bind_run _ _ _ _ _ Hwa).
    + unfold bind at 1, ret at 1.
      by rewrite decide_False.
    + rewrite (decide_False (P := c = sc))
        by exact (owner_of_other _ _ _ _ _ Hs Hname Hw).
      destruct (Hsvc c cs Hcs) as (cs1 & Hcs1 & Hsvc1).
      rewrite Hlo in Hsvc1.
      rewrite (bind_run _ _ _ _ _ (from_owner_absent _ _ _ _ _ _ _ _ _ _ Hcs1 Hsvc1 Hidx)).
      by rewrite decide_False.
  - intros e He.
    assert (∀ st2, extends st st2 → st_scopes st2 !! sc ≠ None) as Hsc.
    { intros st2 H2. by destruct (extends_scope _ _ _ _ H2 Hs) as (? & -> & _). }
    assert (((v <- construct (scope_require n) sc D options ;;
              set_instance sc service index v ;;; ret v) st1).1 = Throw e →
            ∃ target st0, extends st st0 ∧
              (construct (scope_require n) target D options st0).1 = Throw e)
      as Hhere.
    { intros H. exists sc, st1. split; [done|].
      eapply here_Throw; [apply framed_scope_require | done | done]. }
    destruct (scope_prop (statics_of st D)) as [a|] eqn:Ha; [|by right; apply Hhere].
    destruct (nonempty a) eqn:Hne; [|by right; apply Hhere].
    pose proof (Hwalk a) as Hwa.
    destruct (owner_of st sc a) as [[c|]|e'] eqn:Hw;
      [rewrite (bind_run _ _ _ _ _ Hwa) in He..
      |rewrite (bind_run_throw _ _ _ _ _ Hwa) in He].
    + destruct (decide (c = sc)) as [->|Hc].
      * unfold bind at 1, ret at 1 in He.
        apply walk_Some in Hw as (s' & Hs' & Hn). simplify_eq.
        rewrite decide_True in He by done. right. by apply Hhere.
      * pose proof Hw as (cs & Hcs & Hn)%walk_Some.
        destruct (Hsvc c cs Hcs) as (cs1 & Hcs1 & Hsvc1).
        unfold bind at 1 in He.
        destruct (from_owner _ _ _ _ _ _ _ _) as [[[v|]|e'] st2] eqn:Ef;
          simpl in He.
        -- done.
        -- assert (scopeName s ≠ a) as Hname.
           { intros <-. rewrite (owner_of_self _ _ _ Hs) in Hw. congruence. }
           rewrite decide_False in He by done. injection He as <-.
           left. exists a. split_and!; try done. left. split; [done|].
           split; [done|]. right.
           apply from_owner_None in Ef as (cs1' & lo & Hcs1' & Hlo & Hidx).
           exists c, cs, lo. split_and!; try done. rewrite <- Hsvc1. congruence.
        -- injection He as <-.
           pose proof (from_owner_Throw _ (framed_scope_require n) sc service index
                         options D c st1 s1 cs1 e' Hs1 Hcs1) as Hf.
           rewrite Ef in Hf. destruct (Hf eq_refl) as [[-> Hnone]|(st0 & H0 & Hc0)].
           ++ left. exists a. split_and!; try done. right. right. split; [done|].
              exists c, cs. split_and!; try done. by rewrite <- Hsvc1.
           ++ right. exists c, st0. split; [by etrans|done].
    + unfold bind at 1, ret at 1 in He.
      destruct (decide (scopeName s = a)); [by right; apply Hhere|].
      injection He as <-. left. exists a. split_and!; try done.
      left. split; [done|]. split; [done|]. by left.
    + injection He as <-. left. exists a. split_and!; try done.
      pose proof (walk_Throw _ _ _ _ _ Hw) as ->. right. left. done.
  - intros Hfree target st0 H0.
    destruct (construct_dependency_free (scope_require n) target D options st0)
      as (v & st' & Hv); [done | |].
    + destruct Hfree as [Hp Hi]. split.
      * by rewrite (extends_statics_of _ _ D H0).
      * by rewrite (extends_statics_of _ _ D H0), (extends_constructible _ _ D H0).
    + exists v. by rewrite Hv.
Qed.

Lemma getSingleton_error_witness :
  (getSingleton (scope_require 1) 1 "service" 0 VUndef orphan_state).1
  = Throw (NoInstance "service" "outer").
Proof.
  refine (proj1 (getSingleton_error 1 1 "service" 0 VUndef orphan_state _ [VRef 2] 2
                   _ _ _ _) "outer" _ _ _).
  - vm_compute; reflexivity.
  - vm_compute; reflexivity.
  - reflexivity.
  - vm_compute; reflexivity.
  - vm_compute; reflexivity.
  - reflexivity.
  - split; [by vm_compute|]. right.
    exists 0, (default (Scoped "" None ∅ ∅ false) (st_scopes orphan_state !! 0)),
      [VRef 3].
    split_and!; vm_compute; reflexivity.
Defined.

(** The walk from "inner" reaches "outer", and the error is thrown all
    the same: "outer" does not list the service. *)
Lemma owner_without_service_throws :
  ¬ (∀ n sc service index options st s l D a,
       st_scopes st !! sc = Some s → services_of st s service = Some l →
       l !! index = Some D → scope_prop (statics_of st D) = Some a →
       ((getSingleton (scope_require n) sc service index options st).1
          = Throw (NoInstance service a)
        ↔ owner_of st sc a = Ret None ∧ scopeName s ≠ a)).
Proof.
  intros H.
  assert (st_scopes orphan_state !! 1 =
            Some (default (Scoped "" None ∅ ∅ false) (st_scopes orphan_state !! 1)))
    as Hs by (vm_compute; reflexivity).
  assert (services_of orphan_state
            (default (Scoped "" None ∅ ∅ false) (st_scopes orphan_state !! 1))
            "service" = Some [VRef 2]) as Hl by (vm_compute; reflexivity).
  assert (scope_prop (statics_of orphan_state (VRef 2)) = Some "outer") as Ha
    by (vm_compute; reflexivity).
  destruct (H 1 1 "service" 0 VUndef orphan_state _ _ (VRef 2) "outer" Hs Hl eq_refl Ha)
    as [Hthrow _].
  destruct Hthrow as [Hw _]; [vm_compute; reflexivity|].
  vm_compute in Hw. discriminate.
Qed.

(** *** Singletons of an ancestor scope *)

(** The owning scope already holds the instance: the requesting scope
    takes it. *)
Lemma from_owner_hit require sc service index options C c st s cs lo ci v :
  st_scopes st !! sc = Some s → st_scopes st !! c = Some cs → c ≠ sc →
  services_of st cs service = Some lo → indexOf lo C = Some ci →
  cached st c service ci = v → truthy v = true →
  ∃ st', from_owner require sc service index options C c st = (Ret (Some v), st') ∧
         extends st st' ∧
         cached st' sc service index = v ∧ cached st' c service ci = v.
Proof.
  intros Hs Hcs Hne Hlo Hidx Hv Ht. unfold from_owner.
  rewrite (bind_run _ _ _ _ _ (get_scope_run _ _ _ Hcs)).
  unfold get_state at 1, bind at 1. rewrite Hlo, Hidx.
  assert (∃ cinsts, instances cs !! service = Some cinsts ∧ array_get cinsts ci = v)
    as (cinsts & Hci & Hget).
  { unfold cached in Hv. rewrite Hcs in Hv.
    destruct (instances cs !! service) as [cinsts|]; [by eauto|].
    simpl in Hv. subst. done. }
  rewrite (bind_run _ _ _ _ _ (instance_cache_hit _ _ _ _ _ _ Hcs Hci)).
  rewrite Hget, Ht.
  destruct (set_instance_run sc service index v st s Hs) as (st' & E & Hext & Hc & Ho).
  rewrite (bind_run _ _ _ _ _ E). exists st'. split_and!; try done.
  rewrite Ho by congruence. done.
Qed.

(** On an empty slot whose service belongs to another scope [c] reached
    by the walk, [getSingleton] is the resolution in [c]. *)
Lemma getSingleton_miss_owner require sc service index options st s l D a c :
  st_scopes st !! sc = Some s → services_of st s service = Some l →
  truthy (cached st sc service index) = false →
  array_get l index = D → D ≠ VUndef → D ≠ VNull →
  scope_prop (statics_of st D) = Some a → nonempty a = true →
  owner_of st sc a = Ret (Some c) → c ≠ sc →
  ∃ st1,
    extends st st1 ∧
    (∀ sc' service' index',
       cached st1 sc' service' index' = cached st sc' service' index') ∧
    getSingleton require sc service index options st
    = (found <- from_owner require sc service index options D c ;;
       match found with
       | Some v => ret v
       | None =>
           if decide (scopeName s = a) then
             v <- construct require sc D options ;;
             set_instance sc service index v ;;; ret v
           else throw (NoInstance service a)
       end) st1.
Proof.
  intros Hs Hl Hmiss Hget HD1 HD2 Ha Hne Hw Hc.
  destruct (instance_cache_run sc service l st s Hs)
    as (insts & st1 & E & Hext & _ & Hsame).
  exists st1. split_and!; try done.
  rewrite (getSingleton_miss _ _ _ _ _ _ _ _ Hs Hl Hmiss), E. simpl.
  unfold resolve_miss. rewrite Hget.
  rewrite (bind_run _ _ _ _ _ (get_statics_run D st1 HD1 HD2)).
  rewrite (extends_statics_of _ _ D Hext), Ha, Hne.
  assert (walk_parents sc a st1 = (Ret (Some c), st1)) as Hwa.
  { unfold walk_parents. fold (owner_of st1 sc a).
    by rewrite (owner_of_extends _ _ _ _ Hext), Hw. }
  rewrite (bind_run _ _ _ _ _ Hwa). by rewrite decide_False.
Qed.

(** C2, as the code has it: a singleton [D] of an ancestor scope
    [sc_out], reached by the walk from [sc_in] and listing [D] under the
    service name, has one instance per slot of [sc_out]. Requested from
    [sc_in] first, the instance is cached in the slot of [sc_in] and in
    the slot of [sc_out] at the first position of [D], and a request on
    [sc_out] there returns it; requested on [sc_out] first, a request
    from [sc_in] returns that instance and caches it. *)
Theorem singleton_of_ancestor n sc_in sc_out service i j options st
    s_in s_out l_in l_out d a :
  let D := VRef d in
  st_scopes st !! sc_in = Some s_in →
  services_of st s_in service = Some l_in → l_in !! i = Some D →
  scope_prop (statics_of st D) = Some a → nonempty a = true →
  owner_of st sc_in a = Ret (Some sc_out) → sc_out ≠ sc_in →
  st_scopes st !! sc_out = Some s_out →
  services_of st s_out service = Some l_out → indexOf l_out D = Some j →
  truthy (cached st sc_in service i) = false →
  (∀ v st1,
     getSingleton (scope_require n) sc_in service i options st = (Ret v, st1) →
     cached st1 sc_in service i = v ∧ cached st1 sc_out service j = v ∧
     ∀ n' options',
       getSingleton (scope_require n') sc_out service j options' st1 = (Ret v, st1) ∧
       getSingleton (scope_require n') sc_in service i options' st1 = (Ret v, st1))
  ∧
  (∀ v st1,
     getSingleton (scope_require n) sc_out service j options st = (Ret v, st1) →
     truthy (cached st1 sc_in service i) = false →
     ∀ n' options',
       ∃ st2,
         getSingleton (scope_require n') sc_in service i options' st1 = (Ret v, st2) ∧
         cached st2 sc_in service i = v ∧ cached st2 sc_out service j = v).
Proof.
  intros D Hs Hl HD Ha Hne Hw Hc Hso Hlo Hidx Hmiss.
  assert (array_get l_in i = D) as Hget by (unfold array_get; by rewrite HD).
  split.
  - intros v st1 H.
    destruct (getSingleton_miss_owner (scope_require n) sc_in service i options
                st s_in l_in D a sc_out Hs Hl Hmiss Hget ltac:(done) ltac:(done)
                Ha Hne Hw Hc) as (st0 & Hext & Hsame & Heq).
    rewrite Heq in H. apply bind_Ret in H as (found & st2 & Hf & H).
    destruct found as [v'|].
    2:{ apply from_owner_None in Hf as (cs & lo & Hcs & Hlo' & Hidx').
        destruct (extends_scope _ _ _ _ Hext Hso) as (cs' & Hcs' & Hstat).
        assert (cs = cs') as -> by congruence.
        rewrite (extends_services_of _ _ _ _ service Hext Hstat), Hlo in Hlo'.
        congruence. }
    injection H as <- <-.
    apply from_owner_Ret in Hf
      as (cs & lo & ci & Hcs & Hlo' & Hidx' & Hcin & Hcout & Htr);
      [|apply framed_scope_require|done].
    destruct (extends_scope _ _ _ _ Hext Hso) as (cs' & Hcs' & Hstat).
    assert (cs = cs') as -> by congruence.
    rewrite (extends_services_of _ _ _ _ service Hext Hstat), Hlo in Hlo'.
    assert (ci = j) as -> by congruence.
    split_and!; try done.
    intros n' options'. split; apply getSingleton_cached; auto.
  - intros v st1 H Hmiss1 n' options'.
    pose proof H as [Hcached Htr]%getSingleton_Ret; [|apply framed_scope_require].
    assert (truthy v = true) as Hv.
    { apply Htr. intros s' l' Hs' Hl'. simplify_eq.
      by rewrite (indexOf_Some _ _ _ Hidx). }
    assert (extends st st1) as Hext
      by (eapply framed_getSingleton, H; apply framed_scope_require).
    destruct (extends_scope _ _ _ _ Hext Hs) as (s_in1 & Hs1 & Hstat_in).
    destruct (extends_scope _ _ _ _ Hext Hso) as (s_out1 & Hso1 & Hstat_out).
    pose proof (extends_services_of _ _ _ _ service Hext Hstat_in) as Hl1.
    pose proof (extends_services_of _ _ _ _ service Hext Hstat_out) as Hlo1.
    rewrite Hl in Hl1. rewrite Hlo in Hlo1.
    destruct (getSingleton_miss_owner (scope_require n') sc_in service i options'
                st1 s_in1 l_in D a sc_out Hs1 Hl1 Hmiss1 Hget ltac:(done) ltac:(done))
      as (st0 & Hext0 & Hsame & Heq); try done.
    { by rewrite (extends_statics_of _ _ D Hext). }
    { by rewrite (owner_of_extends _ _ _ _ Hext). }
    rewrite Heq.
    destruct (extends_scope _ _ _ _ Hext0 Hs1) as (s_in0 & Hs0 & _).
    destruct (extends_scope _ _ _ _ Hext0 Hso1) as (s_out0 & Hso0 & Hstat0).
    pose proof (extends_services_of _ _ _ _ service Hext0 Hstat0) as Hlo0.
    rewrite Hlo1 in Hlo0.
    destruct (from_owner_hit (scope_require n') sc_in service i options' D sc_out
                st0 s_in0 s_out0 l_out j v Hs0 Hso0 Hc Hlo0 Hidx)
      as (st2 & Hf & _ & Hcin & Hcout); [by rewrite Hsame | done |].
    rewrite (bind_run _ _ _ _ _ Hf). by exists st2.
Qed.

Lemma singleton_of_ancestor_witness :
  let st1 := snd (getSingleton (scope_require 1) 1 "a" 0 VUndef shared_state) in
  cached st1 1 "a" 0 = VRef 3 ∧ cached st1 0 "a" 0 = VRef 3 ∧
  getSingleton (scope_require 1) 0 "a" 0 VUndef st1 = (Ret (VRef 3), st1).
Proof.
  intros st1.
  assert (getSingleton (scope_require 1) 1 "a" 0 VUndef shared_state
          = (Ret (VRef 3), st1)) as H by (vm_compute; reflexivity).
  assert (st_scopes shared_state !! 1 =
            Some (default (Scoped "" None ∅ ∅ false) (st_scopes shared_state !! 1)))
    as Hs by (vm_compute; reflexivity).
  assert (st_scopes shared_state !! 0 =
            Some (default (Scoped "" None ∅ ∅ false) (st_scopes shared_state !! 0)))
    as Hso by (vm_compute; reflexivity).
  pose proof (singleton_of_ancestor 1 1 0 "a" 0 0 VUndef shared_state
                (default (Scoped "" None ∅ ∅ false) (st_scopes shared_state !! 1))
                (default (Scoped "" None ∅ ∅ false) (st_scopes shared_state !! 0))
                [VRef 2] [VRef 2] 2 "outer" Hs) as Hthm.
  destruct Hthm as [Hin _].
  - vm_compute; reflexivity.
  - reflexivity.
  - vm_compute; reflexivity.
  - reflexivity.
  - vm_compute; reflexivity.
  - done.
  - exact Hso.
  - vm_compute; reflexivity.
  - reflexivity.
  - vm_compute; reflexivity.
  - destruct (Hin _ _ H) as (Hc1 & Hc2 & Hagain).
    split; [done|]. split; [done|]. apply (Hagain 1 VUndef).
Defined.

(** The same singleton class registered under two service names has two
    instances in its owning scope: one per name. *)
Lemma two_names_two_instances :
  ¬ (∀ n st sc_in sc_out service service' options v st1 v' st2 d a o o',
       scope_prop (statics_of st (VRef d)) = Some a →
       owner_of st sc_in a = Ret (Some sc_out) →
       scope_require n sc_in service options st = (Ret (VRef v), st1) →
       scope_require n sc_out service' options st1 = (Ret (VRef v'), st2) →
       st_objs st2 !! v = Some o → o_class o = Some d →
       o_args o = [VRef sc_out; options] →
       st_objs st2 !! v' = Some o' → o_class o' = Some d →
       o_args o' = [VRef sc_out; options] →
       v = v').
Proof.
  intros H.
  pose (st1 := snd (scope_require 2 1 "a" VUndef shared_state)).
  pose (st2 := snd (scope_require 2 0 "b" VUndef st1)).
  assert (3 = 4) as Heq; [|done].
  apply (H 2 shared_state 1 0 "a" "b" VUndef 3 st1 4 st2 2 "outer"
           (Object no_statics None ∅ ∅ (Some 2) [VRef 0; VUndef])
           (Object no_statics None ∅ ∅ (Some 2) [VRef 0; VUndef])).
  - vm_compute; reflexivity.
  - vm_compute; reflexivity.
  - vm_compute; reflexivity.
  - vm_compute; reflexivity.
  - vm_compute; reflexivity.
  - reflexivity.
  - reflexivity.
  - vm_compute; reflexivity.
  - reflexivity.
  - reflexivity.
Qed.

(** *** A scope is a service of its own name *)

Lemma scope_initialize_effect this st r st' :
  scope_initialize this st = (r, st') →
  st_objs st' = st_objs st ∧ st_arrays st' = st_arrays st ∧
  (st_scopes st' = st_scopes st ∨
   ∃ s, st_scopes st !! this = Some s ∧
        st_scopes st' = <[this := with_initialized s]> (st_scopes st)).
Proof.
  unfold scope_initialize. unfold get_state at 1, bind at 1.
  destruct (st_scopes st !! this) as [s|] eqn:Hs; [|by intros [= <- <-]; auto].
  unfold bind at 1.
  match goal with |- context [forM_ ?f ?l st] =>
    assert (respects same_heap (forM_ f l)) as Hloop end.
  { pose proof same_heap_initializeService. respects_tac. }
  match goal with |- context [forM_ ?f ?l st] =>
    destruct (forM_ f l st) as [[u|e] st1] eqn:E end;
    apply Hloop in E as (Ho & Hsc & Har & _).
  - rewrite (bind_run _ _ _ _ _ (get_scope_run this st1 s ltac:(by rewrite Hsc))).
    intros [= <- <-]. simpl. split_and!; try done. right. exists s. by rewrite Hsc.
  - intros [= <- <-]. auto.
Qed.

Section Keeps.
Context (P : state → Prop).

Lemma keeps_ret {A} (a : A) : keeps P (ret a).
Proof. by intros st r st' [= <- <-]. Qed.

Lemma keeps_throw {A} (e : error) : keeps P (@throw A e).
Proof. by intros st r st' [= <- <-]. Qed.

Lemma keeps_read {A} (m : M A) : (∀ st, snd (m st) = st) → keeps P m.
Proof. intros H st r st' E. specialize (H st). rewrite E in H. by subst. Qed.

Lemma keeps_bind {A B} (m : M A) (k : A → M B) :
  keeps P m → (∀ a, keeps P (k a)) → keeps P (bind m k).
Proof.
  intros Hm Hk st r st'. unfold bind.
  destruct (m st) as [[a|e] st1] eqn:E; intros H HP.
  - eapply Hk; [done|]. by eapply Hm.
  - simplify_eq. by eapply Hm.
Qed.

Lemma keeps_mapM {A B} (f : A → M B) l :
  (∀ x, keeps P (f x)) → keeps P (mapM f l).
Proof.
  intros Hf. induction l as [|x l IH]; simpl; [apply keeps_ret|].
  apply keeps_bind; [done | intros y].
  apply keeps_bind; [done | intros ys]. apply keeps_ret.
Qed.

Lemma keeps_mapMi {A B} (f : A → nat → M B) i l :
  (∀ x i, keeps P (f x i)) → keeps P (mapMi f i l).
Proof.
  intros Hf. revert i. induction l as [|x l IH]; intros i; simpl; [apply keeps_ret|].
  apply keeps_bind; [done | intros y].
  apply keeps_bind; [done | intros ys]. apply keeps_ret.
Qed.

Lemma keeps_forM_ {A} (f : A → M unit) l :
  (∀ x, keeps P (f x)) → keeps P (forM_ f l).
Proof.
  intros Hf. induction l as [|x l IH]; simpl; [apply keeps_ret|].
  by apply keeps_bind.
Qed.

Lemma keeps_get_state : keeps P get_state.
Proof. by apply keeps_read. Qed.

Lemma keeps_get_obj v : keeps P (get_obj v).
Proof. apply keeps_read. intros st. by destruct v. Qed.

Lemma keeps_get_statics v : keeps P (get_statics v).
Proof. apply keeps_bind; [apply keeps_get_obj | intros; apply keeps_ret]. Qed.

Lemma keeps_get_prop v key : keeps P (get_prop v key).
Proof.
  apply keeps_read. intros st. unfold get_prop.
  destruct v; try done. by destruct (st_objs st !! a).
Qed.

Lemma keeps_get_scope sc : keeps P (get_scope sc).
Proof.
  apply keeps_read. intros st. unfold get_scope. by destruct (st_scopes st !! sc).
Qed.

Lemma keeps_walk_parents sc a : keeps P (walk_parents sc a).
Proof. by apply keeps_read. Qed.
End Keeps.

Create HintDb keeps discriminated.
#[global] Hint Resolve keeps_ret keeps_throw keeps_get_state keeps_get_obj
  keeps_get_statics keeps_get_prop keeps_get_scope keeps_walk_parents : keeps.

(** Break a [keeps] goal along the structure of the program. *)
Ltac keeps_step :=
  lazymatch goal with
  | |- keeps _ (bind _ _) => apply keeps_bind; [|intros ?]
  | |- keeps _ (mapM _ _) => apply keeps_mapM; intros ?
  | |- keeps _ (mapMi _ _ _) => apply keeps_mapMi; intros ? ?
  | |- keeps _ (forM_ _ _) => apply keeps_forM_; intros ?
  | |- keeps _ (if ?c then _ else _) => destruct c
  | |- keeps _ (match ?x with _ => _ end) => destruct x
  | |- keeps _ (let _ := _ in _) => cbv zeta
  | |- keeps _ _ => solve [eauto with keeps]
  end.
Ltac keeps_tac := repeat keeps_step.

Lemma cached_same_scopes st st' sc service index :
  st_scopes st' = st_scopes st →
  cached st' sc service index = cached st sc service index.
Proof. unfold cached. by intros ->. Qed.

Lemma instance_cache_cached sc service cls st r st' :
  instance_cache sc service cls st = (r, st') →
  ∀ sc' service' index',
    cached st' sc' service' index' = cached st sc' service' index'.
Proof.
  destruct r as [insts|e]; [by intros (_ & _ & ?)%instance_cache_Ret|].
  cbv [instance_cache bind get_scope ret throw put_scope].
  destruct (st_scopes st !! sc) as [s|]; [|by intros [= <- <-]].
  destruct (instances s !! service); [done|].
  destruct cls; [done|]. by intros [= <- <-].
Qed.

Lemma set_instance_cached sc service index v st r st' :
  set_instance sc service index v st = (r, st') →
  ∀ sc' service' index',
    (sc', service', index') ≠ (sc, service, index) →
    cached st' sc' service' index' = cached st sc' service' index'.
Proof.
  destruct r as [u|e]; [by intros (_ & _ & ?)%set_instance_Ret|].
  cbv [set_instance bind get_scope ret throw put_scope].
  destruct (st_scopes st !! sc) as [s|]; [done|]. by intros [= <- <-].
Qed.

Section SelfRegistered.
Variables (sc : addr) (name : string).

Lemma self_registered_extends st st' :
  extends st st' →
  (cached st' sc name 0 = cached st sc name 0 ∨ cached st' sc name 0 = VRef sc) →
  self_registered st sc name → self_registered st' sc name.
Proof.
  intros Hext Hc (s & a & Hs & Hn & Ha & Harr & Hinj & (Hp1 & Hp2 & Hp3) & Hslot).
  destruct (extends_scope _ _ _ _ Hext Hs) as (s' & Hs' & Hstat).
  apply scope_static_inv in Hstat as (Hn' & _ & Hsv & _).
  exists s', a. split_and!; try done.
  - congruence.
  - by rewrite Hsv.
  - by rewrite (ext_arrays _ _ Hext).
  - by rewrite Hsv.
  - split_and!.
    + by rewrite (extends_constructible _ _ _ Hext).
    + by rewrite (extends_statics_of _ _ _ Hext).
    + by rewrite (extends_statics_of _ _ _ Hext).
  - destruct Hc as [-> | ->]; auto.
Qed.

Lemma keeps_self_framed {A} (m : M A) :
  framed m →
  (∀ st r st', m st = (r, st') → cached st' sc name 0 = cached st sc name 0) →
  keeps (λ st, self_registered st sc name) m.
Proof.
  intros Hf Hc st r st' H HP. eapply self_registered_extends; [|left|done].
  - by eapply Hf.
  - by eapply Hc.
Qed.

Lemma keeps_self_set_prop v key x :
  keeps (λ st, self_registered st sc name) (set_prop v key x).
Proof.
  apply keeps_self_framed; [apply framed_set_prop|].
  intros st r st'. unfold set_prop. destruct v; by intros [= <- <-].
Qed.

Lemma keeps_self_new_instance c args :
  keeps (λ st, self_registered st sc name) (new_instance c args).
Proof.
  apply keeps_self_framed; [apply framed_new_instance|].
  intros st r st'. unfold new_instance. by intros [= <- <-].
Qed.

Lemma keeps_self_instance_cache sc' service' cls :
  keeps (λ st, self_registered st sc name) (instance_cache sc' service' cls).
Proof.
  apply keeps_self_framed; [apply framed_instance_cache|].
  intros st r st' H. by eapply instance_cache_cached.
Qed.

Lemma keeps_self_set_instance_other sc' service' index' v :
  (sc', service', index') ≠ (sc, name, 0) →
  keeps (λ st, self_registered st sc name) (set_instance sc' service' index' v).
Proof.
  intros Hne. apply keeps_self_framed; [apply framed_set_instance|].
  intros st r st' H. eapply set_instance_cached; [done|congruence].
Qed.

Lemma keeps_self_set_instance_self :
  keeps (λ st, self_registered st sc name) (set_instance sc name 0 (VRef sc)).
Proof.
  intros st r st' H HP. eapply self_registered_extends; [| |done].
  - by eapply framed_set_instance.
  - destruct r as [u|e].
    + right. by apply set_instance_Ret in H as (_ & ? & _).
    + left. cbv [set_instance bind get_scope ret throw put_scope] in H.
      destruct (st_scopes st !! sc); [done|]. by injection H as <- <-.
Qed.
End SelfRegistered.

Section SelfResolution.
Variables (sc : addr) (name : string).
Variable require : addr → string → value → M value.
Hypothesis framed_require : ∀ sc' service options, framed (require sc' service options).
Hypothesis keeps_require :
  ∀ sc' service options,
    keeps (λ st, self_registered st sc name) (require sc' service options).

Lemma keeps_self_construct sc' C options :
  keeps (λ st, self_registered st sc name) (construct require sc' C options).
Proof using keeps_require.
  pose proof (keeps_self_set_prop sc name).
  pose proof (keeps_self_new_instance sc name).
  unfold construct. keeps_tac.
Qed.

(** The service in the slot of the scope under its own name is the
    scope, and [construct] returns it. *)
Lemma self_slot st s l sc' service' index' :
  self_registered st sc name →
  st_scopes st !! sc' = Some s → services_of st s service' = Some l →
  (sc', service', index') = (sc, name, 0) → array_get l index' = VRef sc.
Proof.
  intros (s0 & a & Hs0 & _ & Ha & Harr & _) Hs Hl [= -> -> ->].
  unfold services_of in Hl. simplify_eq. rewrite Ha in Hl. simpl in Hl.
  by simplify_eq.
Qed.

Lemma keeps_self_here sc' service' index' options C st r st' :
  self_registered st sc name →
  ((sc', service', index') = (sc, name, 0) → C = VRef sc) →
  (v <- construct require sc' C options ;;
   set_instance sc' service' index' v ;;; ret v) st = (r, st') →
  self_registered st' sc name.
Proof using framed_require keeps_require.
  intros HP HC. unfold bind at 1.
  destruct (construct require sc' C options st) as [[v|e] st1] eqn:Ec.
  2:{ intros [= <- <-]. exact (keeps_self_construct _ _ _ _ _ _ Ec HP). }
  assert (self_registered st1 sc name) as HP1
    by exact (keeps_self_construct _ _ _ _ _ _ Ec HP).
  destruct (decide ((sc', service', index') = (sc, name, 0))) as [Heq|Hne].
  - pose proof (HC Heq) as ->. injection Heq as -> -> ->.
    apply construct_Ret in Ec; [|done|done].
    destruct HP as (_ & _ & _ & _ & _ & _ & _ & (Hcons & _) & _).
    rewrite Hcons in Ec. subst v.
    intros H. revert H HP1.
    apply (keeps_bind _ _ _ (keeps_self_set_instance_self sc name)).
    intros ?. apply keeps_ret.
  - intros H. revert H HP1.
    apply (keeps_bind _ _ _ (keeps_self_set_instance_other sc name _ _ _ _ Hne)).
    intros ?. apply keeps_ret.
Qed.

Lemma keeps_self_from_owner sc' service' index' options C c st r st' :
  self_registered st sc name →
  scope_prop (statics_of st C) ≠ None →
  (sc', service', index') ≠ (sc, name, 0) →
  from_owner require sc' service' index' options C c st = (r, st') →
  self_registered st' sc name.
Proof using framed_require keeps_require.
  intros HP HC Hne. unfold from_owner. unfold bind at 1.
  destruct (get_scope c st) as [[cs|e] st0] eqn:Ecs.
  2:{ intros [= <- <-]. by apply get_scope_Throw in Ecs as ->. }
  apply get_scope_Ret in Ecs as [-> Hcs].
  unfold get_state at 1, bind at 1.
  destruct (services_of st cs service') as [lo|] eqn:Hlo; [|by intros [= <- <-]].
  destruct (indexOf lo C) as [ci|] eqn:Hidx; [|by intros [= <- <-]].
  assert ((c, service', ci) ≠ (sc, name, 0)) as Hne'.
  { intros Heq. apply indexOf_Some in Hidx.
    rewrite (self_slot _ _ _ _ _ _ HP Hcs Hlo Heq) in Hidx. subst C.
    by destruct HP as (_ & _ & _ & _ & _ & _ & _ & (_ & ? & _) & _). }
  intros H. revert H HP.
  pose proof (keeps_self_instance_cache sc name).
  pose proof (λ v, keeps_self_set_instance_other sc name _ _ _ v Hne).
  pose proof (λ v, keeps_self_set_instance_other sc name _ _ _ v Hne').
  pose proof keeps_self_construct.
  match goal with |- ?m st = _ → _ =>
    enough (keeps (λ st, self_registered st sc name) m) as Hk by apply Hk end.
  keeps_tac.
Qed.

Lemma keeps_self_getSingleton sc' service' index' options :
  keeps (λ st, self_registered st sc name)
    (getSingleton require sc' service' index' options).
Proof using framed_require keeps_require.
  intros st r st' H HP. unfold getSingleton in H. unfold bind at 1 in H.
  destruct (get_scope sc' st) as [[s|e] st0] eqn:Es.
  2:{ injection H as <- <-. by apply get_scope_Throw in Es as ->. }
  apply get_scope_Ret in Es as [-> Hs].
  unfold get_state at 1, bind at 1 in H. unfold bind at 1 in H.
  destruct (instance_cache sc' service' (services_of st s service') st)
    as [[insts|e] st1] eqn:Ei.
  2:{ injection H as <- <-.
      exact (keeps_self_instance_cache sc name _ _ _ _ _ _ Ei HP). }
  assert (self_registered st1 sc name) as HP1
    by exact (keeps_self_instance_cache sc name _ _ _ _ _ _ Ei HP).
  assert (extends st st1) as Hext by (by eapply framed_instance_cache).
  destruct (truthy (array_get insts index')); [by injection H as <- <-|].
  destruct (services_of st s service') as [l|] eqn:Hl; [|by injection H as <- <-].
  set (C := array_get l index') in *.
  assert ((sc', service', index') = (sc, name, 0) → C = VRef sc) as HC
    by exact (self_slot st s l sc' service' index' HP Hs Hl).
  unfold bind at 1 in H.
  destruct (get_statics C st1) as [[d|e] st2] eqn:Ed.
  2:{ injection H as <- <-. by apply get_statics_Throw in Ed as ->. }
  apply get_statics_Ret in Ed as [-> ->].
  destruct (scope_prop (statics_of st1 C)) as [a|] eqn:Ha;
    [|by eapply keeps_self_here; [exact HP1 | exact HC | exact H]].
  destruct (nonempty a);
    [|by eapply keeps_self_here; [exact HP1 | exact HC | exact H]].
  assert ((sc', service', index') ≠ (sc, name, 0)) as Hne.
  { intros Heq. rewrite (HC Heq) in Ha.
    destruct HP1 as (_ & _ & _ & _ & _ & _ & _ & (_ & Hnone & _) & _). congruence. }
  unfold bind at 1 in H.
  unfold walk_parents at 1 in H.
  destruct (walk _ _ _ _) as [cur|e]; [|by injection H as <- <-].
  unfold bind at 1 in H.
  match type of H with context [match ?m st1 with _ => _ end] =>
    destruct (m st1) as [r2 st2] eqn:Ef end.
  assert (self_registered st2 sc name) as HP2.
  { destruct cur as [c|]; [|by injection Ef as <- <-].
    destruct (decide (c = sc')); [by injection Ef as <- <-|].
    eapply keeps_self_from_owner; [exact HP1 | by rewrite Ha | exact Hne | exact Ef]. }
  destruct r2 as [[v|]|e]; [by injection H as <- <- | | by injection H as <- <-].
  destruct (decide (scopeName s = a)); [|by injection H as <- <-].
  eapply keeps_self_here; [exact HP2 | done | exact H].
Qed.

Lemma keeps_self_require_body this service options :
  keeps (λ st, self_registered st sc name)
    (scope_require_body require this service options).
Proof using framed_require keeps_require.
  pose proof keeps_self_construct. pose proof keeps_self_getSingleton.
  unfold scope_require_body. keeps_tac.
Qed.
End SelfResolution.

Lemma keeps_self_require sc name fuel this service options :
  keeps (λ st, self_registered st sc name) (scope_require fuel this service options).
Proof.
  revert this service options. induction fuel as [|fuel IH]; intros; simpl.
  - apply keeps_throw.
  - apply keeps_self_require_body; [apply framed_scope_require | apply IH].
Qed.

Lemma keeps_self_getServices sc name fuel this service options :
  keeps (λ st, self_registered st sc name)
    (scope_getServices fuel this service options).
Proof.
  pose proof (keeps_self_construct sc name _ (keeps_self_require sc name fuel)).
  pose proof (keeps_self_getSingleton sc name _ (framed_scope_require fuel)
                (keeps_self_require sc name fuel)).
  unfold scope_getServices, getServiceInstance. keeps_tac.
Qed.

Lemma plain_host_same_objs st st' obj :
  st_objs st' = st_objs st → plain_host st obj → plain_host st' obj.
Proof.
  unfold plain_host, constructible, is_function, statics_of, obj_at.
  by intros ->.
Qed.

Lemma keeps_self_register sc name name' C :
  name' ≠ name →
  keeps (λ st, self_registered st sc name) (scope_register sc name' C).
Proof.
  intros Hne st r st' H (s & a & Hs & Hn & Ha & Harr & Hinj & Hplain & Hslot).
  pose proof (scope_register_effect _ _ _ _ _ _ s H Hs) as (Hobjs & _ & H').
  clear H. rename H' into H.
  destruct (services s !! name' ≫= (λ a, (a,.) <$> st_arrays st !! a))
    as [[a' l]|] eqn:Hl.
  - destruct H as [Hsc Har].
    assert (a' ≠ a) as Haa.
    { intros ->. apply Hne, Hinj.
      destruct (services s !! name') as [a0|]; [|done]. simpl in Hl.
      destruct (st_arrays st !! a0); [|done]. simpl in Hl. congruence. }
    exists s, a. rewrite Hsc, Har. split_and!; try done.
    + by rewrite lookup_insert_ne.
    + by eapply plain_host_same_objs.
    + by rewrite (cached_same_scopes _ _ _ _ _ Hsc).
  - destruct H as [Hsc Har].
    pose proof (is_fresh (dom (st_arrays st))) as Hfresh.
    set (a' := fresh (dom (st_arrays st))) in *.
    assert (a' ≠ a) as Haa.
    { intros ->. apply Hfresh, elem_of_dom. eauto. }
    exists (with_services s (<[name' := a']> (services s))), a.
    rewrite Hsc, Har. split_and!; try done.
    + by rewrite lookup_insert_eq.
    + simpl. by rewrite lookup_insert_ne.
    + by rewrite lookup_insert_ne.
    + intros n. simpl. destruct (decide (n = name')) as [->|].
      * rewrite lookup_insert_eq. congruence.
      * rewrite lookup_insert_ne by done. apply Hinj.
    + by eapply plain_host_same_objs.
    + assert (cached st' sc name 0 = cached st sc name 0) as ->; [|done].
      unfold cached. by rewrite Hsc, lookup_insert_eq, Hs.
Qed.

Lemma keeps_self_perform sc name fuel o :
  registers_elsewhere name o →
  keeps (λ st, self_registered st sc name) (perform fuel sc o).
Proof.
  intros Ho. destruct o as [name' C|service options|service options]; simpl.
  - apply keeps_bind; [by apply keeps_self_register | intros; apply keeps_ret].
  - apply keeps_bind; [apply keeps_self_require | intros; apply keeps_ret].
  - apply keeps_bind; [apply keeps_self_getServices | intros; apply keeps_ret].
Qed.

Lemma self_registered_perform_all sc name fuel ops st :
  Forall (registers_elsewhere name) ops →
  self_registered st sc name →
  self_registered (perform_all fuel sc ops st) sc name.
Proof.
  intros Hops. revert st. induction Hops as [|o ops Ho _ IH]; intros st HP; [done|].
  simpl. apply IH.
  destruct (perform fuel sc o st) as [r st'] eqn:E.
  exact (keeps_self_perform sc name fuel o Ho _ _ _ E HP).
Qed.

(** [scope()] on an object that is not yet a scope registers it. *)
Lemma scope_self_registered name obj m parent st r st1 :
  st_scopes st !! obj = None →
  (∀ n a, m !! n = Some a → is_Some (st_arrays st !! a)) →
  plain_host st obj →
  scope name obj (Some m) parent st = (r, st1) →
  self_registered st1 obj name.
Proof.
  intros Hold Hm Hplain H. unfold scope in H.
  unfold get_state at 1, bind at 1 in H. rewrite Hold in H.
  unfold bind at 1, ret at 1 in H. unfold bind at 1, new_array at 1 in H.
  unfold bind at 1, put_scope at 1 in H.
  pose proof (is_fresh (dom (st_arrays st))) as Hfresh.
  set (a := fresh (dom (st_arrays st))) in *.
  set (s := Scoped name parent (<[name := a]> m) ∅ false) in *.
  set (st0 := State _ _ _ _ _) in H.
  assert (self_registered st0 obj name) as H0.
  { exists s, a. unfold st0; simpl. split_and!; try done.
    - by rewrite lookup_insert_eq.
    - by rewrite lookup_insert_eq.
    - by rewrite lookup_insert_eq.
    - intros n. destruct (decide (n = name)) as [->|]; [done|].
      rewrite lookup_insert_ne by done. intros Hn.
      destruct (Hm n a Hn) as [l Hl]. exfalso. apply Hfresh, elem_of_dom. eauto.
    - right. unfold cached; simpl. by rewrite lookup_insert_eq. }
  unfold bind at 1 in H.
  destruct (scope_initialize obj st0) as [r0 st2] eqn:Ei.
  assert (st1 = st2) as -> by (destruct r0; by injection H as <- <-).
  apply scope_initialize_effect in Ei as (Hobjs & Harr & Hsc).
  destruct H0 as (s0 & a0 & Hs0 & Hn0 & Ha0 & Harr0 & Hinj0 & Hplain0 & Hslot0).
  destruct Hsc as [Hsc | (s' & Hs' & Hsc)].
  - exists s0, a0. rewrite Hsc, Harr. split_and!; try done.
    + by eapply plain_host_same_objs.
    + by rewrite (cached_same_scopes _ _ _ _ _ Hsc).
  - assert (s' = s0) as -> by congruence.
    exists (with_initialized s0), a0. rewrite Hsc, Harr. split_and!; try done.
    + by rewrite lookup_insert_eq.
    + by eapply plain_host_same_objs.
    + assert (cached st2 obj name 0 = cached st0 obj name 0) as ->; [|done].
      unfold cached. by rewrite Hsc, lookup_insert_eq, Hs0.
Qed.

(** A scope registered under its own name resolves to itself. *)
Lemma require_self sc name st fuel options :
  self_registered st sc name →
  ∃ st', scope_require (S fuel) sc name options st = (Ret (VRef sc), st').
Proof.
  intros (s & a & Hs & Hn & Ha & Harr & Hinj & (Hcons & Haff & Hprops) & Hslot).
  assert (services_of st s name = Some [VRef sc]) as Hl.
  { unfold services_of. by rewrite Ha. }
  rewrite (require_last fuel sc name options st s [VRef sc] (VRef sc) Hs Hl
             ltac:(done) ltac:(done)).
  destruct (transient (statics_of st (VRef sc))).
  { rewrite construct_static by done. eauto. }
  simpl.
  destruct Hslot as [Hc|Hmiss].
  { rewrite (getSingleton_cached _ _ _ _ _ _ _ Hc) by done. eauto. }
  rewrite (getSingleton_miss _ _ _ _ _ _ _ _ Hs Hl Hmiss).
  destruct (instance_cache_run sc name [VRef sc] st s Hs)
    as (insts & st1 & E & Hext & (s1 & Hs1 & _) & _).
  rewrite E. simpl. unfold resolve_miss.
  change (array_get [VRef sc] 0) with (VRef sc).
  rewrite (bind_run _ _ _ _ _ (get_statics_run (VRef sc) st1 ltac:(done) ltac:(done))).
  rewrite (extends_statics_of _ _ _ Hext), Haff.
  rewrite (bind_run _ _ _ _ _
             (construct_static _ sc (VRef sc) options st1 ltac:(done)
                ltac:(by rewrite (extends_constructible _ _ _ Hext))
                ltac:(by rewrite (extends_statics_of _ _ _ Hext)))).
  destruct (set_instance_run sc name 0 (VRef sc) st1 s1 Hs1) as (st2 & E2 & _).
  rewrite (bind_run _ _ _ _ _ E2). eauto.
Qed.

(** C9, as the code has it: an object that [scope()] makes a scope is
    registered under the scope's name and resolves to itself, and still
    does after any sequence of operations on that scope (resolutions, and
    registrations under other names), whether they return or throw.  The
    object is a plain host: not itself a service to construct. *)
Theorem scope_registers_itself name obj m parent st r st1 fuel fuel' ops options :
  st_scopes st !! obj = None →
  map_Forall (λ _ a, a ∈ dom (st_arrays st)) m →
  plain_host st obj →
  scope name obj (Some m) parent st = (r, st1) →
  Forall (registers_elsewhere name) ops →
  ∃ st',
    scope_require (S fuel) obj name options (perform_all fuel' obj ops st1)
    = (Ret (VRef obj), st').
Proof.
  intros Hold Hm Hplain Hscope Hops.
  apply require_self, self_registered_perform_all; [done|].
  eapply scope_self_registered; [done| |done|done].
  intros n a Hn. apply elem_of_dom. by apply (Hm n a).
Qed.

Lemma scope_registers_itself_witness :
  let st1 := snd (scope "the-scope" 0 (Some {[ "service" := 0 ]}) None host_heap) in
  let ops := [Require "service" VUndef; Register "other" (VRef 1);
              Register "service" (VRef 1); GetServices "service" VUndef;
              Require "the-scope" VUndef] in
  ∃ st',
    scope_require 2 0 "the-scope" VUndef (perform_all 2 0 ops st1)
    = (Ret (VRef 0), st').
Proof.
  intros st1 ops.
  refine (scope_registers_itself "the-scope" 0 {[ "service" := 0 ]} None host_heap
            (fst (scope "the-scope" 0 (Some {[ "service" := 0 ]}) None host_heap))
            st1 1 2 ops VUndef _ _ _ _ _).
  - vm_compute; reflexivity.
  - apply map_Forall_singleton. by vm_compute.
  - split_and!; vm_compute; reflexivity.
  - vm_compute; reflexivity.
  - repeat constructor; simpl; discriminate.
Defined.

(** After a registration under the scope's own name, the name resolves
    to the service registered last, not to the scope. *)
Lemma own_name_registered_over :
  ¬ (∀ name obj m parent st r st1 fuel ops options v st',
       st_scopes st !! obj = None →
       map_Forall (λ _ a, a ∈ dom (st_arrays st)) m →
       plain_host st obj →
       scope name obj (Some m) parent st = (r, st1) →
       scope_require fuel obj name options (perform_all fuel obj ops st1)
         = (Ret v, st') →
       v = VRef obj).
Proof.
  intros H.
  pose (st1 := snd (scope "the-scope" 0 (Some {[ "service" := 0 ]}) None host_heap)).
  pose (st2 := snd (scope_require 2 0 "the-scope" VUndef
                      (perform_all 2 0 [Register "the-scope" (VRef 1)] st1))).
  assert (VRef 1 = VRef 0) as Heq; [|done].
  refine (H "the-scope" 0 {[ "service" := 0 ]} None host_heap
            (fst (scope "the-scope" 0 (Some {[ "service" := 0 ]}) None host_heap))
            st1 2 [Register "the-scope" (VRef 1)] VUndef (VRef 1) st2 _ _ _ _ _).
  - vm_compute; reflexivity.
  - apply map_Forall_singleton. by vm_compute.
  - split_and!; vm_compute; reflexivity.
  - vm_compute; reflexivity.
  - vm_compute; reflexivity.
Qed.

(** *** The chain of [callService] *)

Lemma add_events_nil st : add_events st [] = st.
Proof. destruct st. unfold add_events; simpl. by rewrite app_nil_r. Qed.

Lemma add_events_app st evs evs' :
  add_events (add_events st evs) evs' = add_events st (evs ++ evs').
Proof. unfold add_events; simpl. by rewrite app_assoc. Qed.

Lemma run_ticks_idle k st : st_queue st = [] → run_ticks k st = (Ret tt, st).
Proof.
  intros Hq. destruct k; [done|]. simpl. unfold bind, pop_task. by rewrite Hq.
Qed.

Lemma get_prop_objs service method st st' :
  st_objs st' = st_objs st →
  get_prop service method st' = (fst (get_prop service method st), st').
Proof.
  intros Ho. unfold get_prop, lookup_prop. destruct service; try done.
  rewrite Ho. by destruct (st_objs st !! a).
Qed.

Lemma lacks_objs st st' service method :
  st_objs st' = st_objs st → lacks st service method → lacks st' service method.
Proof.
  intros Ho (m & Hm & Ht). exists m. by rewrite (get_prop_objs _ _ st st'), Hm.
Qed.

Lemma answers_objs st st' service method options f err :
  st_objs st' = st_objs st →
  answers st service method options f err → answers st' service method options f err.
Proof.
  intros Ho (Hm & b & Hb & Hr). split.
  - by rewrite (get_prop_objs _ _ st st'), Hm.
  - exists b. by rewrite Ho.
Qed.

Lemma passes_objs st st' service method options :
  st_objs st' = st_objs st →
  passes st service method options → passes st' service method options.
Proof.
  intros Ho [Hl | (f & err & Ha & Ht)].
  - left. by eapply lacks_objs.
  - right. exists f, err. split; [by eapply answers_objs | done].
Qed.

Lemma calls_of_objs st st' method options insts :
  st_objs st' = st_objs st →
  calls_of st' method options insts = calls_of st method options insts.
Proof.
  intros Ho. unfold calls_of. induction insts as [|service insts IH]; [done|].
  simpl. by rewrite IH, (get_prop_objs _ _ st st').
Qed.

Lemma calls_of_lacks st method options service :
  lacks st service method → calls_of st method options [service] = [].
Proof.
  intros (m & Hm & Ht). unfold calls_of; simpl. rewrite Hm. simpl.
  by destruct m.
Qed.

Lemma calls_of_answers st method options service f err :
  answers st service method options f err →
  calls_of st method options [service] = [EvCall f service options].
Proof. intros (Hm & _). unfold calls_of; simpl. by rewrite Hm. Qed.

Lemma calls_of_cons st method options service insts :
  calls_of st method options (service :: insts)
  = calls_of st method options [service] ++ calls_of st method options insts.
Proof. unfold calls_of; simpl. by rewrite app_nil_r. Qed.

Lemma call_function_answers st service options f b :
  st_objs st !! f ≫= o_call = Some b →
  call_function (VRef f) service options st
  = (Ret (b service options), add_events st [EvCall f service options]).
Proof.
  intros Hb. unfold call_function, get_state, bind at 1. by rewrite Hb.
Qed.

Section CallService.
Variables (insts : list value) (method : string) (options : value) (done : nat).

(** What [callNthService] does on an instance that passes, and on one
    that reports an error. *)
Lemma callNthService_passes n service st :
  insts !! n = Some service → passes st service method options →
  callNthService insts method options done n st
  = nextService insts method options done n VUndef
      (add_events st (calls_of st method options [service])).
Proof.
  intros Hn Hp. unfold callNthService, array_get. rewrite Hn.
  change (default VUndef (Some service)) with service.
  destruct Hp as [Hl | (f & err & Ha & Ht)].
  - rewrite (calls_of_lacks _ _ _ _ Hl), add_events_nil.
    destruct Hl as (m & Hm & Hfalsy).
    rewrite (bind_run _ _ _ _ _ Hm). by rewrite Hfalsy.
  - rewrite (calls_of_answers _ _ _ _ _ _ Ha).
    destruct Ha as (Hm & b & Hb & Hr).
    rewrite (bind_run _ _ _ _ _ Hm). change (truthy (VRef f)) with true. cbv iota.
    rewrite (bind_run _ _ _ _ _ (call_function_answers _ _ _ _ _ Hb)).
    rewrite Hr. unfold nextService. by rewrite Ht.
Qed.

Lemma callNthService_fails n service st f err :
  insts !! n = Some service → answers st service method options f err →
  truthy err = true →
  callNthService insts method options done n st
  = (Ret tt, add_events st [EvCall f service options; EvDone done err]).
Proof.
  intros Hn (Hm & b & Hb & Hr) Ht. unfold callNthService, array_get.
  rewrite Hn. change (default VUndef (Some service)) with service.
  rewrite (bind_run _ _ _ _ _ Hm). change (truthy (VRef f)) with true. cbv iota.
  rewrite (bind_run _ _ _ _ _ (call_function_answers _ _ _ _ _ Hb)).
  rewrite Hr. unfold nextService. rewrite Ht. unfold log, add_events; simpl.
  by rewrite <- app_assoc.
Qed.

Lemma nextService_last n st :
  ¬ n + 1 < length insts →
  nextService insts method options done n VUndef st
  = (Ret tt, add_events st [EvDone done VUndef]).
Proof. intros Hn. unfold nextService. simpl. by rewrite decide_False. Qed.

Lemma nextService_tick n st k :
  n + 1 < length insts → st_queue st = [] →
  (nextService insts method options done n VUndef ;;; run_ticks (S k)) st
  = (callNthService insts method options done (n + 1) ;;; run_ticks k) st.
Proof.
  intros Hn Hq. unfold nextService. simpl. rewrite decide_True by done.
  unfold bind at 1, nextTick at 1. unfold bind at 1, pop_task at 1. simpl.
  rewrite Hq. simpl. rewrite <- Hq. by destruct st.
Qed.

(** The chain on the instances [rest] that remain, all of which pass. *)
Lemma chain_passes rest : ∀ before st k,
  insts = before ++ rest → rest ≠ [] → st_queue st = [] →
  Forall (λ service, passes st service method options) rest →
  (length rest ≤ S k)%nat →
  (callNthService insts method options done (length before) ;;; run_ticks k) st
  = (Ret tt, add_events st (calls_of st method options rest ++ [EvDone done VUndef])).
Proof.
  induction rest as [|service rest IH]; intros before st k Hi Hne Hq Hp Hk; [done|].
  apply Forall_cons in Hp as [Hp Hrest].
  assert (insts !! length before = Some service) as Hn.
  { rewrite Hi, lookup_app_r by lia. by replace (_ - _) with 0 by lia. }
  set (st1 := add_events st (calls_of st method options [service])).
  assert (st_objs st1 = st_objs st) as Ho by done.
  assert (st_queue st1 = []) as Hq1 by done.
  rewrite calls_of_cons, <- app_assoc, <- add_events_app. fold st1.
  unfold bind at 1. rewrite (callNthService_passes _ _ _ Hn Hp). fold st1.
  destruct rest as [|service' rest'].
  - rewrite nextService_last by (rewrite Hi, length_app; simpl; lia).
    rewrite run_ticks_idle by done. done.
  - destruct k as [|k]; [simpl in Hk; lia|].
    pose proof (nextService_tick (length before) st1 k
                  ltac:(rewrite Hi, length_app; simpl; lia) Hq1) as Ht.
    unfold bind at 1 in Ht. rewrite Ht.
    replace (length before + 1) with (length (before ++ [service]))
      by (rewrite length_app; simpl; lia).
    rewrite (IH (before ++ [service]) st1 k); try done.
    + by rewrite (calls_of_objs st st1).
    + by rewrite Hi, <- app_assoc.
    + eapply Forall_impl; [exact Hrest|]. intros x. by apply passes_objs.
    + simpl in *. lia.
Qed.

(** The chain up to the first instance that reports an error. *)
Lemma chain_fails pre : ∀ before st k service post f err,
  insts = before ++ pre ++ service :: post → st_queue st = [] →
  Forall (λ service, passes st service method options) pre →
  answers st service method options f err → truthy err = true →
  (length pre ≤ k)%nat →
  (callNthService insts method options done (length before) ;;; run_ticks k) st
  = (Ret tt, add_events st (calls_of st method options pre
                            ++ [EvCall f service options; EvDone done err])).
Proof.
  induction pre as [|service0 pre IH];
    intros before st k service post f err Hi Hq Hp Ha Ht Hk.
  - assert (insts !! length before = Some service) as Hn.
    { rewrite Hi, lookup_app_r by lia. by replace (_ - _) with 0 by lia. }
    unfold bind at 1. rewrite (callNthService_fails _ _ _ _ _ Hn Ha Ht).
    by rewrite run_ticks_idle.
  - apply Forall_cons in Hp as [Hp Hrest].
    assert (insts !! length before = Some service0) as Hn.
    { rewrite Hi, lookup_app_r by lia. by replace (_ - _) with 0 by lia. }
    set (st1 := add_events st (calls_of st method options [service0])).
    assert (st_objs st1 = st_objs st) as Ho by done.
    assert (st_queue st1 = []) as Hq1 by done.
    rewrite calls_of_cons, <- app_assoc, <- add_events_app. fold st1.
    unfold bind at 1. rewrite (callNthService_passes _ _ _ Hn Hp). fold st1.
    destruct k as [|k]; [simpl in Hk; lia|].
    pose proof (nextService_tick (length before) st1 k
                  ltac:(rewrite Hi, !length_app; simpl; lia) Hq1) as Htick.
    unfold bind at 1 in Htick. rewrite Htick.
    replace (length before + 1) with (length (before ++ [service0]))
      by (rewrite length_app; simpl; lia).
    rewrite (IH (before ++ [service0]) st1 k service post f err); try done.
    + by rewrite (calls_of_objs st st1).
    + by rewrite Hi, <- app_assoc.
    + eapply Forall_impl; [exact Hrest|]. intros x. by apply passes_objs.
    + by apply answers_objs with st.
    + simpl in *. lia.
Qed.
End CallService.

Lemma bind_ret_skip {A B C} (m : M A) (b : B) (k : M C) st :
  ((m ;;; ret b) ;;; k) st = (m ;;; k) st.
Proof. unfold bind. by destruct (m st) as [[a|e] st1]. Qed.

(** C6: [callService] resolves the instances of the service; with none,
    it calls [done()] at once; an instance without the method is skipped
    as a success: no call, and the chain goes on; the methods are called
    one after the other in the order of the instances, each from the
    callback of the one before, and [done()] is called after the last;
    the first method that passes a truthy error to its callback makes
    [callService] call [done] with that error, and no method of a later
    instance is called. *)
Theorem callService_serial fuel this service method options done st insts st1 :
  st_queue st = [] →
  scope_getServices fuel this service VUndef st = (Ret insts, st1) →
  (insts = [] →
   scope_callService fuel this service method options done st
   = (Ret this, add_events st1 [EvDone done VUndef]))
  ∧ (∀ s, lacks st1 s method →
          passes st1 s method options ∧ calls_of st1 method options [s] = [])
  ∧ (Forall (λ s, passes st1 s method options) insts →
     (scope_callService fuel this service method options done ;;;
      run_ticks (length insts)) st
     = (Ret tt, add_events st1 (calls_of st1 method options insts
                                ++ [EvDone done VUndef])))
  ∧ (∀ pre s post f err,
       insts = pre ++ s :: post →
       Forall (λ s, passes st1 s method options) pre →
       answers st1 s method options f err → truthy err = true →
       (scope_callService fuel this service method options done ;;;
        run_ticks (length insts)) st
       = (Ret tt, add_events st1 (calls_of st1 method options pre
                                  ++ [EvCall f s options; EvDone done err]))).
Proof.
  intros Hq Hget.
  assert (st_queue st1 = []) as Hq1.
  { rewrite <- Hq. eapply ext_queue, framed_scope_getServices, Hget. }
  split_and!.
  - intros ->. unfold scope_callService. by rewrite (bind_run _ _ _ _ _ Hget).
  - intros s Hl. split; [by left | by apply calls_of_lacks].
  - intros Hp. unfold scope_callService. unfold bind at 1.
    rewrite (bind_run _ _ _ _ _ Hget).
    destruct insts as [|s insts'].
    + simpl. done.
    + rewrite decide_True by (simpl; lia).
      pose proof (bind_ret_skip
                    (callNthService (s :: insts') method options done 0)
                    this (run_ticks (length (s :: insts'))) st1) as Hskip.
      unfold bind at 1 in Hskip. rewrite Hskip.
      apply (chain_passes (s :: insts') method options done (s :: insts') []);
        try done. lia.
  - intros pre s post f err -> Hp Ha Ht. unfold scope_callService. unfold bind at 1.
    rewrite (bind_run _ _ _ _ _ Hget).
    rewrite decide_True by (rewrite length_app; simpl; lia).
    pose proof (bind_ret_skip
                  (callNthService (pre ++ s :: post) method options done 0)
                  this (run_ticks (length (pre ++ s :: post))) st1) as Hskip.
    unfold bind at 1 in Hskip. rewrite Hskip.
    apply (chain_fails (pre ++ s :: post) method options done pre []
             st1 _ s post f err); try done.
    rewrite length_app. lia.
Qed.

Lemma callService_serial_witness :
  st_trace (snd ((scope_callService 2 0 "failing" "method" (VRef 9) 0 ;;;
                  run_ticks 3) chain_scope))
  = [EvCall 5 (VRef 10) (VRef 9); EvCall 7 (VRef 11) (VRef 9);
     EvDone 0 (VStr "failed")].
Proof.
  pose (st1 := snd (scope_getServices 2 0 "failing" VUndef chain_scope)).
  destruct (callService_serial 2 0 "failing" "method" (VRef 9) 0 chain_scope
              [VRef 10; VRef 11; VRef 12] st1) as (_ & _ & _ & Hfail).
  - vm_compute; reflexivity.
  - vm_compute; reflexivity.
  - assert (Forall (λ s, passes st1 s "method" (VRef 9)) [VRef 10]) as Hp.
    { apply Forall_cons; split; [|by constructor].
      right. exists 5, VUndef. split; [|done].
      split; [vm_compute; reflexivity|].
      exists (fun _ _ => Calls VUndef). split; vm_compute; reflexivity. }
    assert (answers st1 (VRef 11) "method" (VRef 9) 7 (VStr "failed")) as Ha.
    { split; [vm_compute; reflexivity|].
      exists (fun _ _ => Calls (VStr "failed")). split; vm_compute; reflexivity. }
    pose proof (Hfail [VRef 10] (VRef 11) [VRef 12] 7 (VStr "failed")
                  eq_refl Hp Ha eq_refl) as H.
    change (length [VRef 10; VRef 11; VRef 12]) with 3 in H.
    rewrite H. vm_compute; reflexivity.
Defined.

(** *** Lifecycles *)

#[global] Instance same_objects_preorder : PreOrder same_objects.
Proof.
  split.
  - by intros st.
  - intros st1 st2 st3 [? ?] [? ?]. unfold same_objects. split; congruence.
Qed.

Lemma respects_weaken (R R' : relation state) {A} (m : M A) :
  (∀ st st', R st st' → R' st st') → respects R m → respects R' m.
Proof. intros HR Hm st r st' H. by eapply HR, Hm. Qed.

Lemma same_objects_register sc name C :
  respects same_objects (scope_register sc name C).
Proof.
  assert (∀ sc C, respects same_objects (initializeService sc C)) as Hinit.
  { intros sc' C'. eapply respects_weaken, same_heap_initializeService.
    intros st st' (? & _ & _ & ?). by split. }
  assert (∀ l, respects same_objects (new_array l)) as Hnew
      by (by intros l st r st' [= <- <-]).
  assert (∀ a l, respects same_objects (put_array a l)) as Hput
      by (by intros a l st r st' [= <- <-]).
  assert (∀ a s, respects same_objects (put_scope a s)) as Hscope
      by (by intros a s st r st' [= <- <-]).
  unfold scope_register. respects_tac.
Qed.

Lemma serviceToMethod_Ret methodName service st s st' :
  serviceToMethod (Some (ArgName methodName)) service st = (Ret s, st') →
  st' = st ∧ snd s = service ∧
  get_prop service methodName st = (Ret (fst s), st) ∧
  is_function st (fst s) = true.
Proof.
  unfold serviceToMethod. intros H.
  apply bind_Ret in H as (m & st1 & Hm & H).
  assert (st1 = st) as ->.
  { pose proof (get_prop_objs service methodName st st eq_refl) as Hg.
    rewrite Hm in Hg. simpl in Hg. congruence. }
  apply bind_Ret in H as (? & ? & [= <- <-] & H).
  destruct (is_function st m) eqn:Hf; [|done]. by injection H as <- <-.
Qed.

Lemma mapM_serviceToMethod_Ret methodName insts st bound st' :
  mapM (serviceToMethod (Some (ArgName methodName))) insts st = (Ret bound, st') →
  st' = st ∧
  Forall2 (λ service (s : step),
             snd s = service ∧
             get_prop service methodName st = (Ret (fst s), st) ∧
             is_function st (fst s) = true) insts bound.
Proof.
  revert bound. induction insts as [|service insts IH]; intros bound H; simpl in H.
  - injection H as <- <-. split; [done | constructor].
  - apply bind_Ret in H as (s & st1 & Hs & H).
    apply serviceToMethod_Ret in Hs as (-> & Hs).
    apply bind_Ret in H as (ss & st2 & Hss & [= <- <-]).
    apply IH in Hss as [-> Hall]. split; [done | by constructor].
Qed.

Lemma lifecycle_steps_expansion fuel this args : ∀ st steps st',
  well_formed_args args = true →
  lifecycle_steps fuel this args st = (Ret steps, st') →
  expansion fuel this args st steps st'.
Proof.
  remember (length args) as n eqn:Hn. revert args Hn.
  induction n as [n IH] using lt_wf_ind. intros args Hn st steps st' Hwf H.
  destruct args as [|[serviceName|f] rest]; simpl in H.
  - injection H as <- <-. constructor.
  - destruct rest as [|[methodName|g] rest']; try done.
    apply bind_Ret in H as (insts & st1 & Hinsts & H).
    apply bind_Ret in H as (bound & st2 & Hbound & H).
    apply mapM_serviceToMethod_Ret in Hbound as [-> Hbound].
    apply bind_Ret in H as (steps' & st3 & Hsteps & [= <- <-]).
    econstructor; [done | done |].
    eapply (IH (length rest')); [simpl in Hn; lia | done | done | done].
  - apply bind_Ret in H as (steps' & st1 & Hsteps & [= <- <-]).
    constructor. eapply (IH (length rest)); [simpl in Hn; lia | done | done | done].
Qed.

Lemma step_passes_objs st st' options s :
  st_objs st' = st_objs st → step_passes st options s → step_passes st' options s.
Proof.
  intros Ho (err & (f & b & Hf & Hb & Hr) & Ht).
  exists err. split; [|done]. exists f, b. by rewrite Ho.
Qed.

Section Lifecycle.
Variables (methodArray : list step) (options : value) (done : nat).

Lemma executeNthStep_passes n s st :
  methodArray !! n = Some s → step_passes st options s →
  executeNthStep methodArray options done n st
  = nextStep methodArray options done n VUndef
      (add_events st (step_call options s)).
Proof.
  intros Hn (err & (f & b & Hf & Hb & Hr) & Ht).
  unfold executeNthStep. rewrite Hn. unfold step_call. rewrite Hf.
  rewrite (bind_run _ _ _ _ _ (call_function_answers _ _ _ _ _ Hb)).
  rewrite Hr. unfold nextStep. by rewrite Ht.
Qed.

Lemma nextStep_last n st :
  ¬ n + 1 < length methodArray →
  nextStep methodArray options done n VUndef st
  = (Ret tt, add_events st [EvDone done VUndef]).
Proof. intros Hn. unfold nextStep. simpl. by rewrite decide_False. Qed.

Lemma nextStep_tick n st k :
  n + 1 < length methodArray → st_queue st = [] →
  (nextStep methodArray options done n VUndef ;;; run_ticks (S k)) st
  = (executeNthStep methodArray options done (n + 1) ;;; run_ticks k) st.
Proof.
  intros Hn Hq. unfold nextStep. simpl. rewrite decide_True by done.
  unfold bind at 1, nextTick at 1. unfold bind at 1, pop_task at 1. simpl.
  rewrite Hq. simpl. rewrite <- Hq. by destruct st.
Qed.

(** The steps [rest] that remain run one after the other. *)
Lemma steps_pass rest : ∀ before st k,
  methodArray = before ++ rest → rest ≠ [] → st_queue st = [] →
  Forall (step_passes st options) rest →
  (length rest ≤ S k)%nat →
  (executeNthStep methodArray options done (length before) ;;; run_ticks k) st
  = (Ret tt, add_events st (flat_map (step_call options) rest
                            ++ [EvDone done VUndef])).
Proof.
  induction rest as [|s rest IH]; intros before st k Hi Hne Hq Hp Hk; [done|].
  apply Forall_cons in Hp as [Hp Hrest].
  assert (methodArray !! length before = Some s) as Hn.
  { rewrite Hi, lookup_app_r by lia. by replace (_ - _) with 0 by lia. }
  set (st1 := add_events st (step_call options s)).
  assert (st_objs st1 = st_objs st) as Ho by done.
  assert (st_queue st1 = []) as Hq1 by done.
  change (flat_map (step_call options) (s :: rest))
    with (step_call options s ++ flat_map (step_call options) rest).
  rewrite <- app_assoc, <- add_events_app. fold st1.
  unfold bind at 1. rewrite (executeNthStep_passes _ _ _ Hn Hp). fold st1.
  destruct rest as [|s' rest'].
  - rewrite nextStep_last by (rewrite Hi, length_app; simpl; lia).
    rewrite run_ticks_idle by done. done.
  - destruct k as [|k]; [simpl in Hk; lia|].
    pose proof (nextStep_tick (length before) st1 k
                  ltac:(rewrite Hi, length_app; simpl; lia) Hq1) as Ht.
    unfold bind at 1 in Ht. rewrite Ht.
    replace (length before + 1) with (length (before ++ [s]))
      by (rewrite length_app; simpl; lia).
    rewrite (IH (before ++ [s]) st1 k).
    + done.
    + by rewrite Hi, <- app_assoc.
    + done.
    + done.
    + eapply Forall_impl; [exact Hrest|]. intros x. by apply step_passes_objs.
    + simpl in *. lia.
Qed.
End Lifecycle.

(** C5: the list of steps of a lifecycle is the expansion of its
    arguments at the time it is built: each pair (service name, method
    name) gives one bound step per instance resolved then, in order, and
    each function one step. A lifecycle without steps calls [done()] at
    once. Executing the lifecycle calls its steps one after the other in
    that order and then [done()], in the state it was built in and in any
    state with the same objects: after later registrations, for one. *)
Theorem lifecycle_fixed_at_build fuel this args st steps st' :
  well_formed_args args = true →
  scope_lifecycle fuel this args st = (Ret steps, st') →
  expansion fuel this args st steps st'
  ∧ (∀ options done st2,
       lifecycle [] options done st2 = (Ret tt, add_events st2 [EvDone done VUndef]))
  ∧ (∀ options done st2,
       st_objs st2 = st_objs st' → st_queue st2 = [] →
       Forall (step_passes st' options) steps →
       (lifecycle steps options done ;;; run_ticks (length steps)) st2
       = (Ret tt, add_events st2 (flat_map (step_call options) steps
                                  ++ [EvDone done VUndef])))
  ∧ (∀ sc name C r st2,
       scope_register sc name C st' = (r, st2) →
       st_objs st2 = st_objs st' ∧ st_queue st2 = st_queue st').
Proof.
  intros Hwf H. split_and!.
  - by apply lifecycle_steps_expansion.
  - done.
  - intros options done st2 Ho Hq Hp. unfold lifecycle.
    destruct steps as [|s steps']; [done|].
    rewrite decide_True by (simpl; lia).
    apply (steps_pass (s :: steps') options done (s :: steps') []); try done.
    + eapply Forall_impl; [exact Hp|]. intros x. by apply step_passes_objs.
    + lia.
  - intros sc name C r st2 Hr. by apply same_objects_register in Hr.
Qed.

Lemma lifecycle_fixed_at_build_witness :
  let args := [ArgName "pair"; ArgName "method"; ArgFunction 8;
               ArgName "pair"; ArgName "method"] in
  let built := scope_lifecycle 2 0 args chain_scope in
  let steps := [(VRef 5, VRef 10); (VRef 6, VRef 11); (VRef 8, VUndef);
                (VRef 5, VRef 12); (VRef 6, VRef 11)] in
  let later := snd (scope_register 0 "pair" (VRef 4) (snd built)) in
  fst built = Ret steps ∧
  st_trace (snd ((lifecycle steps (VRef 9) 0 ;;; run_ticks 5) later))
  = [EvCall 5 (VRef 10) (VRef 9); EvCall 6 (VRef 11) (VRef 9);
     EvCall 8 VUndef (VRef 9);
     EvCall 5 (VRef 12) (VRef 9); EvCall 6 (VRef 11) (VRef 9);
     EvDone 0 VUndef].
Proof.
  intros args built steps later.
  assert (scope_lifecycle 2 0 args chain_scope = (Ret steps, snd built)) as H
    by (vm_compute; reflexivity).
  split; [unfold built; by rewrite H|].
  destruct (lifecycle_fixed_at_build 2 0 args chain_scope steps (snd built)
              eq_refl H) as (_ & _ & Hrun & Hreg).
  destruct (Hreg 0 "pair" (VRef 4)
              (fst (scope_register 0 "pair" (VRef 4) (snd built))) later)
    as [Ho Hq]; [vm_compute; reflexivity|].
  assert (Forall (step_passes (snd built) (VRef 9)) steps) as Hp.
  { repeat (apply Forall_cons; split; [|]); [..|by constructor];
      exists VUndef; (split; [|done]);
      eexists _, (fun _ _ => Calls VUndef); split_and!; vm_compute; reflexivity. }
  pose proof (Hrun (VRef 9) 0 later Ho ltac:(by rewrite Hq) Hp) as Hr.
  change (length steps) with 5 in Hr. rewrite Hr. vm_compute; reflexivity.
Defined.

(** *** A lifecycle over a service without the method *)

Lemma serviceToMethod_lacks methodName service st :
  lacks st service methodName →
  serviceToMethod (Some (ArgName methodName)) service st = (Throw TypeError, st).
Proof.
  intros (m & Hm & Ht). unfold serviceToMethod.
  rewrite (bind_run _ _ _ _ _ Hm). unfold get_state at 1, bind at 1.
  by destruct m.
Qed.

Lemma serviceToMethod_cases methodName service st :
  (∃ s, serviceToMethod methodName service st = (Ret s, st)) ∨
  serviceToMethod methodName service st = (Throw TypeError, st).
Proof.
  unfold serviceToMethod.
  assert (∀ key, (∃ m, get_prop service key st = (Ret m, st)) ∨
                 get_prop service key st = (Throw TypeError, st)) as Hget.
  { intros key. unfold get_prop. destruct service; eauto.
    destruct (st_objs st !! a); eauto. }
  assert (∃ r, (match methodName with
                | Some (ArgName n) => get_prop service n
                | Some (ArgFunction _) => get_obj service ;;; ret VUndef
                | None => get_prop service "undefined"
                end) st = (r, st) ∧ (∀ e, r = Throw e → e = TypeError))
    as (r & Hr & He).
  { destruct methodName as [[n|g]|].
    - destruct (Hget n) as [[m Hm]|Hm]; rewrite Hm; eexists; split; eauto;
        by intros ? [= <-].
    - destruct service; simpl; eexists; (split; [reflexivity|]); by intros ? [= <-].
    - destruct (Hget "undefined") as [[m Hm]|Hm]; rewrite Hm; eexists; split; eauto;
        by intros ? [= <-]. }
  destruct r as [m|e].
  - rewrite !(bind_run _ _ _ _ _ Hr).
    rewrite !(bind_run _ _ _ _ _ (eq_refl : get_state st = (Ret st, st))).
    destruct (is_function st m); eauto.
  - right. rewrite (bind_run_throw _ _ _ _ _ Hr). by rewrite (He e eq_refl).
Qed.

Lemma mapM_serviceToMethod_lacks methodName insts st :
  Exists (λ service, lacks st service methodName) insts →
  mapM (serviceToMethod (Some (ArgName methodName))) insts st = (Throw TypeError, st).
Proof.
  induction 1 as [service insts Hl | service insts Hex IH]; simpl.
  - by rewrite (bind_run_throw _ _ _ _ _ (serviceToMethod_lacks _ _ _ Hl)).
  - destruct (serviceToMethod_cases (Some (ArgName methodName)) service st)
      as [[s Hs]|Hs].
    + rewrite (bind_run _ _ _ _ _ Hs). by rewrite (bind_run_throw _ _ _ _ _ IH).
    + by rewrite (bind_run_throw _ _ _ _ _ Hs).
Qed.

(** The arguments after well-formed ones are processed in the state the
    first ones leave: an error there is the error of the whole. *)
Lemma lifecycle_steps_app_Throw fuel this rest e st2 pre : ∀ st steps0 st0,
  well_formed_args pre = true →
  lifecycle_steps fuel this pre st = (Ret steps0, st0) →
  lifecycle_steps fuel this rest st0 = (Throw e, st2) →
  lifecycle_steps fuel this (pre ++ rest) st = (Throw e, st2).
Proof.
  remember (length pre) as n eqn:Hn. revert pre Hn.
  induction n as [n IH] using lt_wf_ind. intros pre Hn st steps0 st0 Hwf Hpre Hrest.
  destruct pre as [|[serviceName|f] pre']; simpl in Hpre.
  - by injection Hpre as <- <-.
  - destruct pre' as [|[methodName|g] pre'']; try done.
    apply bind_Ret in Hpre as (insts & st1 & Hinsts & Hpre).
    apply bind_Ret in Hpre as (bound & st1' & Hbound & Hpre).
    apply bind_Ret in Hpre as (steps' & st3 & Hsteps & [= <- <-]).
    simpl. rewrite (bind_run _ _ _ _ _ Hinsts), (bind_run _ _ _ _ _ Hbound).
    apply bind_run_throw.
    eapply (IH (length pre'')); [simpl in Hn; lia | done | done | done | done].
  - apply bind_Ret in Hpre as (steps' & st3 & Hsteps & [= <- <-]).
    simpl. apply bind_run_throw.
    eapply (IH (length pre')); [simpl in Hn; lia | done | done | done | done].
Qed.

Lemma calls_of_all_lack st method options insts :
  Forall (λ s, lacks st s method) insts → calls_of st method options insts = [].
Proof.
  induction 1 as [|s insts Hl _ IH]; [done|].
  by rewrite calls_of_cons, (calls_of_lacks _ _ _ _ Hl), IH.
Qed.

(** C10: when a pair (service name, method name) of the arguments of
    [lifecycle] is reached and one of the instances resolved for the name
    lacks the method, the build throws a [TypeError] ([.bind] of a
    missing method); [callService] on instances that lack the method
    skips them and calls [done()]. *)
Theorem lifecycle_missing_method fuel this pre serviceName methodName rest
    st steps0 st0 insts st1 :
  well_formed_args pre = true →
  lifecycle_steps fuel this pre st = (Ret steps0, st0) →
  scope_getServices fuel this serviceName VUndef st0 = (Ret insts, st1) →
  (Exists (λ service, lacks st1 service methodName) insts →
   scope_lifecycle fuel this
     (pre ++ ArgName serviceName :: ArgName methodName :: rest) st
   = (Throw TypeError, st1))
  ∧ (Forall (λ service, lacks st1 service methodName) insts →
     st_queue st0 = [] →
     ∀ options done,
       (scope_callService fuel this serviceName methodName options done ;;;
        run_ticks (length insts)) st0
       = (Ret tt, add_events st1 [EvDone done VUndef])).
Proof.
  intros Hwf Hpre Hget. split.
  - intros Hex. eapply lifecycle_steps_app_Throw; [done | done |].
    simpl. rewrite (bind_run _ _ _ _ _ Hget).
    by rewrite (bind_run_throw _ _ _ _ _ (mapM_serviceToMethod_lacks _ _ _ Hex)).
  - intros Hall Hq options done.
    assert (st_queue st1 = []) as Hq1.
    { rewrite <- Hq. eapply ext_queue, framed_scope_getServices, Hget. }
    unfold scope_callService. unfold bind at 1.
    rewrite (bind_run _ _ _ _ _ Hget).
    destruct insts as [|s insts']; [done|].
    rewrite decide_True by (simpl; lia).
    pose proof (bind_ret_skip
                  (callNthService (s :: insts') methodName options done 0)
                  this (run_ticks (length (s :: insts'))) st1) as Hskip.
    unfold bind at 1 in Hskip. rewrite Hskip.
    replace [EvDone done VUndef]
      with (calls_of st1 methodName options (s :: insts') ++ [EvDone done VUndef])
      by (by rewrite (calls_of_all_lack _ _ _ _ Hall)).
    apply (chain_passes (s :: insts') methodName options done (s :: insts') []);
      try done.
    + eapply Forall_impl; [exact Hall|]. intros x Hx. by left.
    + lia.
Qed.

Lemma lifecycle_missing_method_witness :
  fst (scope_lifecycle 2 0 [ArgFunction 8; ArgName "service"; ArgName "method"]
         chain_scope) = Throw TypeError.
Proof.
  pose (st1 := snd (scope_getServices 2 0 "service" VUndef chain_scope)).
  destruct (lifecycle_missing_method 2 0 [ArgFunction 8] "service" "method" []
              chain_scope [(VRef 8, VUndef)] chain_scope
              [VRef 10; VRef 11; VRef 12] st1) as [Hthrow _].
  - reflexivity.
  - vm_compute; reflexivity.
  - vm_compute; reflexivity.
  - change ([ArgFunction 8; ArgName "service"; ArgName "method"])
      with ([ArgFunction 8] ++ [ArgName "service"; ArgName "method"]).
    rewrite Hthrow; [done|].
    apply Exists_cons_tl, Exists_cons_hd.
    exists VUndef. split; vm_compute; reflexivity.
Defined.

(** ** Further properties of the container *)

(** *** A slot that holds an instance keeps it *)

#[global] Instance kept_except_preorder X : PreOrder (kept_except X).
Proof.
  split.
  - by intros st sc service index _ _.
  - intros st1 st2 st3 H12 H23 sc service index HX Ht.
    rewrite <- (H12 sc service index HX Ht).
    apply H23; [done|]. by rewrite (H12 sc service index HX Ht).
Qed.

#[global] Instance cache_kept_preorder : PreOrder cache_kept.
Proof. apply kept_except_preorder. Qed.

Lemma kept_except_weaken X Y st st' :
  X ⊆ Y → kept_except X st st' → kept_except Y st st'.
Proof. intros HXY H sc service index HY. apply H. intros HX. by apply HY, HXY. Qed.

Lemma respects_kept_weaken X {A} (m : M A) :
  respects cache_kept m → respects (kept_except X) m.
Proof.
  intros H st r st' E. eapply (kept_except_weaken []); [|by eapply H].
  apply list_subseteq_nil.
Qed.

(** The slots of [X] that are empty at first need no exception. *)
Lemma kept_except_empty X st st' :
  Forall (λ x : slot, truthy (cached st x.1.1 x.1.2 x.2) = false) X →
  kept_except X st st' → cache_kept st st'.
Proof.
  intros Hempty H sc service index _ Ht. apply H; [|done].
  intros Hin. rewrite Forall_forall in Hempty.
  specialize (Hempty _ Hin). simpl in Hempty. congruence.
Qed.

Lemma kept_except_same_scopes X st st' :
  st_scopes st' = st_scopes st → kept_except X st st'.
Proof. intros Hsc sc service index _ _. by apply cached_same_scopes. Qed.

Lemma kept_set_prop X v key x : respects (kept_except X) (set_prop v key x).
Proof.
  intros st r st' E. apply kept_except_same_scopes.
  unfold set_prop in E. destruct v; by simplify_eq.
Qed.

Lemma kept_new_instance X c args : respects (kept_except X) (new_instance c args).
Proof.
  intros st r st' E. apply kept_except_same_scopes.
  unfold new_instance in E. by simplify_eq.
Qed.

Lemma kept_walk_parents X sc a : respects (kept_except X) (walk_parents sc a).
Proof. apply respects_read; [apply _|]. by intros st. Qed.

Lemma kept_instance_cache X sc service cls :
  respects (kept_except X) (instance_cache sc service cls).
Proof.
  intros st r st' E sc' service' index' _ _. by eapply instance_cache_cached.
Qed.

Lemma kept_set_instance X sc service index v :
  (sc, service, index) ∈ X →
  respects (kept_except X) (set_instance sc service index v).
Proof.
  intros HX st r st' E sc' service' index' HX' _.
  eapply set_instance_cached; [done|]. by intros [= -> -> ->].
Qed.

Lemma respects_mapMi R `{!PreOrder R} {A B} (f : A → nat → M B) i l :
  (∀ x i, respects R (f x i)) → respects R (mapMi f i l).
Proof.
  intros Hf. revert i. induction l as [|x l IH]; intros i; simpl;
    [by apply respects_ret|].
  apply respects_bind; [done | done | intros y].
  apply respects_bind; [done | done | intros ys]. by apply respects_ret.
Qed.

(** Break a goal on the slots that are kept along the program. *)
Ltac kept_step :=
  lazymatch goal with
  | |- respects _ (mapMi _ _ _) => apply respects_mapMi; [apply _|intros ? ?]
  | |- respects _ (walk_parents _ _) => apply kept_walk_parents
  | |- respects _ (set_prop _ _ _) => apply kept_set_prop
  | |- respects _ (new_instance _ _) => apply kept_new_instance
  | |- respects _ (instance_cache _ _ _) => apply kept_instance_cache
  | |- respects _ (set_instance _ _ _ _) => apply kept_set_instance; set_solver
  | |- _ => respects_step
  end.
Ltac kept_tac := repeat kept_step.

Section CacheKept.
Variable require : addr → string → value → M value.
Hypothesis kept_require :
  ∀ sc service options, respects cache_kept (require sc service options).

Lemma kept_construct X sc C options :
  respects (kept_except X) (construct require sc C options).
Proof using kept_require.
  pose proof (λ sc service options,
                respects_kept_weaken X _ (kept_require sc service options)).
  unfold construct. kept_tac.
Qed.

Lemma kept_here sc service index options C st r st' :
  truthy (cached st sc service index) = false →
  (v <- construct require sc C options ;;
   set_instance sc service index v ;;; ret v) st = (r, st') →
  cache_kept st st'.
Proof using kept_require.
  intros Hempty E. apply (kept_except_empty [(sc, service, index)]).
  { by constructor. }
  revert E. pose proof kept_construct.
  match goal with |- ?m st = _ → _ =>
    enough (respects (kept_except [(sc, service, index)]) m) as Hk by apply Hk end.
  kept_tac.
Qed.

Lemma kept_from_owner sc service index options C c st r st' :
  truthy (cached st sc service index) = false →
  from_owner require sc service index options C c st = (r, st') →
  cache_kept st st'.
Proof using kept_require.
  intros Hempty. unfold from_owner. unfold bind at 1.
  destruct (get_scope c st) as [[cs|e] st0] eqn:Ecs.
  2:{ intros [= <- <-]. by apply get_scope_Throw in Ecs as ->. }
  apply get_scope_Ret in Ecs as [-> Hcs].
  unfold get_state at 1, bind at 1.
  destruct (services_of st cs service) as [lo|] eqn:Hlo; [|by intros [= <- <-]].
  destruct (indexOf lo C) as [ci|] eqn:Hidx; [|by intros [= <- <-]].
  unfold bind at 1.
  destruct (instance_cache c service (Some lo) st) as [[cinsts|e] st1] eqn:Ei.
  2:{ intros [= <- <-]. by eapply (kept_instance_cache []). }
  pose proof (instance_cache_cached _ _ _ _ _ _ Ei) as Hsame.
  apply instance_cache_Ret in Ei as (_ & (cs1 & Hcs1 & Hci) & _).
  rewrite <- (cached_lookup st1 c cs1 service cinsts ci Hcs1 Hci).
  intros E. pose proof kept_construct.
  assert (∀ X, Forall (λ x : slot, truthy (cached st1 x.1.1 x.1.2 x.2) = false) X →
               kept_except X st1 st' → cache_kept st st') as Hend.
  { intros X HX HK. etrans; [|by eapply kept_except_empty].
    intros sc' service' index' _ _. apply Hsame. }
  destruct (truthy (cached st1 c service ci)) eqn:Ht.
  - apply (Hend [(sc, service, index)]).
    { constructor; [|done]. simpl. by rewrite Hsame. }
    revert E.
    match goal with |- ?m st1 = _ → _ =>
      enough (respects (kept_except [(sc, service, index)]) m) as Hk by apply Hk end.
    kept_tac.
  - apply (Hend [(sc, service, index); (c, service, ci)]).
    { repeat constructor; simpl; [by rewrite Hsame | done]. }
    revert E.
    match goal with |- ?m st1 = _ → _ =>
      enough (respects (kept_except [(sc, service, index); (c, service, ci)]) m)
        as Hk by apply Hk end.
    kept_tac.
Qed.

Lemma kept_getSingleton sc service index options :
  respects cache_kept (getSingleton require sc service index options).
Proof using kept_require.
  intros st r st' H. unfold getSingleton in H. unfold bind at 1 in H.
  destruct (get_scope sc st) as [[s|e] st0] eqn:Es.
  2:{ injection H as <- <-. by apply get_scope_Throw in Es as ->. }
  apply get_scope_Ret in Es as [-> Hs].
  unfold get_state at 1, bind at 1 in H. unfold bind at 1 in H.
  destruct (instance_cache sc service (services_of st s service) st)
    as [[insts|e] st1] eqn:Ei.
  2:{ injection H as <- <-. by eapply (kept_instance_cache []). }
  pose proof (instance_cache_cached _ _ _ _ _ _ Ei) as Hsame.
  apply instance_cache_Ret in Ei as (_ & (s1 & Hs1 & Hi) & _).
  rewrite <- (cached_lookup st1 sc s1 service insts index Hs1 Hi) in H.
  assert (cache_kept st st1) as K1.
  { intros sc' service' index' _ _. apply Hsame. }
  destruct (truthy (cached st1 sc service index)) eqn:Ht;
    [by injection H as <- <-|].
  etrans; [exact K1|]. clear K1 Hsame.
  destruct (services_of st s service) as [l|]; [|by injection H as <- <-].
  unfold bind at 1 in H.
  destruct (get_statics (array_get l index) st1) as [[d|e] st2] eqn:Ed.
  2:{ injection H as <- <-. by apply get_statics_Throw in Ed as ->. }
  apply get_statics_Ret in Ed as [-> ->].
  destruct (scope_prop (statics_of st1 (array_get l index))) as [a|];
    [|by eapply kept_here].
  destruct (nonempty a); [|by eapply kept_here].
  unfold bind at 1 in H. unfold walk_parents at 1 in H.
  destruct (walk _ _ _ _) as [cur|e]; [|by injection H as <- <-].
  unfold bind at 1 in H.
  match type of H with context [match ?m st1 with _ => _ end] =>
    destruct (m st1) as [r2 st2] eqn:Ef end.
  assert (cache_kept st1 st2) as K2.
  { destruct cur as [c|]; [|by injection Ef as <- <-].
    destruct (decide (c = sc)); [by injection Ef as <- <-|].
    by eapply kept_from_owner. }
  destruct r2 as [[v|]|e]; [by injection H as <- <- | | by injection H as <- <-].
  destruct (decide (scopeName s = a)); [|by injection H as <- <-].
  etrans; [exact K2|]. eapply kept_here; [|exact H].
  destruct cur as [c|]; [|by injection Ef as <-].
  destruct (decide (c = sc)); [by injection Ef as <-|].
  destruct (from_owner_None _ _ _ _ _ _ _ _ _ Ef) as (cs & lo & Hcs & Hlo & Hidx).
  rewrite (from_owner_absent _ _ _ _ _ _ _ _ _ _ Hcs Hlo Hidx) in Ef.
  by injection Ef as <-.
Qed.

Lemma kept_require_body this service options :
  respects cache_kept (scope_require_body require this service options).
Proof using kept_require.
  pose proof (kept_construct []). pose proof kept_getSingleton.
  unfold scope_require_body, cache_kept. kept_tac.
Qed.
End CacheKept.

Lemma kept_scope_require fuel this service options :
  respects cache_kept (scope_require fuel this service options).
Proof.
  revert this service options. induction fuel as [|fuel IH]; intros; simpl.
  - apply respects_throw, _.
  - by apply kept_require_body.
Qed.

Lemma kept_scope_getServices fuel this service options :
  respects cache_kept (scope_getServices fuel this service options).
Proof.
  pose proof (kept_construct _ (kept_scope_require fuel) []).
  pose proof (kept_getSingleton _ (kept_scope_require fuel)).
  unfold scope_getServices, getServiceInstance, cache_kept. kept_tac.
Qed.

(** X1: a resolution never replaces a cached instance. Whatever
    [require] or [getServices] does, and whether it returns or throws,
    every slot of every scope that held an instance before holds the same
    instance after. *)
Theorem resolution_keeps_instances fuel this service options st :
  cache_kept st (snd (scope_require fuel this service options st)) ∧
  cache_kept st (snd (scope_getServices fuel this service options st)).
Proof.
  split.
  - eapply kept_scope_require, surjective_pairing.
  - eapply kept_scope_getServices, surjective_pairing.
Qed.

Lemma framed_perform_resolution fuel sc o :
  resolution o → framed (perform fuel sc o).
Proof.
  pose proof framed_scope_getServices.
  destruct o; [done| |]; intros _; simpl; framed_tac.
Qed.

Lemma kept_perform_resolution fuel sc o :
  resolution o → respects cache_kept (perform fuel sc o).
Proof.
  pose proof kept_scope_require. pose proof kept_scope_getServices.
  destruct o; [done| |]; intros _; simpl; unfold cache_kept; kept_tac.
Qed.

Lemma perform_each_resolutions fuel ops : ∀ st,
  Forall (λ o, resolution (snd o)) ops →
  extends st (perform_each fuel ops st) ∧ cache_kept st (perform_each fuel ops st).
Proof.
  induction ops as [|[sc o] ops IH]; intros st Hops; [done|].
  apply Forall_cons in Hops as [Ho Hops]. simpl in Ho.
  unfold perform_each. simpl. fold (perform_each fuel ops).
  destruct (IH (snd (perform fuel sc o st)) Hops) as [E K]. split.
  - etrans; [|exact E].
    eapply framed_perform_resolution; [done | apply surjective_pairing].
  - etrans; [|exact K].
    eapply kept_perform_resolution; [done | apply surjective_pairing].
Qed.

(** X2: a singleton is for good. Once [require] has returned the
    instance of a service that is not transient, [require] returns that
    same instance, and changes nothing, after any sequence of resolutions
    on any scopes (each of which may return or throw). *)
Theorem singleton_survives fuel sc service st s l D options v st1 fuel1 ops :
  st_scopes st !! sc = Some s →
  services_of st s service = Some l →
  last l = Some D →
  transient (statics_of st D) = false →
  scope_require fuel sc service options st = (Ret v, st1) →
  Forall (λ o, resolution (snd o)) ops →
  ∀ fuel' options',
    scope_require (S fuel') sc service options' (perform_each fuel1 ops st1)
    = (Ret v, perform_each fuel1 ops st1).
Proof.
  intros Hs Hl Hlast Htr H Hops fuel' options'.
  destruct fuel as [|n]; [done|].
  destruct (perform_each_resolutions fuel1 ops st1 Hops) as [E2 K2].
  set (st2 := perform_each fuel1 ops st1) in *.
  assert (extends st st2) as E.
  { etrans; [|exact E2]. by eapply framed_scope_require. }
  destruct (extends_scope _ _ _ _ E Hs) as (s2 & Hs2 & Hstat).
  pose proof (extends_services_of _ _ _ _ service E Hstat) as Hl2.
  rewrite Hl in Hl2.
  destruct (truthy D) eqn:HD.
  - rewrite (require_last _ _ _ _ _ _ _ _ Hs Hl Hlast HD), Htr in H.
    apply getSingleton_Ret in H as [Hc Hv]; [|apply framed_scope_require].
    assert (truthy v = true) as Hvt.
    { apply Hv. intros s' l' Hs' Hl'. simplify_eq.
      by rewrite (last_array_get _ _ Hlast). }
    rewrite (require_last _ _ _ _ _ _ _ _ Hs2 Hl2 Hlast HD).
    rewrite (extends_statics_of _ _ _ E), Htr.
    apply getSingleton_cached; [|done].
    rewrite <- Hc. apply K2; [apply not_elem_of_nil | by rewrite Hc].
  - rewrite (require_last_falsy _ _ _ _ _ _ _ _ Hs Hl Hlast HD) in H.
    injection H as <- <-. by eapply require_last_falsy.
Qed.

Lemma singleton_survives_witness :
  let st1 := snd (scope_require 2 0 "singleton" VUndef test_scope) in
  let ops := [(0, Require "service" VUndef); (0, GetServices "both" VUndef);
              (0, Require "both" (VNum 1))] in
  scope_require 1 0 "singleton" VUndef (perform_each 2 ops st1)
  = (Ret (VRef 3), perform_each 2 ops st1).
Proof.
  intros st1 ops.
  refine (singleton_survives 2 0 "singleton" test_scope _ _ (VRef 2) VUndef
            (VRef 3) st1 2 ops _ _ _ _ _ _ 0 VUndef).
  - vm_compute; reflexivity.
  - vm_compute; reflexivity.
  - vm_compute; reflexivity.
  - vm_compute; reflexivity.
  - vm_compute; reflexivity.
  - repeat constructor.
Defined.

(** *** [getServices] again, and [require] after it *)

Lemma getServiceInstance_singleton fuel sc service options D index st :
  truthy D = true → transient (statics_of st D) = false →
  getServiceInstance fuel sc service options D index st
  = getSingleton (scope_require fuel) sc service index options st.
Proof.
  intros HD Htr. unfold getServiceInstance.
  rewrite (bind_run _ _ _ _ _
             (get_statics_run D st ltac:(by destruct D) ltac:(by destruct D))).
  by rewrite Htr.
Qed.

(** The slots that [getServices] has gone through hold what it returns. *)
Lemma mapMi_singletons_cached fuel sc service options s0 l0 st0 l :
  ∀ i st vs st',
    st_scopes st0 !! sc = Some s0 → services_of st0 s0 service = Some l0 →
    extends st0 st →
    (∀ k D, l !! k = Some D → l0 !! (i + k) = Some D) →
    Forall (λ D, truthy D = true ∧ transient (statics_of st0 D) = false) l →
    mapMi (getServiceInstance fuel sc service options) i l st = (Ret vs, st') →
    ∀ k v, vs !! k = Some v →
           cached st' sc service (i + k) = v ∧ truthy v = true.
Proof.
  induction l as [|D l IH]; intros i st vs st' Hs0 Hl0 E Hsub Hall H.
  { injection H as <- <-. by intros k v. }
  apply Forall_cons in Hall as [[HD Htr] Hall]. simpl in H.
  apply bind_Ret in H as (y & stA & Hy & H).
  apply bind_Ret in H as (ys & stB & Hys & [= <- <-]).
  rewrite getServiceInstance_singleton in Hy;
    [|done|by rewrite (extends_statics_of _ _ _ E)].
  assert (extends st stA) as EA.
  { eapply framed_getSingleton, Hy. apply framed_scope_require. }
  apply getSingleton_Ret in Hy as [Hc Hv]; [|apply framed_scope_require].
  assert (truthy y = true) as Hyt.
  { apply Hv. intros s l1 Hs Hl1.
    destruct (extends_scope _ _ _ _ E Hs0) as (s' & Hs' & Hstat).
    pose proof (extends_services_of _ _ _ _ service E Hstat) as Hl'.
    rewrite Hl0 in Hl'. assert (s' = s) as -> by congruence.
    rewrite Hl' in Hl1. injection Hl1 as <-.
    pose proof (Hsub 0 D eq_refl) as H0. rewrite Nat.add_0_r in H0.
    unfold array_get. by rewrite H0. }
  assert (cache_kept stA stB) as K.
  { eapply respects_mapMi, Hys; [apply _|].
    intros x j. unfold getServiceInstance, cache_kept.
    pose proof (kept_construct _ (kept_scope_require fuel) []).
    pose proof (kept_getSingleton _ (kept_scope_require fuel)).
    kept_tac. }
  intros [|k] v Hk.
  - injection Hk as <-. rewrite Nat.add_0_r. split; [|done].
    rewrite <- Hc. apply K; [apply not_elem_of_nil | by rewrite Hc].
  - replace (i + S k) with (S i + k) by lia.
    eapply (IH (S i) stA ys stB); try done.
    + by etrans.
    + intros k' D' Hk'. replace (S i + k') with (i + S k') by lia.
      by apply Hsub.
Qed.

(** Slots that hold instances answer without building anything. *)
Lemma mapMi_cached fuel sc service options st l :
  ∀ i vs,
    length vs = length l →
    Forall (λ D, truthy D = true ∧ transient (statics_of st D) = false) l →
    (∀ k v, vs !! k = Some v →
            cached st sc service (i + k) = v ∧ truthy v = true) →
    mapMi (getServiceInstance fuel sc service options) i l st = (Ret vs, st).
Proof.
  induction l as [|D l IH]; intros i vs Hlen Hall Hvs.
  { by destruct vs. }
  destruct vs as [|v vs]; [done|]. injection Hlen as Hlen.
  apply Forall_cons in Hall as [[HD Htr] Hall]. simpl.
  destruct (Hvs 0 v eq_refl) as [Hc Hv]. rewrite Nat.add_0_r in Hc.
  assert (getServiceInstance fuel sc service options D i st = (Ret v, st)) as Hrun.
  { rewrite getServiceInstance_singleton by done. by apply getSingleton_cached. }
  rewrite (bind_run _ _ _ _ _ Hrun).
  rewrite (bind_run _ _ _ _ _ (IH (S i) vs Hlen Hall ltac:(
    intros k v' Hk; replace (S i + k) with (i + S k) by lia; by apply Hvs))).
  done.
Qed.

Lemma scope_getServices_run fuel sc service options st s l :
  st_scopes st !! sc = Some s → services_of st s service = Some l →
  scope_getServices fuel sc service options st
  = mapMi (getServiceInstance fuel sc service options) 0 l st.
Proof.
  intros Hs Hl. unfold scope_getServices.
  rewrite (bind_run _ _ _ _ _ (get_scope_run _ _ _ Hs)).
  unfold get_state at 1, bind at 1. unfold services_of in Hl.
  destruct (services s !! service) as [a|]; [|done]. simpl in Hl. by rewrite Hl.
Qed.

(** X3: when every service registered under a name is a singleton,
    [getServices] returns the same instances every time: a second call
    returns the list of the first and changes nothing. *)
Theorem getServices_again fuel sc service options st s l vs st1 :
  st_scopes st !! sc = Some s →
  services_of st s service = Some l →
  Forall (λ D, truthy D = true ∧ transient (statics_of st D) = false) l →
  scope_getServices fuel sc service options st = (Ret vs, st1) →
  ∀ fuel' options',
    scope_getServices fuel' sc service options' st1 = (Ret vs, st1).
Proof.
  intros Hs Hl Hall H fuel' options'.
  assert (extends st st1) as E by (by eapply framed_scope_getServices).
  destruct (extends_scope _ _ _ _ E Hs) as (s1 & Hs1 & Hstat).
  pose proof (extends_services_of _ _ _ _ service E Hstat) as Hl1.
  rewrite Hl in Hl1.
  rewrite (scope_getServices_run _ _ _ _ _ _ _ Hs Hl) in H.
  rewrite (scope_getServices_run _ _ _ _ _ _ _ Hs1 Hl1).
  apply mapMi_cached.
  - apply mapMi_Ret, resolved_in_order_length in H. done.
  - eapply Forall_impl; [exact Hall|]. intros D [? ?].
    by rewrite (extends_statics_of _ _ _ E).
  - eapply (mapMi_singletons_cached fuel sc service options s l st l 0 st vs st1);
      done.
Qed.

Lemma getServices_again_witness :
  let st1 := snd (scope_getServices 2 0 "singleton" VUndef test_scope) in
  scope_getServices 0 0 "singleton" (VNum 1) st1 = (Ret [VRef 3], st1).
Proof.
  intros st1.
  refine (getServices_again 2 0 "singleton" VUndef test_scope _ [VRef 2]
            [VRef 3] st1 _ _ _ _ 0 (VNum 1)).
  - vm_compute; reflexivity.
  - vm_compute; reflexivity.
  - repeat constructor.
  - vm_compute; reflexivity.
Defined.

Lemma mapMi_snoc {A B} (f : A → nat → M B) x l : ∀ i st vs st',
  mapMi f i (l ++ [x]) st = (Ret vs, st') →
  ∃ vs' y stA,
    vs = vs' ++ [y] ∧ mapMi f i l st = (Ret vs', stA) ∧
    f x (i + length l) stA = (Ret y, st').
Proof.
  induction l as [|z l IH]; intros i st vs st' H; simpl in H.
  - apply bind_Ret in H as (y & stA & Hy & [= <- <-]).
    exists [], y, st. rewrite Nat.add_0_r. done.
  - apply bind_Ret in H as (y & stA & Hy & H).
    apply bind_Ret in H as (ys & stB & Hys & [= <- <-]).
    apply IH in Hys as (vs' & y' & stC & -> & Hvs' & Hy').
    exists (y :: vs'), y', stC. split_and!; [done| |].
    + simpl. rewrite (bind_run _ _ _ _ _ Hy), (bind_run _ _ _ _ _ Hvs'). done.
    + simpl. by replace (i + S (length l)) with (S i + length l) by lia.
Qed.

(** X4: [require] agrees with [getServices]. When the service registered
    last under a name is a singleton, [require] after [getServices]
    returns the last instance of the list that [getServices] returned,
    and changes nothing. *)
Theorem require_after_getServices fuel sc service options st s l D vs st1 :
  st_scopes st !! sc = Some s →
  services_of st s service = Some l →
  last l = Some D →
  truthy D = true → transient (statics_of st D) = false →
  scope_getServices fuel sc service options st = (Ret vs, st1) →
  ∃ v, last vs = Some v ∧
       ∀ fuel' options',
         scope_require (S fuel') sc service options' st1 = (Ret v, st1).
Proof.
  intros Hs Hl Hlast HD Htr H.
  assert (extends st st1) as E by (by eapply framed_scope_getServices).
  destruct (extends_scope _ _ _ _ E Hs) as (s1 & Hs1 & Hstat).
  pose proof (extends_services_of _ _ _ _ service E Hstat) as Hl1.
  rewrite Hl in Hl1.
  rewrite (scope_getServices_run _ _ _ _ _ _ _ Hs Hl) in H.
  pose proof Hlast as [l' ->]%last_Some.
  apply mapMi_snoc in H as (vs' & v & stA & -> & Hvs' & Hv).
  assert (extends st stA) as EA.
  { eapply framed_mapMi, Hvs'. intros x j. apply framed_getServiceInstance. }
  rewrite getServiceInstance_singleton in Hv;
    [|done|by rewrite (extends_statics_of _ _ _ EA)].
  apply getSingleton_Ret in Hv as [Hc Hvt]; [|apply framed_scope_require].
  exists v. split; [by rewrite last_snoc|]. intros fuel' options'.
  rewrite (require_last _ _ _ _ _ _ _ _ Hs1 Hl1 Hlast HD).
  rewrite (extends_statics_of _ _ _ E), Htr.
  rewrite length_app. simpl. replace (length l' + 1 - 1) with (length l') by lia.
  apply getSingleton_cached; [done|]. apply Hvt.
  intros sA lA HsA HlA.
  destruct (extends_scope _ _ _ _ EA Hs) as (sA' & HsA' & HstatA).
  pose proof (extends_services_of _ _ _ _ service EA HstatA) as HlA'.
  rewrite Hl in HlA'. assert (sA' = sA) as -> by congruence.
  rewrite HlA' in HlA. injection HlA as <-.
  unfold array_get. rewrite lookup_app_r by lia.
  by replace (0 + length l' - length l') with 0 by lia.
Qed.

Lemma require_after_getServices_witness :
  let st1 := snd (scope_getServices 2 0 "both" VUndef test_scope) in
  ∃ v, last [VRef 3; VRef 4] = Some v ∧
       scope_require 1 0 "both" (VNum 1) st1 = (Ret v, st1).
Proof.
  intros st1.
  destruct (require_after_getServices 2 0 "both" VUndef test_scope
              (default (Scoped "" None ∅ ∅ false) (st_scopes test_scope !! 0))
              [VRef 1; VRef 2] (VRef 2) [VRef 3; VRef 4] st1)
    as (v & Hlast & Hreq).
  - vm_compute; reflexivity.
  - vm_compute; reflexivity.
  - reflexivity.
  - reflexivity.
  - vm_compute; reflexivity.
  - vm_compute; reflexivity.
  - exists v. split; [exact Hlast | apply Hreq].
Defined.

(** *** One instance of a singleton per scope *)

(** On an empty slot, a service that names no scope is built in the
    requesting scope. *)
Lemma getSingleton_miss_here require sc service index options st s l D :
  st_scopes st !! sc = Some s → services_of st s service = Some l →
  truthy (cached st sc service index) = false →
  array_get l index = D → truthy D = true →
  unscoped (statics_of st D) = true →
  getSingleton require sc service index options st
  = (v <- construct require sc D options ;;
     set_instance sc service index v ;;; ret v)
      (snd (instance_cache sc service (Some l) st)).
Proof.
  intros Hs Hl Hmiss Hget HD Hun.
  destruct (instance_cache_run sc service l st s Hs)
    as (insts & st0 & E & Hext & _ & Hsame).
  rewrite (getSingleton_miss _ _ _ _ _ _ _ _ Hs Hl Hmiss), E. simpl.
  unfold resolve_miss. rewrite Hget.
  rewrite (bind_run _ _ _ _ _
             (get_statics_run D st0 ltac:(by destruct D) ltac:(by destruct D))).
  rewrite (extends_statics_of _ _ D Hext). unfold unscoped in Hun.
  destruct (scope_prop (statics_of st D)) as [a|]; [|done].
  by destruct (nonempty a).
Qed.

Lemma instance_cache_objs sc service cls st :
  st_objs (snd (instance_cache sc service cls st)) = st_objs st.
Proof.
  cbv [instance_cache bind get_scope ret throw put_scope].
  destruct (st_scopes st !! sc) as [s|]; [|done].
  destruct (instances s !! service); [done|]. by destruct cls.
Qed.

Lemma set_instance_objs sc service index v st :
  st_objs (snd (set_instance sc service index v st)) = st_objs st.
Proof.
  cbv [set_instance bind get_scope ret throw put_scope].
  by destruct (st_scopes st !! sc).
Qed.




(** *** Static services *)

Lemma getServiceInstance_transient fuel sc service options D index st :
  truthy D = true → transient (statics_of st D) = true →
  getServiceInstance fuel sc service options D index st
  = construct (scope_require fuel) sc D options st.
Proof.
  intros HD Htr. unfold getServiceInstance.
  rewrite (bind_run _ _ _ _ _
             (get_statics_run D st ltac:(by destruct D) ltac:(by destruct D))).
  by rewrite Htr.
Qed.

(** The resolution of a service that is its own instance, at any
    position of the list. *)
Lemma getServiceInstance_static fuel sc service options st s l i D :
  st_scopes st !! sc = Some s → services_of st s service = Some l →
  l !! i = Some D → static_service st D →
  cached st sc service i = D ∨ truthy (cached st sc service i) = false →
  ∃ st',
    getServiceInstance fuel sc service options D i st = (Ret D, st') ∧
    st_objs st' = st_objs st ∧ extends st st' ∧
    (∀ sc' service' index',
       (sc', service', index') ≠ (sc, service, i) →
       cached st' sc' service' index' = cached st sc' service' index') ∧
    (cached st' sc service i = D
     ∨ cached st' sc service i = cached st sc service i).
Proof.
  intros Hs Hl Hi (HD & Hcons & Hprops & Hkind) Hslot.
  assert (array_get l i = D) as Hget by (unfold array_get; by rewrite Hi).
  destruct (transient (statics_of st D)) eqn:Htr.
  { rewrite getServiceInstance_transient by done.
    rewrite construct_static by done. exists st. split_and!; try done; auto. }
  rewrite getServiceInstance_singleton by done.
  destruct Hkind as [?|Hun]; [done|].
  destruct Hslot as [Hc|Hmiss].
  { rewrite (getSingleton_cached _ _ _ _ _ _ _ Hc HD).
    exists st. split_and!; try done; auto. }
  rewrite (getSingleton_miss_here (scope_require fuel) sc service i
             options st s l D Hs Hl Hmiss Hget HD Hun).
  pose proof (instance_cache_objs sc service (Some l) st) as Hobjs.
  destruct (instance_cache_run sc service l st s Hs)
    as (insts & st0 & Ei & E0 & _ & Hsame).
  rewrite Ei in Hobjs |- *. simpl in Hobjs |- *.
  rewrite (bind_run _ _ _ _ _
             (construct_static _ sc D options st0 HD
                ltac:(by rewrite (extends_constructible _ _ _ E0))
                ltac:(by rewrite (extends_statics_of _ _ _ E0)))).
  destruct (extends_scope _ _ _ _ E0 Hs) as (s0 & Hs0 & _).
  pose proof (set_instance_objs sc service i D st0) as Hobjs'.
  destruct (set_instance_run sc service i D st0 s0 Hs0)
    as (st' & E' & Eext & Hc' & Hother).
  rewrite E' in Hobjs'. simpl in Hobjs'.
  rewrite (bind_run _ _ _ _ _ E'). exists st'. split_and!.
  - done.
  - congruence.
  - by etrans.
  - intros sc' service' index' Hne. by rewrite Hother, Hsame.
  - by left.
Qed.

Lemma require_static n sc service options st s l D :
  st_scopes st !! sc = Some s → services_of st s service = Some l →
  last l = Some D → static_service st D →
  cached st sc service (length l - 1) = D
    ∨ truthy (cached st sc service (length l - 1)) = false →
  ∃ st',
    scope_require (S n) sc service options st = (Ret D, st') ∧
    st_objs st' = st_objs st.
Proof.
  intros Hs Hl Hlast Hstatic Hslot.
  pose proof Hstatic as (HD & _).
  assert (l !! (length l - 1) = Some D) as Hi.
  { rewrite last_lookup in Hlast.
    by replace (length l - 1) with (pred (length l)) by lia. }
  destruct (getServiceInstance_static n sc service options st s l _ D
              Hs Hl Hi Hstatic Hslot) as (st' & Hrun & Ho & _).
  exists st'. split; [|done]. rewrite <- Hrun.
  rewrite (require_last _ _ _ _ _ _ _ _ Hs Hl Hlast HD).
  destruct (transient (statics_of st D)) eqn:Htr.
  - by rewrite getServiceInstance_transient.
  - by rewrite getServiceInstance_singleton.
Qed.

Lemma static_service_extends st st' D :
  extends st st' → static_service st D → static_service st' D.
Proof.
  intros E (HD & Hcons & Hprops & Hkind). unfold static_service.
  by rewrite (extends_constructible _ _ _ E), (extends_statics_of _ _ _ E).
Qed.

Lemma mapMi_static fuel sc service options l0 l : ∀ i st s,
  st_scopes st !! sc = Some s → services_of st s service = Some l0 →
  (∀ k D, l !! k = Some D → l0 !! (i + k) = Some D) →
  Forall (static_service st) l →
  (∀ k D, l !! k = Some D →
          cached st sc service (i + k) = D
          ∨ truthy (cached st sc service (i + k)) = false) →
  ∃ st',
    mapMi (getServiceInstance fuel sc service options) i l st = (Ret l, st') ∧
    st_objs st' = st_objs st ∧ extends st st'.
Proof.
  induction l as [|D l IH]; intros i st s Hs Hl0 Hsub Hall Hslots.
  { by exists st. }
  apply Forall_cons in Hall as [Hstatic Hall].
  pose proof (Hsub 0 D eq_refl) as Hi. rewrite Nat.add_0_r in Hi.
  pose proof (Hslots 0 D eq_refl) as Hslot. rewrite Nat.add_0_r in Hslot.
  destruct (getServiceInstance_static fuel sc service options st s l0 i D
              Hs Hl0 Hi Hstatic Hslot) as (stA & Hrun & Ho & EA & Hother & _).
  destruct (extends_scope _ _ _ _ EA Hs) as (sA & HsA & Hstat).
  pose proof (extends_services_of _ _ _ _ service EA Hstat) as HlA.
  rewrite Hl0 in HlA.
  destruct (IH (S i) stA sA HsA HlA) as (st' & Hrest & Ho' & E').
  { intros k D' Hk. replace (S i + k) with (i + S k) by lia. by apply Hsub. }
  { eapply Forall_impl; [exact Hall|]. intros D'. by apply static_service_extends. }
  { intros k D' Hk. replace (S i + k) with (i + S k) by lia.
    rewrite Hother by (intros [= ?]; lia). by apply Hslots. }
  exists st'. split_and!.
  - simpl. rewrite (bind_run _ _ _ _ _ Hrun), (bind_run _ _ _ _ _ Hrest). done.
  - congruence.
  - by etrans.
Qed.

(** X6: a static service is its own instance. A service that is not a
    function to construct (a plain object, or a function flagged
    [isStatic]), that has no property to inject, and that is transient
    or names no scope, is returned as it is registered: [require]
    returns the registered object itself when such a service is the last
    of its name, [getServices] returns the list of the registered
    objects itself when all the services of the name are such, and
    neither builds an object. The slots of the services are empty or
    hold them already. *)
Theorem static_service_is_its_instance fuel sc service options st s l :
  st_scopes st !! sc = Some s → services_of st s service = Some l →
  (∀ D, last l = Some D → static_service st D →
        cached st sc service (length l - 1) = D
          ∨ truthy (cached st sc service (length l - 1)) = false →
        ∃ st',
          scope_require (S fuel) sc service options st = (Ret D, st') ∧
          st_objs st' = st_objs st)
  ∧ (Forall (static_service st) l →
     (∀ k D, l !! k = Some D →
             cached st sc service k = D
             ∨ truthy (cached st sc service k) = false) →
     ∃ st',
       scope_getServices fuel sc service options st = (Ret l, st') ∧
       st_objs st' = st_objs st).
Proof.
  intros Hs Hl. split.
  - intros D Hlast Hstatic Hslot. by eapply require_static.
  - intros Hall Hslots.
    rewrite (scope_getServices_run _ _ _ _ _ _ _ Hs Hl).
    destruct (mapMi_static fuel sc service options l l 0 st s Hs Hl)
      as (st' & Hrun & Ho & _); try done.
    by exists st'.
Qed.

Lemma static_service_is_its_instance_witness :
  (∃ st',
     scope_require 1 0 "service" VUndef static_transient_scope = (Ret (VRef 1), st') ∧
     st_objs st' = st_objs static_transient_scope)
  ∧ (∃ st',
       scope_getServices 0 0 "service" VUndef static_transient_scope
       = (Ret [VRef 1], st') ∧
       st_objs st' = st_objs static_transient_scope).
Proof.
  assert (static_service static_transient_scope (VRef 1)) as Hstatic.
  { split; [reflexivity|]. split; [vm_compute; reflexivity|].
    split; [vm_compute; reflexivity|]. left. vm_compute; reflexivity. }
  destruct (static_service_is_its_instance 0 0 "service" VUndef
              static_transient_scope
              (default (Scoped "" None ∅ ∅ false)
                 (st_scopes static_transient_scope !! 0))
              [VRef 1]) as [Hreq Hget].
  - vm_compute; reflexivity.
  - vm_compute; reflexivity.
  - split.
    + apply (Hreq (VRef 1)); [reflexivity | exact Hstatic |].
      right. vm_compute; reflexivity.
    + apply Hget.
      * apply Forall_cons; split; [exact Hstatic | constructor].
      * intros [|k] D Hk; [|discriminate Hk]. right. vm_compute; reflexivity.
Defined.

(** *** Making scopes and sub-scopes *)

(** [initialize] marks the scope when its loop ends, and writes nothing
    else than the trace. *)
Lemma scope_initialize_cases this st s r st' :
  st_scopes st !! this = Some s →
  scope_initialize this st = (r, st') →
  st_objs st' = st_objs st ∧ st_arrays st' = st_arrays st ∧
  st_queue st' = st_queue st ∧
  ((r = Ret this ∧ st_scopes st' = <[this := with_initialized s]> (st_scopes st))
   ∨ (∃ e, r = Throw e ∧ st_scopes st' = st_scopes st)).
Proof.
  intros Hs. unfold scope_initialize. unfold get_state at 1, bind at 1.
  rewrite Hs. unfold bind at 1.
  match goal with |- context [forM_ ?f ?l st] =>
    assert (respects same_heap (forM_ f l)) as Hloop end.
  { pose proof same_heap_initializeService. respects_tac. }
  match goal with |- context [forM_ ?f ?l st] =>
    destruct (forM_ f l st) as [[u|e] st1] eqn:E end;
    apply Hloop in E as (Ho & Hsc & Har & Hq).
  - rewrite (bind_run _ _ _ _ _ (get_scope_run this st1 s ltac:(by rewrite Hsc))).
    intros [= <- <-]. simpl. split_and!; try done. left. by rewrite Hsc.
  - intros [= <- <-]. split_and!; try done. right. eauto.
Qed.

(** What [scope()] writes when it makes a scope of an object that is
    none yet: one new array, which holds the object, and the record of
    the scope, marked as initialized unless an initialisation threw. *)
Lemma scope_effect name obj m parent st r st1 :
  st_scopes st !! obj = None →
  scope name obj (Some m) parent st = (r, st1) →
  st_objs st1 = st_objs st ∧ st_queue st1 = st_queue st ∧
  st_arrays st1 = <[fresh (dom (st_arrays st)) := [VRef obj]]> (st_arrays st) ∧
  ∃ b, st_scopes st1
       = <[obj := Scoped name parent (<[name := fresh (dom (st_arrays st))]> m) ∅ b]>
           (st_scopes st) ∧
       (r = Ret obj → b = true).
Proof.
  intros Hold H. unfold scope in H.
  unfold get_state at 1, bind at 1 in H. rewrite Hold in H.
  unfold bind at 1, ret at 1 in H. unfold bind at 1, new_array at 1 in H.
  unfold bind at 1, put_scope at 1 in H.
  set (a := fresh (dom (st_arrays st))) in *.
  set (s := Scoped name parent (<[name := a]> m) ∅ false) in *.
  set (st0 := State _ _ _ _ _) in H.
  assert (st_scopes st0 !! obj = Some s) as Hs0.
  { unfold st0; simpl. by rewrite lookup_insert_eq. }
  unfold bind at 1 in H.
  destruct (scope_initialize obj st0) as [r0 st2] eqn:Ei.
  assert (st1 = st2) as -> by (destruct r0; by injection H as <- <-).
  apply (scope_initialize_cases _ _ _ _ _ Hs0) in Ei
    as (Hobjs & Harr & Hq & [[-> Hsc]|(e & -> & Hsc)]).
  - split_and!; try done. exists true. split; [|done].
    rewrite Hsc. unfold st0; simpl. by rewrite insert_insert_eq.
  - split_and!; try done. exists false. split; [by rewrite Hsc|].
    by injection H as <-.
Qed.

(** X7: an object that is a scope stays the scope it is. Once [scope()]
    has given an object a name that is not empty, scoping the object
    again, under any name, with any services and any parent, or making
    it a sub-scope of any scope, returns the object and changes nothing:
    not its name, its parent, its services or its instances. *)
Theorem scope_again name obj m parent st r st1 :
  st_scopes st !! obj = None → nonempty name = true →
  scope name obj (Some m) parent st = (r, st1) →
  (∀ name' svcs' parent',
     scope name' obj svcs' parent' st1 = (Ret obj, st1))
  ∧ (∀ this name',
       scope_makeSubScope this name' obj st1 = (Ret obj, st1)).
Proof.
  intros Hold Hname H.
  apply scope_effect in H as (_ & _ & _ & b & Hsc & _); [|done].
  assert (∀ name' svcs' parent',
            scope name' obj svcs' parent' st1 = (Ret obj, st1)) as Hagain.
  { intros name' svcs' parent'. unfold scope.
    unfold get_state at 1, bind at 1.
    rewrite Hsc, lookup_insert_eq. simpl. by rewrite Hname. }
  split; [exact Hagain|]. intros this name'. unfold scope_makeSubScope.
  unfold get_state at 1, bind at 1.
  by rewrite (bind_run _ _ _ _ _ (Hagain _ _ _)).
Qed.

Lemma scope_again_witness :
  scope "other" 0 None (Some 1) super_scope = (Ret 0, super_scope) ∧
  scope_makeSubScope 1 "sub" 0 super_scope = (Ret 0, super_scope).
Proof.
  destruct (scope_again "super" 0 {[ "super-service" := 0 ]} None family_heap
              (fst (scope "super" 0 (Some {[ "super-service" := 0 ]}) None
                      family_heap))
              super_scope) as [H1 H2].
  - reflexivity.
  - reflexivity.
  - vm_compute; reflexivity.
  - split; [apply H1 | apply H2].
Defined.

(** The lists of a scope whose arrays all exist are not touched by a new
    array. *)
Lemma services_of_fresh st st1 (s : scoped) service l :
  map_Forall (λ _ a, a ∈ dom (st_arrays st)) (services s) →
  st_arrays st1 = <[fresh (dom (st_arrays st)) := l]> (st_arrays st) →
  services_of st1 s service = services_of st s service.
Proof.
  intros Hwf Har. unfold services_of. rewrite Har.
  destruct (services s !! service) as [a|] eqn:Ha; [|done]. simpl.
  rewrite lookup_insert_ne; [done|].
  intros <-. apply (is_fresh (dom (st_arrays st))). by apply (Hwf service).
Qed.

Lemma scope_Ret name obj svcs parent st x st' :
  scope name obj svcs parent st = (Ret x, st') → x = obj.
Proof.
  unfold scope. unfold get_state at 1, bind at 1.
  destruct (match st_scopes st !! obj with
            | Some s => nonempty (scopeName s)
            | None => false
            end); [by intros [= <- <-]|].
  intros E. apply bind_Ret in E as (? & ? & _ & E).
  apply bind_Ret in E as (? & ? & _ & E).
  apply bind_Ret in E as (? & ? & _ & E).
  by apply bind_Ret in E as (? & ? & _ & [= <- <-]).
Qed.

(** What [makeSubScope] makes of an object that is no scope yet. *)
Lemma makeSubScope_effect this name sub st s r st1 :
  st_scopes st !! this = Some s → st_scopes st !! sub = None →
  scope_makeSubScope this name sub st = (r, st1) →
  st_objs st1 = st_objs st ∧ st_queue st1 = st_queue st ∧
  st_arrays st1 = <[fresh (dom (st_arrays st)) := [VRef sub]]> (st_arrays st) ∧
  ∃ b, st_scopes st1
       = <[sub := Scoped name (Some this)
                    (<[name := fresh (dom (st_arrays st))]> (services s)) ∅ b]>
           (st_scopes st) ∧
       (r = Ret sub → b = true).
Proof.
  intros Hs Hsub H. unfold scope_makeSubScope in H.
  unfold get_state at 1, bind at 1 in H. rewrite Hs in H. simpl in H.
  unfold bind at 1 in H.
  destruct (scope name sub (Some (services s)) (Some this) st) as [r0 st2] eqn:E.
  pose proof (scope_effect _ _ _ _ _ _ _ Hsub E) as (Ho & Hq & Har & b & Hsc & Hb).
  assert (st1 = st2) as -> by (destruct r0; by injection H as <- <-).
  split_and!; try done. exists b. split; [done|].
  intros ->. destruct r0 as [x|e]; [|done]. apply Hb. f_equal.
  by apply scope_Ret in E.
Qed.

(** X8: a sub-scope inherits the services of its parent. The object that
    [makeSubScope] makes a scope gets the given name, the parent scope as
    its parent, an empty instance cache, itself as the one service of its
    own name, and under every other name the very list that the parent
    has; it is marked as initialized when [makeSubScope] returns. *)
Theorem makeSubScope_inherits this name sub st s r st1 :
  st_scopes st !! this = Some s → st_scopes st !! sub = None →
  map_Forall (λ _ a, a ∈ dom (st_arrays st)) (services s) →
  scope_makeSubScope this name sub st = (r, st1) →
  ∃ s', st_scopes st1 !! sub = Some s' ∧
        scopeName s' = name ∧ parentScope s' = Some this ∧ instances s' = ∅ ∧
        services_of st1 s' name = Some [VRef sub] ∧
        (∀ service, service ≠ name →
           services s' !! service = services s !! service ∧
           services_of st1 s' service = services_of st s service) ∧
        (r = Ret sub → scopeInitialized s' = true).
Proof.
  intros Hs Hsub Hwf H.
  apply (makeSubScope_effect _ _ _ _ _ _ _ Hs Hsub) in H
    as (_ & _ & Har & b & Hsc & Hb).
  eexists. split; [by rewrite Hsc, lookup_insert_eq|]. simpl.
  split_and!; try done.
  - unfold services_of; simpl. rewrite lookup_insert_eq; simpl.
    by rewrite Har, lookup_insert_eq.
  - intros service Hne. split; [by rewrite lookup_insert_ne|].
    rewrite <- (services_of_fresh st st1 s service [VRef sub] Hwf Har).
    unfold services_of; simpl. by rewrite lookup_insert_ne.
Qed.

Lemma makeSubScope_inherits_witness :
  ∃ s', st_scopes family_state !! 1 = Some s' ∧
        scopeName s' = "sub" ∧ parentScope s' = Some 0 ∧ instances s' = ∅ ∧
        services_of family_state s' "sub" = Some [VRef 1] ∧
        services_of family_state s' "super-service" = Some [VRef 2] ∧
        scopeInitialized s' = true.
Proof.
  destruct (makeSubScope_inherits 0 "sub" 1 super_scope
              (default (Scoped "" None ∅ ∅ false) (st_scopes super_scope !! 0))
              (Ret 1) family_state)
    as (s' & Hs' & Hn & Hp & Hi & Hown & Hother & Hinit).
  - vm_compute; reflexivity.
  - vm_compute; reflexivity.
  - apply map_Forall_insert_2; [by vm_compute|].
    apply map_Forall_insert_2; [by vm_compute|]. apply map_Forall_empty.
  - vm_compute; reflexivity.
  - assert ("super-service" ≠ "sub") as Hne by discriminate.
    exists s'.
    split; [exact Hs'|]. split; [exact Hn|]. split; [exact Hp|].
    split; [exact Hi|]. split; [exact Hown|]. split; [|exact (Hinit eq_refl)].
    etrans; [exact (proj2 (Hother "super-service" Hne))|].
    vm_compute; reflexivity.
Defined.



(** *** Registrations, seen from a scope and its sub-scope *)

(** X10: a scope and its sub-scope share the lists of the services that
    the scope had when the sub-scope was made: a service registered
    later under such a name, on either of the two, is at the end of the
    list of both. *)
Theorem register_shared_with_subscope this name sub st s r st1 service l C :
  st_scopes st !! this = Some s → st_scopes st !! sub = None →
  map_Forall (λ _ a, a ∈ dom (st_arrays st)) (services s) →
  scope_makeSubScope this name sub st = (r, st1) →
  service ≠ name → services_of st s service = Some l →
  ∀ who r' st2,
    who = this ∨ who = sub →
    scope_register who service C st1 = (r', st2) →
    ∃ s2 s2',
      st_scopes st2 !! this = Some s2 ∧ st_scopes st2 !! sub = Some s2' ∧
      services_of st2 s2 service = Some (l ++ [C]) ∧
      services_of st2 s2' service = Some (l ++ [C]).
Proof.
  intros Hs Hsub Hwf H Hne Hl who r' st2 Hwho Hreg.
  apply (makeSubScope_effect _ _ _ _ _ _ _ Hs Hsub) in H
    as (_ & _ & Har & b & Hsc & _).
  unfold services_of in Hl.
  destruct (services s !! service) as [a|] eqn:Ha; [|done]. simpl in Hl.
  assert (st_arrays st1 !! a = Some l) as Hl1.
  { rewrite Har, lookup_insert_ne; [done|].
    intros <-. apply (is_fresh (dom (st_arrays st))), elem_of_dom. eauto. }
  assert (this ≠ sub) as Hts by (intros ->; congruence).
  set (s' := Scoped name (Some this)
               (<[name := fresh (dom (st_arrays st))]> (services s)) ∅ b) in *.
  assert (st_scopes st1 !! this = Some s) as Hs1
    by (by rewrite Hsc, lookup_insert_ne).
  assert (st_scopes st1 !! sub = Some s') as Hs1'
    by (by rewrite Hsc, lookup_insert_eq).
  assert (services s' !! service = Some a) as Ha'
    by (unfold s'; simpl; by rewrite lookup_insert_ne).
  assert (∃ sw, st_scopes st1 !! who = Some sw ∧ services sw !! service = Some a)
    as (sw & Hsw & Haw).
  { destruct Hwho as [-> | ->]; eauto. }
  pose proof (scope_register_effect _ _ _ _ _ _ sw Hreg Hsw) as (_ & _ & Heff).
  rewrite Haw in Heff. simpl in Heff. rewrite Hl1 in Heff. simpl in Heff.
  destruct Heff as [Hsc2 Har2].
  exists s, s'. rewrite Hsc2. split_and!; try done.
  - unfold services_of. rewrite Ha, Har2. simpl. by rewrite lookup_insert_eq.
  - unfold services_of. rewrite Ha', Har2. simpl. by rewrite lookup_insert_eq.
Qed.

Lemma register_shared_with_subscope_witness :
  let st2 := snd (scope_register 1 "super-service" (VRef 3) family_state) in
  ∃ s2 s2',
    st_scopes st2 !! 0 = Some s2 ∧ st_scopes st2 !! 1 = Some s2' ∧
    services_of st2 s2 "super-service" = Some [VRef 2; VRef 3] ∧
    services_of st2 s2' "super-service" = Some [VRef 2; VRef 3].
Proof.
  intros st2.
  refine (register_shared_with_subscope 0 "sub" 1 super_scope
            (default (Scoped "" None ∅ ∅ false) (st_scopes super_scope !! 0))
            (Ret 1) family_state "super-service" [VRef 2] (VRef 3)
            _ _ _ _ _ _ 1 (fst (scope_register 1 "super-service" (VRef 3) family_state))
            st2 _ _).
  - vm_compute; reflexivity.
  - vm_compute; reflexivity.
  - apply map_Forall_insert_2; [by vm_compute|].
    apply map_Forall_insert_2; [by vm_compute|]. apply map_Forall_empty.
  - vm_compute; reflexivity.
  - done.
  - vm_compute; reflexivity.
  - by right.
  - vm_compute; reflexivity.
Defined.

Lemma require_unregistered n sc service options st s :
  st_scopes st !! sc = Some s → services_of st s service = None →
  scope_require (S n) sc service options st = (Ret VNull, st).
Proof.
  intros Hs Hl. simpl. unfold scope_require_body.
  rewrite (bind_run _ _ _ _ _ (get_scope_run _ _ _ Hs)).
  unfold get_state at 1, bind at 1. by rewrite Hl.
Qed.

(** X11: the collection of services is per scope. A service registered
    on a scope under a name that was not in use when the sub-scope was
    made is not a service of the sub-scope, and a service registered on
    the sub-scope under such a name is not a service of the scope: on the
    other one, [require] returns [null]. *)
Theorem register_private_to_scope this name sub st s r st1 service C n options :
  st_scopes st !! this = Some s → st_scopes st !! sub = None →
  scope_makeSubScope this name sub st = (r, st1) →
  service ≠ name → services s !! service = None →
  (∀ r' st2,
     scope_register this service C st1 = (r', st2) →
     scope_require (S n) sub service options st2 = (Ret VNull, st2))
  ∧ (∀ r' st2,
       scope_register sub service C st1 = (r', st2) →
       scope_require (S n) this service options st2 = (Ret VNull, st2)).
Proof.
  intros Hs Hsub H Hne Hnone.
  apply (makeSubScope_effect _ _ _ _ _ _ _ Hs Hsub) in H
    as (_ & _ & Har & b & Hsc & _).
  assert (this ≠ sub) as Hts by (intros ->; congruence).
  set (s' := Scoped name (Some this)
               (<[name := fresh (dom (st_arrays st))]> (services s)) ∅ b) in *.
  assert (st_scopes st1 !! this = Some s) as Hs1
    by (by rewrite Hsc, lookup_insert_ne).
  assert (st_scopes st1 !! sub = Some s') as Hs1'
    by (by rewrite Hsc, lookup_insert_eq).
  assert (services s' !! service = None) as Hnone'
    by (unfold s'; simpl; by rewrite lookup_insert_ne).
  split; intros r' st2 Hreg.
  - pose proof (scope_register_effect _ _ _ _ _ _ s Hreg Hs1) as (_ & _ & Heff).
    rewrite Hnone in Heff. simpl in Heff. destruct Heff as [Hsc2 _].
    apply (require_unregistered _ _ _ _ _ s').
    + by rewrite Hsc2, lookup_insert_ne.
    + unfold services_of. by rewrite Hnone'.
  - pose proof (scope_register_effect _ _ _ _ _ _ s' Hreg Hs1') as (_ & _ & Heff).
    rewrite Hnone' in Heff. simpl in Heff. destruct Heff as [Hsc2 _].
    apply (require_unregistered _ _ _ _ _ s).
    + by rewrite Hsc2, lookup_insert_ne.
    + unfold services_of. by rewrite Hnone.
Qed.

Lemma register_private_to_scope_witness :
  let st2 := snd (scope_register 1 "sub-service" (VRef 3) family_state) in
  scope_require 1 0 "sub-service" VUndef st2 = (Ret VNull, st2).
Proof.
  intros st2.
  refine (proj2 (register_private_to_scope 0 "sub" 1 super_scope
                   (default (Scoped "" None ∅ ∅ false) (st_scopes super_scope !! 0))
                   (Ret 1) family_state "sub-service" (VRef 3) 0 VUndef _ _ _ _ _)
            (fst (scope_register 1 "sub-service" (VRef 3) family_state)) st2 _).
  - vm_compute; reflexivity.
  - vm_compute; reflexivity.
  - vm_compute; reflexivity.
  - done.
  - vm_compute; reflexivity.
  - vm_compute; reflexivity.
Defined.

(** X12: a sub-scope finds its parent under the parent's name. When the
    parent lists itself under its own name, as [scope()] registered it,
    and that name is not the name of the sub-scope, [require] of the
    parent's name on the sub-scope returns the parent scope. *)
Theorem subscope_requires_parent this pname name sub st s r st1 n options :
  st_scopes st !! this = Some s → st_scopes st !! sub = None →
  map_Forall (λ _ a, a ∈ dom (st_arrays st)) (services s) →
  services_of st s pname = Some [VRef this] → plain_host st this →
  pname ≠ name →
  scope_makeSubScope this name sub st = (r, st1) →
  ∃ st',
    scope_require (S n) sub pname options st1 = (Ret (VRef this), st').
Proof.
  intros Hs Hsub Hwf Hl (Hcons & Haff & Hprops) Hne H.
  apply (makeSubScope_effect _ _ _ _ _ _ _ Hs Hsub) in H
    as (Ho & _ & Har & b & Hsc & _).
  set (s' := Scoped name (Some this)
               (<[name := fresh (dom (st_arrays st))]> (services s)) ∅ b) in *.
  assert (st_scopes st1 !! sub = Some s') as Hs1'
    by (by rewrite Hsc, lookup_insert_eq).
  assert (services_of st1 s' pname = Some [VRef this]) as Hl1.
  { rewrite <- Hl, <- (services_of_fresh st st1 s pname [VRef sub] Hwf Har).
    unfold services_of, s'; simpl. by rewrite lookup_insert_ne. }
  assert (statics_of st1 (VRef this) = statics_of st (VRef this)) as Hst
    by (simpl; unfold obj_at; by rewrite Ho).
  destruct (require_static n sub pname options st1 s' [VRef this] (VRef this))
    as (st' & Hreq & _); try done.
  - split_and!; [done | | by rewrite Hst |].
    + unfold constructible, is_function in *. by rewrite Hst, Ho.
    + right. unfold unscoped. by rewrite Hst, Haff.
  - right. unfold cached. by rewrite Hs1'.
  - eauto.
Qed.

Lemma subscope_requires_parent_witness :
  ∃ st', scope_require 1 1 "super" VUndef family_state = (Ret (VRef 0), st').
Proof.
  refine (subscope_requires_parent 0 "super" "sub" 1 super_scope
            (default (Scoped "" None ∅ ∅ false) (st_scopes super_scope !! 0))
            (Ret 1) family_state 0 VUndef _ _ _ _ _ _ _).
  - vm_compute; reflexivity.
  - vm_compute; reflexivity.
  - apply map_Forall_insert_2; [by vm_compute|].
    apply map_Forall_insert_2; [by vm_compute|]. apply map_Forall_empty.
  - vm_compute; reflexivity.
  - split_and!; vm_compute; reflexivity.
  - done.
  - vm_compute; reflexivity.
Defined.

(** *** Initialisation *)

Lemma statics_of_objs st st' v :
  st_objs st' = st_objs st → statics_of st' v = statics_of st v.
Proof. intros H. destruct v; try done. simpl. unfold obj_at. by rewrite H. Qed.

Lemma init_events_objs st st' sc C :
  st_objs st' = st_objs st → init_events st' sc C = init_events st sc C.
Proof. intros H. unfold init_events. by rewrite (statics_of_objs _ _ _ H). Qed.

Lemma wire_events sc C l : ∀ st u st',
  forM_ (fun eventName =>
           f <- get_prop (VRef sc) "on" ;;
           st <- get_state ;;
           if is_function st f then log (EvOn sc eventName C)
           else throw TypeError) l st = (Ret u, st') →
  st' = add_events st ((λ eventName, EvOn sc eventName C) <$> l).
Proof.
  induction l as [|e l IH]; intros st u st' H; simpl in H.
  { injection H as _ <-. by rewrite add_events_nil. }
  apply bind_Ret in H as (? & st1 & H1 & H).
  apply IH in H as ->.
  apply bind_Ret in H1 as (f & ? & Hf & H1).
  assert (x0 = st) as ->.
  { unfold get_prop in Hf. destruct (st_objs st !! sc); by simplify_eq. }
  apply bind_Ret in H1 as (? & ? & [= <- <-] & H1).
  destruct (is_function st f); [|done].
  injection H1 as _ <-. simpl.
  change (State (st_objs st) (st_scopes st) (st_arrays st)
            (st_trace st ++ [EvOn sc e C]) (st_queue st))
    with (add_events st [EvOn sc e C]).
  by rewrite add_events_app.
Qed.

(** What [initializeService] does when it returns. *)
Lemma initializeService_Ret sc C st u st' :
  initializeService sc C st = (Ret u, st') →
  st' = add_events st (init_events st sc C).
Proof.
  unfold initializeService, init_events.
  destruct (truthy C) eqn:HC; simpl.
  2:{ intros [= _ <-]. by rewrite add_events_nil. }
  rewrite (bind_run _ _ _ _ _
             (get_statics_run C st ltac:(by destruct C) ltac:(by destruct C))).
  intros H. apply bind_Ret in H as (? & st1 & H1 & H).
  apply wire_events in H as ->.
  destruct (init (statics_of st C)).
  - injection H1 as _ <-.
    change (State (st_objs st) (st_scopes st) (st_arrays st)
              (st_trace st ++ [EvInit C sc]) (st_queue st))
      with (add_events st [EvInit C sc]).
    by rewrite add_events_app.
  - by injection H1 as _ <-.
Qed.

Lemma initialize_list_events this name l : ∀ st0 st u st',
  st_objs st = st_objs st0 →
  forM_ (fun ServiceClass =>
           d <- get_statics ServiceClass ;;
           match scope_prop d with
           | Some a =>
               if negb (nonempty a) || bool_decide (a = name)
               then initializeService this ServiceClass
               else ret tt
           | None => initializeService this ServiceClass
           end) l st = (Ret u, st') →
  st' = add_events st
          (C ← l;
           if initialized_by name (statics_of st0 C) then init_events st0 this C
           else []).
Proof.
  induction l as [|C l IH]; intros st0 st u st' Ho H; simpl in H.
  { injection H as _ <-. by rewrite add_events_nil. }
  apply bind_Ret in H as (? & st1 & H1 & H).
  rewrite bind_cons, <- add_events_app.
  assert (st1 = add_events st
                  (if initialized_by name (statics_of st0 C)
                   then init_events st0 this C else [])) as ->.
  { apply bind_Ret in H1 as (d & ? & [-> ->]%get_statics_Ret & H1).
    rewrite <- (statics_of_objs st0 st C Ho).
    rewrite <- (init_events_objs st0 st this C Ho).
    unfold initialized_by.
    destruct (scope_prop (statics_of st C)) as [a|].
    - destruct (negb (nonempty a) || bool_decide (a = name)).
      + by apply initializeService_Ret in H1.
      + injection H1 as _ <-. by rewrite add_events_nil.
    - by apply initializeService_Ret in H1. }
  by apply (IH st0) in H.
Qed.

Lemma initialize_map_events this s arrays kvs : ∀ st0 st u st',
  st_objs st = st_objs st0 → arrays = st_arrays st0 →
  forM_ (fun kv : string * addr =>
           match arrays !! snd kv with
           | None => ret tt
           | Some serviceClasses =>
               forM_ (fun ServiceClass =>
                        d <- get_statics ServiceClass ;;
                        match scope_prop d with
                        | Some a =>
                            if negb (nonempty a) || bool_decide (a = scopeName s)
                            then initializeService this ServiceClass
                            else ret tt
                        | None => initializeService this ServiceClass
                        end) serviceClasses
           end) kvs st = (Ret u, st') →
  st' = add_events st
          (kv ← kvs;
           C ← default [] (st_arrays st0 !! snd kv);
           if initialized_by (scopeName s) (statics_of st0 C)
           then init_events st0 this C else []).
Proof.
  induction kvs as [|kv kvs IH]; intros st0 st u st' Ho -> H; simpl in H.
  { injection H as _ <-. by rewrite add_events_nil. }
  apply bind_Ret in H as (? & st1 & H1 & H).
  rewrite bind_cons, <- add_events_app.
  assert (st1 = add_events st
                  (C ← default [] (st_arrays st0 !! snd kv);
                   if initialized_by (scopeName s) (statics_of st0 C)
                   then init_events st0 this C else [])) as ->.
  { destruct (st_arrays st0 !! snd kv) as [l|]; simpl.
    - by apply (initialize_list_events _ _ _ st0) in H1.
    - injection H1 as _ <-. by rewrite add_events_nil. }
  by apply (IH st0) in H.
Qed.

(** The trace of [initialize]. *)
Lemma scope_initialize_Ret this st s x st' :
  st_scopes st !! this = Some s →
  scope_initialize this st = (Ret x, st') →
  st' = State (st_objs st) (<[this := with_initialized s]> (st_scopes st))
          (st_arrays st) (st_trace st ++ initialize_events st this s)
          (st_queue st).
Proof.
  intros Hs. unfold scope_initialize. unfold get_state at 1, bind at 1.
  rewrite Hs. intros H. apply bind_Ret in H as (u & st1 & Hloop & H).
  apply (initialize_map_events _ _ _ _ st) in Hloop as ->; [|done|done].
  set (st1 := add_events st _) in H.
  rewrite (bind_run _ _ _ _ _ (get_scope_run this st1 s Hs)) in H.
  by injection H as _ <-.
Qed.

Lemma elem_of_init_events st sc C e :
  e ∈ init_events st sc C ↔
  (e = EvInit C sc ∧ init (statics_of st C) = true)
  ∨ (∃ eventName, e = EvOn sc eventName C ∧ eventName ∈ on (statics_of st C)).
Proof.
  unfold init_events. destruct (truthy C) eqn:HC.
  - rewrite elem_of_app, list_elem_of_fmap.
    destruct (init (statics_of st C)).
    + rewrite list_elem_of_singleton.
      split; (intros [H|H]; [left|by right]); [done | by destruct H].
    + rewrite elem_of_nil.
      split; (intros [H|H]; [|by right]); [done | by destruct H].
  - assert (statics_of st C = no_statics) as -> by (by destruct C).
    simpl. rewrite elem_of_nil. split; [done|].
    intros [[_ ?]|(? & _ & ?%elem_of_nil)]; done.
Qed.

Lemma elem_of_initialize_events st this s e :
  e ∈ initialize_events st this s ↔
  ∃ name l C,
    services_of st s name = Some l ∧ C ∈ l ∧
    initialized_by (scopeName s) (statics_of st C) = true ∧
    e ∈ init_events st this C.
Proof.
  unfold initialize_events. rewrite list_elem_of_bind. split.
  - intros ([name a] & He & Hkv%elem_of_map_to_list). simpl in He.
    apply list_elem_of_bind in He as (C & He & HC).
    destruct (st_arrays st !! a) as [l|] eqn:Ha; [|by apply elem_of_nil in HC].
    simpl in HC.
    destruct (initialized_by (scopeName s) (statics_of st C)) eqn:Hi;
      [|by apply elem_of_nil in He].
    exists name, l, C. split_and!; try done.
    unfold services_of. by rewrite Hkv.
  - intros (name & l & C & Hl & HC & Hi & He).
    unfold services_of in Hl.
    destruct (services s !! name) as [a|] eqn:Ha; [|done]. simpl in Hl.
    exists (name, a). split; [|by apply elem_of_map_to_list].
    apply list_elem_of_bind. exists C. simpl. rewrite Hl, Hi. done.
Qed.

(** X13: what [initialize] initializes. When [initialize] returns, the
    scope is marked as initialized, the [init] hook has been called, with
    the scope, for the services in the lists of the scope that have one
    and that name no scope or this one, and for no other; the handlers of
    the events of [on] have been wired for the same services; and nothing
    else has changed. It does so whether the scope was initialized before
    or not. *)
Theorem initialize_inits this st s x st' :
  st_scopes st !! this = Some s →
  scope_initialize this st = (Ret x, st') →
  ∃ evs,
    st' = State (st_objs st) (<[this := with_initialized s]> (st_scopes st))
            (st_arrays st) (st_trace st ++ evs) (st_queue st) ∧
    (∀ C sc,
       EvInit C sc ∈ evs ↔
       sc = this ∧ init (statics_of st C) = true ∧
       initialized_by (scopeName s) (statics_of st C) = true ∧
       ∃ name l, services_of st s name = Some l ∧ C ∈ l) ∧
    (∀ C sc eventName,
       EvOn sc eventName C ∈ evs ↔
       sc = this ∧ eventName ∈ on (statics_of st C) ∧
       initialized_by (scopeName s) (statics_of st C) = true ∧
       ∃ name l, services_of st s name = Some l ∧ C ∈ l).
Proof.
  intros Hs H. exists (initialize_events st this s).
  split; [by eapply scope_initialize_Ret|]. split.
  - intros C sc. rewrite elem_of_initialize_events. split.
    + intros (name & l & C' & Hl & HC & Hi & He).
      apply elem_of_init_events in He as [[[= <- <-] Hinit]|(? & ? & _)]; [|done].
      eauto 10.
    + intros (-> & Hinit & Hi & name & l & Hl & HC).
      exists name, l, C. split_and!; try done.
      apply elem_of_init_events. by left.
  - intros C sc eventName. rewrite elem_of_initialize_events. split.
    + intros (name & l & C' & Hl & HC & Hi & He).
      apply elem_of_init_events in He as [[? _]|(e & [= <- <- <-] & He)]; [done|].
      eauto 10.
    + intros (-> & Hon & Hi & name & l & Hl & HC).
      exists name, l, C. split_and!; try done.
      apply elem_of_init_events. right. eauto.
Qed.

Lemma initialize_inits_witness :
  ∃ evs,
    st_trace (snd (scope_initialize 1 init_family)) = st_trace init_family ++ evs ∧
    EvInit (VRef 3) 1 ∈ evs ∧ EvInit (VRef 2) 1 ∉ evs.
Proof.
  pose (s := default (Scoped "" None ∅ ∅ false) (st_scopes init_family !! 1)).
  destruct (initialize_inits 1 init_family s
              1 (snd (scope_initialize 1 init_family)))
    as (evs & Hst & Hinit & _).
  - vm_compute; reflexivity.
  - vm_compute; reflexivity.
  - exists evs. split; [by rewrite Hst|]. split.
    + apply Hinit. split; [reflexivity|]. split; [vm_compute; reflexivity|].
      split; [vm_compute; reflexivity|].
      exists "service", [VRef 2; VRef 3]. split; [vm_compute; reflexivity|].
      apply list_elem_of_further, list_elem_of_here.
    + intros (_ & _ & Hi & _)%Hinit. vm_compute in Hi. discriminate Hi.
Defined.

(** *** Registration and initialisation *)

Lemma scope_register_Ret this name C st s x st' :
  st_scopes st !! this = Some s →
  scope_register this name C st = (Ret x, st') →
  x = this ∧
  st_trace st' = st_trace st ++
    (if scopeInitialized s && initialized_late (scopeName s) (statics_of st C)
     then init_events st this C else []).
Proof.
  intros Hs H. unfold scope_register in H.
  rewrite (bind_run _ _ _ _ _ (get_scope_run _ _ _ Hs)) in H.
  unfold get_state at 1, bind at 1 in H.
  apply bind_Ret in H as (u & st1 & Hput & H).
  assert (st_objs st1 = st_objs st ∧ st_trace st1 = st_trace st) as [Ho Ht].
  { destruct (services s !! name ≫= (λ a, (a,.) <$> st_arrays st !! a))
      as [[a l]|].
    - by injection Hput as _ <-.
    - unfold bind, new_array, put_scope in Hput. by injection Hput as _ <-. }
  apply bind_Ret in H as (u' & st2 & Hinit & [= <- <-]). split; [done|].
  rewrite <- Ht, <- (statics_of_objs st st1 C Ho), <- (init_events_objs st st1 this C Ho).
  destruct (scopeInitialized s); simpl.
  2:{ injection Hinit as _ <-. by rewrite app_nil_r. }
  apply bind_Ret in Hinit as (d & ? & [-> ->]%get_statics_Ret & Hinit).
  unfold initialized_late.
  destruct (scope_prop (statics_of st1 C)) as [a|].
  - destruct (bool_decide (a = scopeName s)).
    + by apply initializeService_Ret in Hinit as ->.
    + injection Hinit as _ <-. by rewrite app_nil_r.
  - by apply initializeService_Ret in Hinit as ->.
Qed.



(** X15: [initialize] and [register] do not test the [scope] property
    alike. A service whose [scope] property is the empty string is
    initialized by [initialize], which tests that the property is falsy,
    when it is in a list of the scope; registered on the initialized
    scope, whose name is not empty, it is not initialized: [register]
    tests that the service has no such property of its own. *)
Theorem empty_scope_property_registered_late this name C st s x st1 y st2 :
  st_scopes st !! this = Some s →
  scopeInitialized s = true → nonempty (scopeName s) = true →
  scope_prop (statics_of st C) = Some "" → init (statics_of st C) = true →
  scope_register this name C st = (Ret x, st1) →
  st_trace st1 = st_trace st
  ∧ (scope_initialize this st1 = (Ret y, st2) →
     ∃ evs, st_trace st2 = st_trace st1 ++ evs ∧ EvInit C this ∈ evs).
Proof.
  intros Hs Hi Hname Hprop Hinit H.
  pose proof (scope_register_effect _ _ _ _ _ _ s H Hs) as (Ho & _ & Heff).
  apply (scope_register_Ret _ _ _ _ _ _ _ Hs) in H as [_ Ht].
  assert (initialized_late (scopeName s) (statics_of st C) = false) as Hl.
  { unfold initialized_late. rewrite Hprop. apply bool_decide_eq_false.
    intros Heq. rewrite <- Heq in Hname. done. }
  rewrite Hi, Hl in Ht. simpl in Ht. rewrite app_nil_r in Ht.
  split; [done|]. intros H2.
  assert (∃ s1 l1, st_scopes st1 !! this = Some s1 ∧ scopeName s1 = scopeName s ∧
                   services_of st1 s1 name = Some l1 ∧ C ∈ l1)
    as (s1 & l1 & Hs1 & Hn1 & Hl1 & HC).
  { destruct (services s !! name ≫= (λ a, (a,.) <$> st_arrays st !! a))
      as [[a l0]|] eqn:E.
    - destruct Heff as [Hsc Har]. exists s, (l0 ++ [C]).
      rewrite Hsc. split_and!; try done.
      + unfold services_of. rewrite Har.
        destruct (services s !! name) as [a'|]; [|done]. simpl in E |- *.
        destruct (st_arrays st !! a'); [|done]. simpl in E.
        injection E as -> ->. by rewrite lookup_insert_eq.
      + apply elem_of_app. right. apply list_elem_of_here.
    - destruct Heff as [Hsc Har]. eexists _, [C].
      rewrite Hsc, lookup_insert_eq. split_and!; try done.
      + unfold services_of; simpl. rewrite lookup_insert_eq; simpl.
        by rewrite Har, lookup_insert_eq.
      + apply list_elem_of_here. }
  apply (scope_initialize_Ret _ _ _ _ _ Hs1) in H2 as ->. simpl.
  eexists. split; [done|].
  apply elem_of_initialize_events. exists name, l1, C.
  rewrite (statics_of_objs st st1 C Ho). split_and!; try done.
  - unfold initialized_by. by rewrite Hprop.
  - apply elem_of_init_events. left.
    by rewrite (statics_of_objs st st1 C Ho).
Qed.

Lemma empty_scope_property_registered_late_witness :
  let st1 := snd (scope_register 0 "late" (VRef 4) init_scope) in
  st_trace st1 = st_trace init_scope ∧
  ∃ evs, st_trace (snd (scope_initialize 0 st1)) = st_trace st1 ++ evs ∧
         EvInit (VRef 4) 0 ∈ evs.
Proof.
  intros st1.
  pose (s := default (Scoped "" None ∅ ∅ false) (st_scopes init_scope !! 0)).
  destruct (empty_scope_property_registered_late 0 "late" (VRef 4) init_scope s
              0 st1 0 (snd (scope_initialize 0 st1))) as [H1 H2].
  - vm_compute; reflexivity.
  - vm_compute; reflexivity.
  - vm_compute; reflexivity.
  - vm_compute; reflexivity.
  - vm_compute; reflexivity.
  - vm_compute; reflexivity.
  - split; [exact H1|]. apply H2. vm_compute; reflexivity.
Defined.

(** *** Chains that stop *)

Section LifecycleStops.
Variables (methodArray : list step) (options : value) (done : nat).

Lemma executeNthStep_fails n s st err :
  methodArray !! n = Some s → step_answers st options s err →
  truthy err = true →
  executeNthStep methodArray options done n st
  = (Ret tt, add_events st (step_call options s ++ [EvDone done err])).
Proof.
  intros Hn (f & b & Hf & Hb & Hr) Ht.
  unfold executeNthStep. rewrite Hn. unfold step_call. rewrite Hf.
  rewrite (bind_run _ _ _ _ _ (call_function_answers _ _ _ _ _ Hb)).
  rewrite Hr. unfold nextStep. rewrite Ht. unfold log, add_events; simpl.
  by rewrite <- app_assoc.
Qed.

Lemma executeNthStep_silent n s st :
  methodArray !! n = Some s → step_silent st options s →
  executeNthStep methodArray options done n st
  = (Ret tt, add_events st (step_call options s)).
Proof.
  intros Hn (f & b & Hf & Hb & Hr).
  unfold executeNthStep. rewrite Hn. unfold step_call. rewrite Hf.
  rewrite (bind_run _ _ _ _ _ (call_function_answers _ _ _ _ _ Hb)).
  by rewrite Hr.
Qed.

(** The steps [pre] pass; the chain ends with what the step after them
    does, when that step queues nothing. *)
Lemma steps_until pre : ∀ before st k s post evs,
  methodArray = before ++ pre ++ s :: post → st_queue st = [] →
  Forall (step_passes st options) pre →
  (∀ st', st_objs st' = st_objs st →
          executeNthStep methodArray options done (length (before ++ pre)) st'
          = (Ret tt, add_events st' evs)) →
  (length pre ≤ k)%nat →
  (executeNthStep methodArray options done (length before) ;;; run_ticks k) st
  = (Ret tt, add_events st (flat_map (step_call options) pre ++ evs)).
Proof.
  induction pre as [|s0 pre IH]; intros before st k s post evs Hi Hq Hp Hs Hk.
  - unfold bind at 1. rewrite app_nil_r in Hs. rewrite (Hs st eq_refl).
    by rewrite run_ticks_idle.
  - apply Forall_cons in Hp as [Hp Hrest].
    assert (methodArray !! length before = Some s0) as Hn.
    { rewrite Hi, lookup_app_r by lia. by replace (_ - _) with 0 by lia. }
    set (st1 := add_events st (step_call options s0)).
    assert (st_objs st1 = st_objs st) as Ho by done.
    assert (st_queue st1 = []) as Hq1 by done.
    change (flat_map (step_call options) (s0 :: pre))
      with (step_call options s0 ++ flat_map (step_call options) pre).
    rewrite <- app_assoc, <- add_events_app. fold st1.
    unfold bind at 1. rewrite (executeNthStep_passes _ _ _ _ _ _ Hn Hp). fold st1.
    destruct k as [|k]; [simpl in Hk; lia|].
    pose proof (nextStep_tick methodArray options done (length before) st1 k
                  ltac:(rewrite Hi, !length_app; simpl; lia) Hq1) as Htick.
    unfold bind at 1 in Htick. rewrite Htick.
    replace (length before + 1) with (length (before ++ [s0]))
      by (rewrite length_app; simpl; lia).
    rewrite (IH (before ++ [s0]) st1 k s post evs).
    + done.
    + by rewrite Hi, <- app_assoc.
    + done.
    + eapply Forall_impl; [exact Hrest|]. intros x. by apply step_passes_objs.
    + intros st' Ho'. rewrite <- app_assoc. apply Hs. congruence.
    + simpl in *. lia.
Qed.
End LifecycleStops.

Lemma step_answers_objs st st' options s err :
  st_objs st' = st_objs st → step_answers st options s err →
  step_answers st' options s err.
Proof. intros Ho (f & b & Hf & Hb & Hr). exists f, b. by rewrite Ho. Qed.

Lemma step_silent_objs st st' options s :
  st_objs st' = st_objs st → step_silent st options s → step_silent st' options s.
Proof. intros Ho (f & b & Hf & Hb & Hr). exists f, b. by rewrite Ho. Qed.

(** X16: a lifecycle stops at the first error. When the steps before a
    step succeed and that step passes a truthy error to its callback,
    the lifecycle calls the steps up to that one in order, then [done]
    with the error; no later step is called, however long the event loop
    runs, and [done] is called once. *)
Theorem lifecycle_stops_at_error pre s post options done st err k :
  st_queue st = [] →
  Forall (step_passes st options) pre →
  step_answers st options s err → truthy err = true →
  (length pre ≤ k)%nat →
  (lifecycle (pre ++ s :: post) options done ;;; run_ticks k) st
  = (Ret tt, add_events st (flat_map (step_call options) pre
                            ++ step_call options s ++ [EvDone done err])).
Proof.
  intros Hq Hp Ha Ht Hk. unfold lifecycle.
  rewrite decide_True by (rewrite length_app; simpl; lia).
  apply (steps_until (pre ++ s :: post) options done pre [] st k s post); try done.
  intros st' Ho. apply executeNthStep_fails; [|by eapply step_answers_objs|done].
  simpl. rewrite lookup_app_r by lia. by replace (_ - _) with 0 by lia.
Qed.

Lemma lifecycle_stops_at_error_witness :
  (lifecycle [(VRef 6, VUndef); (VRef 7, VUndef); (VRef 8, VUndef)] (VRef 9) 0 ;;;
   run_ticks 5) chain_heap
  = (Ret tt, add_events chain_heap
               [EvCall 6 VUndef (VRef 9); EvCall 7 VUndef (VRef 9);
                EvDone 0 (VStr "failed")]).
Proof.
  refine (lifecycle_stops_at_error [(VRef 6, VUndef)] (VRef 7, VUndef)
            [(VRef 8, VUndef)] (VRef 9) 0 chain_heap (VStr "failed") 5 _ _ _ _ _).
  - reflexivity.
  - apply Forall_cons; split; [|by constructor].
    exists VUndef. split; [|reflexivity].
    exists 6, (fun _ _ => Calls VUndef). split_and!; vm_compute; reflexivity.
  - exists 7, (fun _ _ => Calls (VStr "failed")). split_and!; vm_compute; reflexivity.
  - reflexivity.
  - simpl; lia.
Defined.

(** X17: a step that never calls back stalls the lifecycle. When the
    steps before a step succeed and that step does not call its
    callback, the steps up to that one are called and nothing more
    happens: no later step is called, [done] is never called, and the
    event loop is idle. *)
Theorem lifecycle_stalls pre s post options done st k :
  st_queue st = [] →
  Forall (step_passes st options) pre →
  step_silent st options s →
  (length pre ≤ k)%nat →
  (lifecycle (pre ++ s :: post) options done ;;; run_ticks k) st
  = (Ret tt, add_events st (flat_map (step_call options) (pre ++ [s])))
  ∧ st_queue (add_events st (flat_map (step_call options) (pre ++ [s]))) = []
  ∧ ∀ err, EvDone done err ∉ flat_map (step_call options) (pre ++ [s]).
Proof.
  intros Hq Hp Hs Hk. split_and!; [|done|].
  - unfold lifecycle.
    rewrite decide_True by (rewrite length_app; simpl; lia).
    rewrite flat_map_app. simpl. rewrite app_nil_r.
    apply (steps_until (pre ++ s :: post) options done pre [] st k s post);
      try done.
    intros st' Ho. apply executeNthStep_silent; [|by eapply step_silent_objs].
    simpl. rewrite lookup_app_r by lia. by replace (_ - _) with 0 by lia.
  - intros err Hin. apply list_elem_of_In, in_flat_map in Hin as (x & _ & Hin).
    unfold step_call in Hin. destruct (fst x); try done.
    by destruct Hin as [?|[]].
Qed.

Lemma lifecycle_stalls_witness :
  (lifecycle [(VRef 5, VUndef); (VRef 3, VUndef); (VRef 4, VUndef)] VUndef 0 ;;;
   run_ticks 5) stall_heap
  = (Ret tt, add_events stall_heap [EvCall 5 VUndef VUndef; EvCall 3 VUndef VUndef]).
Proof.
  refine (proj1 (lifecycle_stalls [(VRef 5, VUndef)] (VRef 3, VUndef)
                   [(VRef 4, VUndef)] VUndef 0 stall_heap 5 _ _ _ _)).
  - reflexivity.
  - apply Forall_cons; split; [|by constructor].
    exists VUndef. split; [|reflexivity].
    exists 5, (fun _ _ => Calls VUndef). split_and!; vm_compute; reflexivity.
  - exists 3, (fun _ _ => Silent). split_and!; vm_compute; reflexivity.
  - simpl; lia.
Defined.

Section CallServiceStalls.
Variables (insts : list value) (method : string) (options : value) (done : nat).

Lemma callNthService_silent n service st f :
  insts !! n = Some service → keeps_silent st service method options f →
  callNthService insts method options done n st
  = (Ret tt, add_events st [EvCall f service options]).
Proof.
  intros Hn (Hm & b & Hb & Hr). unfold callNthService, array_get.
  rewrite Hn. change (default VUndef (Some service)) with service.
  rewrite (bind_run _ _ _ _ _ Hm). change (truthy (VRef f)) with true. cbv iota.
  rewrite (bind_run _ _ _ _ _ (call_function_answers _ _ _ _ _ Hb)).
  by rewrite Hr.
Qed.

Lemma chain_stalls pre : ∀ before st k service post f,
  insts = before ++ pre ++ service :: post → st_queue st = [] →
  Forall (λ service, passes st service method options) pre →
  keeps_silent st service method options f →
  (length pre ≤ k)%nat →
  (callNthService insts method options done (length before) ;;; run_ticks k) st
  = (Ret tt, add_events st (calls_of st method options pre
                            ++ [EvCall f service options])).
Proof.
  induction pre as [|service0 pre IH];
    intros before st k service post f Hi Hq Hp Hs Hk.
  - assert (insts !! length before = Some service) as Hn.
    { rewrite Hi, lookup_app_r by lia. by replace (_ - _) with 0 by lia. }
    unfold bind at 1. rewrite (callNthService_silent _ _ _ _ Hn Hs).
    by rewrite run_ticks_idle.
  - apply Forall_cons in Hp as [Hp Hrest].
    assert (insts !! length before = Some service0) as Hn.
    { rewrite Hi, lookup_app_r by lia. by replace (_ - _) with 0 by lia. }
    set (st1 := add_events st (calls_of st method options [service0])).
    assert (st_objs st1 = st_objs st) as Ho by done.
    assert (st_queue st1 = []) as Hq1 by done.
    rewrite calls_of_cons, <- app_assoc, <- add_events_app. fold st1.
    unfold bind at 1.
    rewrite (callNthService_passes insts method options done _ _ _ Hn Hp). fold st1.
    destruct k as [|k]; [simpl in Hk; lia|].
    pose proof (nextService_tick insts method options done (length before) st1 k
                  ltac:(rewrite Hi, !length_app; simpl; lia) Hq1) as Htick.
    unfold bind at 1 in Htick. rewrite Htick.
    replace (length before + 1) with (length (before ++ [service0]))
      by (rewrite length_app; simpl; lia).
    rewrite (IH (before ++ [service0]) st1 k service post f).
    + by rewrite (calls_of_objs st st1).
    + by rewrite Hi, <- app_assoc.
    + done.
    + eapply Forall_impl; [exact Hrest|]. intros x. by apply passes_objs.
    + destruct Hs as (Hm & b & Hb & Hr). split.
      * by rewrite (get_prop_objs _ _ st st1 Ho), Hm.
      * exists b. by rewrite Ho.
    + simpl in *. lia.
Qed.
End CallServiceStalls.

Lemma calls_of_no_done st method options insts done err :
  EvDone done err ∉ calls_of st method options insts.
Proof.
  intros Hin. apply list_elem_of_In, in_flat_map in Hin as (x & _ & Hin).
  destruct (fst (get_prop x method st)) as [[]|]; try done.
  by destruct Hin as [?|[]].
Qed.

(** X18: a method that never calls back stalls [callService]. When the
    instances before an instance pass and the method of that instance
    does not call its callback, the methods up to that one are called
    and nothing more happens: no method of a later instance is called,
    [done] is never called, and the event loop is idle. *)
Theorem callService_stalls fuel this service method options done st insts st1
    pre s post f k :
  st_queue st = [] →
  scope_getServices fuel this service VUndef st = (Ret insts, st1) →
  insts = pre ++ s :: post →
  Forall (λ s, passes st1 s method options) pre →
  keeps_silent st1 s method options f →
  (length pre ≤ k)%nat →
  (scope_callService fuel this service method options done ;;; run_ticks k) st
  = (Ret tt, add_events st1 (calls_of st1 method options pre
                             ++ [EvCall f s options]))
  ∧ (∀ err, EvDone done err ∉ calls_of st1 method options pre
                               ++ [EvCall f s options])
  ∧ st_queue (add_events st1 (calls_of st1 method options pre
                              ++ [EvCall f s options])) = [].
Proof.
  intros Hq Hget Hi Hp Hs Hk.
  assert (st_queue st1 = []) as Hq1.
  { rewrite <- Hq. eapply ext_queue, framed_scope_getServices, Hget. }
  split_and!; [| |done].
  - subst insts. unfold scope_callService. unfold bind at 1.
    rewrite (bind_run _ _ _ _ _ Hget).
    rewrite decide_True by (rewrite length_app; simpl; lia).
    pose proof (bind_ret_skip
                  (callNthService (pre ++ s :: post) method options done 0)
                  this (run_ticks k) st1) as Hskip.
    unfold bind at 1 in Hskip. rewrite Hskip.
    by apply (chain_stalls (pre ++ s :: post) method options done pre []
                st1 k s post f).
  - intros err [Hin|Hin]%elem_of_app.
    + by apply calls_of_no_done in Hin.
    + by apply list_elem_of_singleton in Hin.
Qed.

Lemma callService_stalls_witness :
  st_trace (snd ((scope_callService 2 0 "service" "method" VUndef 0 ;;;
                  run_ticks 5) stall_scope))
  = [EvCall 4 (VRef 6) VUndef; EvCall 3 (VRef 7) VUndef].
Proof.
  pose (st1 := snd (scope_getServices 2 0 "service" VUndef stall_scope)).
  destruct (callService_stalls 2 0 "service" "method" VUndef 0 stall_scope
              [VRef 6; VRef 7; VRef 8] st1 [VRef 6] (VRef 7) [VRef 8] 3 5)
    as [H _].
  - reflexivity.
  - vm_compute; reflexivity.
  - reflexivity.
  - apply Forall_cons; split; [|by constructor]. right.
    exists 4, VUndef. split; [|reflexivity]. split; [vm_compute; reflexivity|].
    exists (fun _ _ => Calls VUndef). split; vm_compute; reflexivity.
  - split; [vm_compute; reflexivity|].
    exists (fun _ _ => Silent). split; vm_compute; reflexivity.
  - simpl; lia.
  - rewrite H. vm_compute; reflexivity.
Defined.

(** *** The walk up the chain of parents *)

Lemma ancestor_add scopes i m c x :
  ancestor scopes i c = Some x →
  ancestor scopes (i + m) c = ancestor scopes m x.
Proof.
  revert c. induction i as [|i IH]; intros c; simpl.
  - by intros [= ->].
  - destruct (parent_of scopes c) as [p|]; [|done]. simpl. apply IH.
Qed.

Lemma passed_by_shift scopes a c s p j :
  scopes !! c = Some s → parentScope s = Some p →
  passed_by scopes a (ancestor scopes (S j) c)
  = passed_by scopes a (ancestor scopes j p).
Proof. intros Hc Hp. simpl. unfold parent_of. rewrite Hc. simpl. by rewrite Hp. Qed.

(** What each outcome of the loop says of the chain. *)
Lemma walk_spec n scopes a : ∀ c,
  match walk n scopes (Some c) a with
  | Ret (Some d) => ∃ k, (k ≤ n)%nat ∧ nearest scopes c a k d
  | Ret None =>
      ∃ k, (k ≤ S n)%nat ∧ chain_ends scopes (ancestor scopes k c) ∧
           ∀ j, j < k → passed_by scopes a (ancestor scopes j c)
  | Throw e =>
      e = Diverges ∧ ∀ j, (j ≤ n)%nat → passed_by scopes a (ancestor scopes j c)
  end.
Proof.
  induction n as [|n IH]; intros c; simpl.
  - destruct (scopes !! c) as [s|] eqn:Hc.
    + case_decide as Hn.
      * exists 0. split; [lia|]. split_and!; [done | by exists s | intros j; lia].
      * split; [done|]. intros j Hj. assert (j = 0) as -> by lia.
        by exists c, s.
    + exists 0. split; [lia|]. split; [right; by exists c | intros j; lia].
  - destruct (scopes !! c) as [s|] eqn:Hc.
    + case_decide as Hn.
      * exists 0. split; [lia|]. split_and!; [done | by exists s | intros j; lia].
      * assert (passed_by scopes a (ancestor scopes 0 c)) as H0 by (by exists c, s).
        destruct (parentScope s) as [p|] eqn:Hp.
        -- specialize (IH p).
           assert (∀ k, (∀ j, j < k → passed_by scopes a (ancestor scopes j p)) →
                        ∀ j, j < S k → passed_by scopes a (ancestor scopes j c))
             as Hshift.
           { intros k Hk [|j] Hj; [done|].
             rewrite (passed_by_shift _ _ _ _ _ _ Hc Hp). apply Hk. lia. }
           assert (∀ k, ancestor scopes (S k) c = ancestor scopes k p) as Hanc.
           { intros k. simpl. unfold parent_of. rewrite Hc. simpl. by rewrite Hp. }
           destruct (walk n scopes (Some p) a) as [[d|]|e].
           ++ destruct IH as (k & Hk & Hd & Hnamed & Hpass).
              exists (S k). split; [lia|]. split_and!; [by rewrite Hanc | done |].
              by apply Hshift.
           ++ destruct IH as (k & Hk & Hend & Hpass).
              exists (S k). split; [lia|]. split; [by rewrite Hanc|].
              by apply Hshift.
           ++ destruct IH as [-> Hpass]. split; [done|].
              intros j Hj. apply (Hshift (S n)); [|lia]. intros j' Hj'. apply Hpass. lia.
        -- assert (walk n scopes None a = Ret None) as -> by (by destruct n).
           exists 1. split; [lia|]. split.
           ++ left. simpl. unfold parent_of. rewrite Hc. simpl. by rewrite Hp.
           ++ intros j Hj. by assert (j = 0) as -> by lia.
    + exists 0. split; [lia|]. split; [right; by exists c | intros j; lia].
Qed.

Lemma repeated_element (l : list addr) :
  ¬ NoDup l → ∃ i j x, i < j ∧ l !! i = Some x ∧ l !! j = Some x.
Proof.
  induction l as [|x l IH]; intros Hdup.
  { destruct Hdup. constructor. }
  destruct (decide (x ∈ l)) as [Hin|Hnin].
  - apply list_elem_of_lookup in Hin as [j Hj].
    exists 0, (S j), x. split_and!; [lia | done | done].
  - destruct IH as (i & j & y & Hij & Hi & Hj).
    { intros Hnd. apply Hdup. by constructor. }
    exists (S i), (S j), y. split_and!; [lia | done | done].
Qed.

(** More scopes in a row than there are scopes: one comes twice. *)
Lemma chain_repeats scopes a c n :
  (size scopes ≤ n)%nat →
  (∀ j, (j ≤ n)%nat → passed_by scopes a (ancestor scopes j c)) →
  ∃ i j x, i < j ∧ (j ≤ n)%nat ∧
           ancestor scopes i c = Some x ∧ ancestor scopes j c = Some x.
Proof.
  intros Hsize Hpass.
  set (l := (λ j, default 0 (ancestor scopes j c)) <$> seq 0 (S n)).
  assert (∀ j, (j ≤ n)%nat → l !! j = Some (default 0 (ancestor scopes j c))) as Hl.
  { intros j Hj. unfold l. rewrite list_lookup_fmap, lookup_seq_lt by lia. done. }
  assert (length l = S n) as Hlen by (unfold l; by rewrite length_fmap, length_seq).
  destruct (repeated_element l) as (i & j & x & Hij & Hi & Hj).
  { intros Hnd.
    assert (l ⊆+ elements (dom scopes)) as Hsub.
    { apply NoDup_submseteq; [done|]. intros y Hy.
      apply list_elem_of_lookup in Hy as [j Hj].
      assert ((j ≤ n)%nat) as Hjn.
      { apply lookup_lt_Some in Hj. lia. }
      rewrite (Hl j Hjn) in Hj. injection Hj as <-.
      destruct (Hpass j Hjn) as (c' & s & -> & Hs & _). simpl.
      apply elem_of_elements, elem_of_dom. eauto. }
    apply submseteq_length in Hsub.
    rewrite Hlen in Hsub.
    change (length (elements (dom scopes))) with (size (dom scopes)) in Hsub.
    rewrite size_dom in Hsub. lia. }
  assert ((j ≤ n)%nat) as Hjn by (apply lookup_lt_Some in Hj; lia).
  assert ((i ≤ n)%nat) as Hin by lia.
  rewrite (Hl i Hin) in Hi. rewrite (Hl j Hjn) in Hj.
  destruct (Hpass i Hin) as (ci & si & Hci & _).
  destruct (Hpass j Hjn) as (cj & sj & Hcj & _).
  rewrite Hci in Hi. rewrite Hcj in Hj. simpl in Hi, Hj.
  exists i, j, x. split_and!; [done | done | congruence | congruence].
Qed.

Lemma passed_by_not_named scopes a c :
  passed_by scopes a (Some c) → named scopes a c → False.
Proof. intros (c' & s & [= <-] & Hs & Hn) (s' & Hs' & Hn'). congruence. Qed.

Lemma passed_by_not_ended scopes a c :
  passed_by scopes a c → chain_ends scopes c → False.
Proof.
  intros (c' & s & -> & Hs & _) [?|(c'' & [= <-] & Hs')]; [done | congruence].
Qed.

(** X19: the walk finds the nearest scope of the name. From a scope or
    any object, the loop of [getSingleton] that follows [parentScope]
    ends on a scope [d] if and only if [d] is the scope of that name
    nearest to the start on the chain of parents: the start itself when
    it has the name, and otherwise the first of its ancestors that has
    it, all objects before it being scopes with another name. The loop
    ends there however long the chain before it is. *)
Theorem walk_finds_nearest st sc a d :
  owner_of st sc a = Ret (Some d) ↔ ∃ k, nearest (st_scopes st) sc a k d.
Proof.
  unfold owner_of. pose proof (walk_spec (size (st_scopes st)) (st_scopes st) a sc) as H.
  split.
  - intros E. rewrite E in H. destruct H as (k & _ & ?). by exists k.
  - intros (k & Hk & Hnamed & Hpass).
    destruct (walk _ _ _ _) as [[d'|]|e].
    + destruct H as (k' & _ & Hk' & Hnamed' & Hpass').
      destruct (decide (k = k')) as [->|Hne]; [congruence|]. exfalso.
      destruct (decide (k < k')).
      * specialize (Hpass' k ltac:(lia)). rewrite Hk in Hpass'.
        by eapply passed_by_not_named.
      * specialize (Hpass k' ltac:(lia)). rewrite Hk' in Hpass.
        by eapply passed_by_not_named.
    + exfalso. destruct H as (k' & _ & Hend & Hpass').
      destruct (decide (k' < k)).
      * by eapply passed_by_not_ended; [apply Hpass|].
      * destruct (decide (k' = k)) as [->|].
        -- rewrite Hk in Hend. destruct Hnamed as (s & Hs & _).
           destruct Hend as [?|(? & [= <-] & ?)]; [done | congruence].
        -- specialize (Hpass' k ltac:(lia)). rewrite Hk in Hpass'.
           by eapply passed_by_not_named.
    + exfalso. destruct H as [_ Hpass'].
      destruct (decide ((k ≤ size (st_scopes st))%nat)).
      { specialize (Hpass' k ltac:(lia)). rewrite Hk in Hpass'.
        by eapply passed_by_not_named. }
      destruct (chain_repeats (st_scopes st) a sc (size (st_scopes st))
                  ltac:(lia) Hpass') as (i & j & x & Hij & Hj & Hi & Hjx).
      (* the chain is periodic from [i]: the scope at [k] was met before *)
      pose proof (ancestor_add _ i (k - j) sc x Hi) as Hi'.
      pose proof (ancestor_add _ j (k - j) sc x Hjx) as Hj'.
      replace (j + (k - j)) with k in Hj' by lia.
      rewrite <- Hi', Hk in Hj'.
      specialize (Hpass (i + (k - j)) ltac:(lia)). rewrite <- Hj' in Hpass.
      by eapply passed_by_not_named.
Qed.

(** X20: the walk ends unless the chain of parents is a cycle. When the
    loop does not end, the chain of parents of the start comes back to a
    scope it has left, and no scope on it has the name; on every other
    chain the loop ends, on a scope or on none. *)
Theorem walk_loops_on_cycle st sc a e :
  owner_of st sc a = Throw e →
  e = Diverges ∧
  (∃ i j x, i < j ∧ ancestor (st_scopes st) i sc = Some x ∧
            ancestor (st_scopes st) j sc = Some x) ∧
  (∀ k, passed_by (st_scopes st) a (ancestor (st_scopes st) k sc)).
Proof.
  unfold owner_of. intros E.
  pose proof (walk_spec (size (st_scopes st)) (st_scopes st) a sc) as H.
  rewrite E in H. destruct H as [-> Hpass]. split; [done|].
  destruct (chain_repeats (st_scopes st) a sc (size (st_scopes st))
              ltac:(lia) Hpass) as (i & j & x & Hij & Hj & Hi & Hjx).
  split; [by exists i, j, x|].
  (* every scope of the chain is one of the first [j] *)
  intros k. induction (lt_wf k) as [k _ IH].
  destruct (decide ((k ≤ size (st_scopes st))%nat)) as [|Hk]; [by apply Hpass|].
  pose proof (ancestor_add _ i (k - j) sc x Hi) as Hi'.
  pose proof (ancestor_add _ j (k - j) sc x Hjx) as Hj'.
  replace (j + (k - j)) with k in Hj' by lia.
  rewrite Hj', <- Hi'. apply IH. lia.
Qed.

Lemma walk_loops_on_cycle_witness :
  ∃ i j x, i < j ∧ ancestor (st_scopes cyclic_state) i 0 = Some x ∧
           ancestor (st_scopes cyclic_state) j 0 = Some x.
Proof.
  refine (proj1 (proj2 (walk_loops_on_cycle cyclic_state 0 "c" Diverges _))).
  vm_compute; reflexivity.
Defined.

(** *** What a resolution writes *)


(** *** Names that are not registered *)





Lemma mapM_require_unregistered n sc st s deps :
  st_scopes st !! sc = Some s →
  Forall (λ dependency, services_of st s dependency = None) deps →
  mapM (fun dependency => scope_require (S n) sc dependency VUndef) deps st
  = (Ret (replicate (length deps) VNull), st).
Proof.
  intros Hs. induction 1 as [|dep deps Hdep _ IH]; [done|].
  cbn [mapM].
  rewrite (bind_run _ _ _ _ _ (require_unregistered n sc dep VUndef st s Hs Hdep)).
  by rewrite (bind_run _ _ _ _ _ IH).
Qed.

(** X23: a dependency that is not registered is injected as [null].
    [construct] does not throw when a name of the [inject] list of a
    constructible service has no registration on the scope: when none
    has, the constructor is called with one [null] per name, followed by
    the options when they are truthy, and a fresh instance is returned. *)
Theorem missing_dependencies_are_null n sc c options st s deps :
  st_scopes st !! sc = Some s →
  constructible st (VRef c) = true →
  inject (statics_of st (VRef c)) = Some deps →
  injectProperties (statics_of st (VRef c)) = None →
  Forall (λ dependency, services_of st s dependency = None) deps →
  ∃ a st',
    construct (scope_require (S n)) sc (VRef c) options st = (Ret (VRef a), st') ∧
    (a ∉ dom (st_objs st)) ∧
    st_objs st' !! a
    = Some (Object no_statics None ∅ ∅ (Some c)
              (replicate (length deps) VNull
               ++ if truthy options then [options] else [])).
Proof.
  intros Hs Hcons Hinj Hprops Hdeps. unfold construct.
  change (truthy (VRef c)) with true. cbn [negb].
  rewrite (bind_run _ _ _ _ _ (get_statics_run (VRef c) st ltac:(done) ltac:(done))).
  unfold get_state at 1, bind at 1.
  change (is_function st (VRef c) && negb (isStatic (statics_of st (VRef c))))
    with (constructible st (VRef c)).
  rewrite Hcons, Hinj, Hprops.
  unfold bind at 1.
  rewrite (bind_run _ _ _ _ _ (mapM_require_unregistered n sc st s deps Hs Hdeps)).
  do 2 eexists. split; [reflexivity|]. split.
  - apply not_elem_of_dom, (new_instance_fresh st).
  - simpl. rewrite lookup_insert_eq. do 2 f_equal.
    destruct (truthy options); [done | by rewrite app_nil_r].
Qed.

Lemma missing_dependencies_are_null_witness :
  ∃ a st',
    construct (scope_require 1) 0 (VRef 1) (VRef 4) bare_scope = (Ret (VRef a), st') ∧
    (a ∉ dom (st_objs bare_scope)) ∧
    st_objs st' !! a
    = Some (Object no_statics None ∅ ∅ (Some 1) [VNull; VNull; VNull; VRef 4]).
Proof.
  refine (missing_dependencies_are_null 0 0 1 (VRef 4) bare_scope
            (default (Scoped "" None ∅ ∅ false) (st_scopes bare_scope !! 0))
            ["singleton"; "other-service"; "the-scope"] _ _ _ _ _).
  - vm_compute; reflexivity.
  - vm_compute; reflexivity.
  - vm_compute; reflexivity.
  - vm_compute; reflexivity.
  - repeat (apply Forall_cons; split; [vm_compute; reflexivity|]). constructor.
Defined.

(** *** A service that depends on itself *)

Lemma construct_first_dependency_throws require sc D options st service rest e st' :
  truthy D = true → constructible st D = true →
  inject (statics_of st D) = Some (service :: rest) →
  require sc service VUndef st = (Throw e, st') →
  construct require sc D options st = (Throw e, st').
Proof.
  intros HD Hcons Hinj Hreq. unfold construct. rewrite HD. cbn [negb].
  rewrite (bind_run _ _ _ _ _
             (get_statics_run D st ltac:(by destruct D) ltac:(by destruct D))).
  unfold get_state at 1, bind at 1. fold (constructible st D).
  rewrite Hcons, Hinj. unfold bind at 1, bind at 1. cbn [mapM].
  by rewrite (bind_run_throw _ _ _ _ _ Hreq).
Qed.

Lemma self_dependency_throws fuel sc service D rest : ∀ options st s l,
  st_scopes st !! sc = Some s → services_of st s service = Some l →
  last l = Some D → constructible st D = true →
  inject (statics_of st D) = Some (service :: rest) →
  transient (statics_of st D) = true
    ∨ (unscoped (statics_of st D) = true
       ∧ truthy (cached st sc service (length l - 1)) = false) →
  ∃ st', scope_require fuel sc service options st = (Throw RangeError, st') ∧
         extends st st' ∧ st_objs st' = st_objs st ∧
         (∀ sc' service' index',
            cached st' sc' service' index' = cached st sc' service' index').
Proof.
  induction fuel as [|n IH]; intros options st s l Hs Hl Hlast Hcons Hinj Hkind.
  { exists st. done. }
  assert (truthy D = true) as HD.
  { unfold constructible, is_function in Hcons. by destruct D. }
  rewrite (require_last _ _ _ _ _ _ _ _ Hs Hl Hlast HD).
  destruct (transient (statics_of st D)) eqn:Htr.
  - destruct (IH VUndef st s l Hs Hl Hlast Hcons Hinj (or_introl Htr))
      as (st' & Hreq & E & Hc).
    exists st'. split; [|done].
    by eapply construct_first_dependency_throws.
  - destruct Hkind as [?|[Hun Hmiss]]; [done|].
    rewrite (getSingleton_miss_here (scope_require n) sc service (length l - 1)
               options st s l D Hs Hl Hmiss (last_array_get _ _ Hlast) HD Hun).
    pose proof (instance_cache_objs sc service (Some l) st) as Hobjs.
    destruct (instance_cache_run sc service l st s Hs)
      as (insts & st0 & Ei & E0 & (s0 & Hs0 & _ & Hstat) & Hsame).
    rewrite Ei in Hobjs |- *. simpl in Hobjs |- *.
    pose proof (extends_services_of _ _ _ _ service E0 Hstat) as Hl0.
    rewrite Hl in Hl0.
    destruct (IH VUndef st0 s0 l Hs0 Hl0 Hlast) as (st' & Hreq & E & Ho & Hc).
    { by rewrite (extends_constructible _ _ _ E0). }
    { by rewrite (extends_statics_of _ _ _ E0). }
    { right. rewrite (extends_statics_of _ _ _ E0), Hsame. done. }
    exists st'. split_and!.
    + rewrite (bind_run_throw _ _ _ _ _
                 (construct_first_dependency_throws _ sc D options st0 service rest
                    _ _ HD ltac:(by rewrite (extends_constructible _ _ _ E0))
                    ltac:(by rewrite (extends_statics_of _ _ _ E0)) Hreq)).
      done.
    + by etrans.
    + congruence.
    + intros sc' service' index'. by rewrite Hc, Hsame.
Qed.

(** X24: a service that injects itself is never resolved. When the
    constructible service registered last under a name lists that name
    first in [inject], and is transient or a singleton that names no
    scope and is not built yet, [require] of the name calls itself
    without end: whatever the depth of stack, it throws the error of the
    exhausted stack; it has built no object and filled no slot. *)
Theorem self_dependency_never_resolves fuel sc service options st s l D rest :
  st_scopes st !! sc = Some s → services_of st s service = Some l →
  last l = Some D → constructible st D = true →
  inject (statics_of st D) = Some (service :: rest) →
  transient (statics_of st D) = true
    ∨ (unscoped (statics_of st D) = true
       ∧ truthy (cached st sc service (length l - 1)) = false) →
  ∃ st', scope_require fuel sc service options st = (Throw RangeError, st') ∧
         st_objs st' = st_objs st ∧
         (∀ sc' service' index',
            cached st' sc' service' index' = cached st sc' service' index').
Proof.
  intros Hs Hl Hlast Hcons Hinj Hkind.
  destruct (self_dependency_throws fuel sc service D rest options st s l)
    as (st' & H & _ & Ho & Hc); try done.
  by exists st'.
Qed.

Lemma self_dependency_never_resolves_witness :
  ∃ st', scope_require 50 0 "service" VUndef selfish_scope = (Throw RangeError, st') ∧
         st_objs st' = st_objs selfish_scope.
Proof.
  destruct (self_dependency_never_resolves 50 0 "service" VUndef selfish_scope
              (default (Scoped "" None ∅ ∅ false) (st_scopes selfish_scope !! 0))
              [VRef 1] (VRef 1) []) as (st' & H & Ho & _).
  - vm_compute; reflexivity.
  - vm_compute; reflexivity.
  - reflexivity.
  - vm_compute; reflexivity.
  - vm_compute; reflexivity.
  - right. split; vm_compute; reflexivity.
  - exists st'. split; [exact H | exact Ho].
Defined.

(** *** Property injection *)

#[global] Instance untouched_preorder a : PreOrder (untouched a).
Proof.
  split.
  - by intros st _ _.
  - intros st1 st2 st3 H12 H23 Hdom Hun.
    destruct (H12 Hdom Hun) as [Harr Hobj].
    destruct (H23) as [Harr' Hobj'].
    + apply elem_of_dom. rewrite Hobj. by apply elem_of_dom.
    + intros x l. rewrite Harr. apply Hun.
    + split; congruence.
Qed.









Section Untouched.
Variable a : addr.
Variable require : addr → string → value → M value.
Hypothesis untouched_require :
  ∀ sc service options, respects (untouched a) (require sc service options).




End Untouched.





(** *** Singletons of an owning scope, seen from its descendants *)

(** The owning scope holds no instance yet: the branch of [getSingleton]
    for another scope builds it there. *)
Lemma from_owner_builds require sc service index options C c st cs lo ci r st' :
  st_scopes st !! c = Some cs → services_of st cs service = Some lo →
  indexOf lo C = Some ci → truthy (cached st c service ci) = false →
  from_owner require sc service index options C c st = (r, st') →
  ∃ st0,
    extends st st0 ∧
    (v <- construct require c C options ;;
     set_instance sc service index v ;;;
     set_instance c service ci v ;;;
     ret (Some v)) st0 = (r, st').
Proof.
  intros Hcs Hlo Hidx Hmiss H. unfold from_owner in H.
  rewrite (bind_run _ _ _ _ _ (get_scope_run _ _ _ Hcs)) in H.
  unfold get_state at 1, bind at 1 in H. rewrite Hlo, Hidx in H.
  destruct (instance_cache_run c service lo st cs Hcs)
    as (cinsts & st0 & Ei & E0 & (cs0 & Hcs0 & Hci & _) & Hsame).
  rewrite (bind_run _ _ _ _ _ Ei) in H.
  rewrite <- (cached_lookup st0 c cs0 service cinsts ci Hcs0 Hci), Hsame, Hmiss in H.
  by exists st0.
Qed.

(** X26: a singleton of another scope is built in that scope. When a
    constructible singleton names a scope that the walk reaches from the
    requesting scope, and that scope lists it and has not built it yet,
    the instance that [getSingleton] returns to the requesting scope is
    fresh and is constructed in the owning scope: without [inject] its
    constructor receives the owning scope, not the requesting one, and
    with [inject] its dependencies are resolved by [require] on the
    owning scope. *)
Theorem scoped_singleton_built_in_owner n sc_in sc_out service i j options st
    s_in s_out l_in l_out d a v st1 :
  st_scopes st !! sc_in = Some s_in →
  services_of st s_in service = Some l_in → l_in !! i = Some (VRef d) →
  scope_prop (statics_of st (VRef d)) = Some a → nonempty a = true →
  owner_of st sc_in a = Ret (Some sc_out) → sc_out ≠ sc_in →
  st_scopes st !! sc_out = Some s_out →
  services_of st s_out service = Some l_out → indexOf l_out (VRef d) = Some j →
  truthy (cached st sc_in service i) = false →
  truthy (cached st sc_out service j) = false →
  constructible st (VRef d) = true →
  getSingleton (scope_require n) sc_in service i options st = (Ret v, st1) →
  ∃ b o,
    v = VRef b ∧ (b ∉ dom (st_objs st)) ∧
    st_objs st1 !! b = Some o ∧ o_class o = Some d ∧
    match inject (statics_of st (VRef d)) with
    | Some deps =>
        ∃ vs stA stB,
          extends st stA ∧
          mapM (fun dependency => scope_require n sc_out dependency VUndef) deps stA
            = (Ret vs, stB) ∧
          o_args o = if truthy options then vs ++ [options] else vs
    | None => o_args o = [VRef sc_out; options]
    end.
Proof.
  intros Hs Hl HD Ha Hne Hw Hc Hso Hlo Hidx Hmiss Hmiss_out Hcons H.
  assert (array_get l_in i = VRef d) as Hget by (unfold array_get; by rewrite HD).
  destruct (getSingleton_miss_owner (scope_require n) sc_in service i options
              st s_in l_in (VRef d) a sc_out Hs Hl Hmiss Hget ltac:(done) ltac:(done)
              Ha Hne Hw Hc) as (st0 & Hext & Hsame & Heq).
  rewrite Heq in H. clear Heq.
  apply bind_Ret in H as (found & st2 & Hf & H).
  destruct (extends_scope _ _ _ _ Hext Hso) as (s_out0 & Hso0 & Hstat).
  pose proof (extends_services_of _ _ _ _ service Hext Hstat) as Hlo0.
  rewrite Hlo in Hlo0.
  destruct (from_owner_builds _ _ _ _ _ _ _ _ _ _ _ _ _ Hso0 Hlo0 Hidx
              ltac:(by rewrite Hsame) Hf) as (st0' & Hext' & Hrun).
  apply bind_Ret in Hrun as (v' & stc & Hcon & Hrun).
  apply bind_Ret in Hrun as (u & std & Hset1 & Hrun).
  apply bind_Ret in Hrun as (u' & ste & Hset2 & [= <- <-]).
  injection H as <- <-.
  assert (extends st st0') as E0 by (by etrans).
  apply construct_Ret in Hcon; [|apply framed_scope_require|done].
  rewrite (extends_constructible _ _ _ E0), Hcons in Hcon.
  destruct Hcon as (b & d' & o & [= <-] & -> & Hfresh & Ho & Hcls & Hargs).
  assert (extends stc ste) as Ece.
  { etrans; [by eapply framed_set_instance|by eapply framed_set_instance]. }
  destruct (ext_objs _ _ Ece b o Ho) as (o' & Ho' & Hcls' & Hargs').
  exists b, o'. split_and!; try done.
  - intros Hin. apply Hfresh. by eapply extends_dom_objs.
  - congruence.
  - rewrite (extends_statics_of _ _ _ E0) in Hargs. rewrite Hargs'.
    destruct (inject (statics_of st (VRef d))) as [deps|]; [|done].
    destruct Hargs as (vs & stB & Hvs & Hargs). by exists vs, st0', stB.
Qed.

Lemma scoped_singleton_built_in_owner_witness :
  ∃ b o,
    VRef 3 = VRef b ∧ (b ∉ dom (st_objs shared_state)) ∧
    st_objs (snd (getSingleton (scope_require 1) 1 "a" 0 (VNum 7) shared_state)) !! b
    = Some o ∧ o_class o = Some 2 ∧ o_args o = [VRef 0; VNum 7].
Proof.
  pose (st1 := snd (getSingleton (scope_require 1) 1 "a" 0 (VNum 7) shared_state)).
  destruct (scoped_singleton_built_in_owner 1 1 0 "a" 0 0 (VNum 7) shared_state
              (default (Scoped "" None ∅ ∅ false) (st_scopes shared_state !! 1))
              (default (Scoped "" None ∅ ∅ false) (st_scopes shared_state !! 0))
              [VRef 2] [VRef 2] 2 "outer" (VRef 3) st1)
    as (b & o & Hb & Hfresh & Ho & Hcls & Hargs).
  - vm_compute; reflexivity.
  - vm_compute; reflexivity.
  - reflexivity.
  - vm_compute; reflexivity.
  - reflexivity.
  - vm_compute; reflexivity.
  - discriminate.
  - vm_compute; reflexivity.
  - vm_compute; reflexivity.
  - reflexivity.
  - vm_compute; reflexivity.
  - vm_compute; reflexivity.
  - vm_compute; reflexivity.
  - vm_compute; reflexivity.
  - exists b, o. split; [exact Hb|]. split; [exact Hfresh|]. split; [exact Ho|].
    split; [exact Hcls|]. exact Hargs.
Defined.

(** X27: the descendants of a scope share its singletons. When two
    scopes reach the same owning scope for a singleton that it lists,
    and the first has the instance resolved, then the second, which has
    not resolved it yet, gets that same instance, which is then in its
    slot and in the slot of the owning scope. *)
Theorem descendants_share_singleton n n' sc1 sc2 sc_out service i1 i2 j
    options options' st s1 s2 s_out l1 l2 l_out d a v st1 :
  st_scopes st !! sc1 = Some s1 →
  services_of st s1 service = Some l1 → l1 !! i1 = Some (VRef d) →
  st_scopes st !! sc2 = Some s2 →
  services_of st s2 service = Some l2 → l2 !! i2 = Some (VRef d) →
  scope_prop (statics_of st (VRef d)) = Some a → nonempty a = true →
  owner_of st sc1 a = Ret (Some sc_out) → sc_out ≠ sc1 →
  owner_of st sc2 a = Ret (Some sc_out) → sc_out ≠ sc2 →
  st_scopes st !! sc_out = Some s_out →
  services_of st s_out service = Some l_out → indexOf l_out (VRef d) = Some j →
  truthy (cached st sc1 service i1) = false →
  getSingleton (scope_require n) sc1 service i1 options st = (Ret v, st1) →
  truthy (cached st1 sc2 service i2) = false →
  ∃ st2,
    getSingleton (scope_require n') sc2 service i2 options' st1 = (Ret v, st2) ∧
    cached st2 sc2 service i2 = v ∧ cached st2 sc_out service j = v.
Proof.
  intros Hs1 Hl1 HD1 Hs2 Hl2 HD2 Ha Hne Hw1 Hc1 Hw2 Hc2 Hso Hlo Hidx Hmiss1 H Hmiss2.
  assert (array_get l1 i1 = VRef d) as Hget1 by (unfold array_get; by rewrite HD1).
  assert (array_get l2 i2 = VRef d) as Hget2 by (unfold array_get; by rewrite HD2).
  assert (extends st st1) as Hext
    by (eapply framed_getSingleton, H; apply framed_scope_require).
  (* the first request leaves the instance in the owning scope *)
  assert (cached st1 sc_out service j = v ∧ truthy v = true) as [Hcout Hv].
  { destruct (getSingleton_miss_owner (scope_require n) sc1 service i1 options
                st s1 l1 (VRef d) a sc_out Hs1 Hl1 Hmiss1 Hget1 ltac:(done) ltac:(done)
                Ha Hne Hw1 Hc1) as (st0 & Hext0 & Hsame & Heq).
    rewrite Heq in H. apply bind_Ret in H as (found & st2 & Hf & H).
    destruct (extends_scope _ _ _ _ Hext0 Hso) as (cs' & Hcs' & Hstat).
    destruct found as [v'|].
    2:{ apply from_owner_None in Hf as (cs & lo & Hcs & Hlo' & Hidx').
        assert (cs = cs') as -> by congruence.
        rewrite (extends_services_of _ _ _ _ service Hext0 Hstat), Hlo in Hlo'.
        congruence. }
    injection H as <- <-.
    apply from_owner_Ret in Hf
      as (cs & lo & ci & Hcs & Hlo' & Hidx' & _ & Hcout & Htr);
      [|apply framed_scope_require|done].
    assert (cs = cs') as -> by congruence.
    rewrite (extends_services_of _ _ _ _ service Hext0 Hstat), Hlo in Hlo'.
    assert (ci = j) as -> by congruence. split; [done | by apply Htr]. }
  (* the second request finds it there *)
  destruct (extends_scope _ _ _ _ Hext Hs2) as (s2' & Hs2' & Hstat2).
  destruct (extends_scope _ _ _ _ Hext Hso) as (s_out1 & Hso1 & Hstat_out).
  pose proof (extends_services_of _ _ _ _ service Hext Hstat2) as Hl2'.
  pose proof (extends_services_of _ _ _ _ service Hext Hstat_out) as Hlo1.
  rewrite Hl2 in Hl2'. rewrite Hlo in Hlo1.
  destruct (getSingleton_miss_owner (scope_require n') sc2 service i2 options'
              st1 s2' l2 (VRef d) a sc_out Hs2' Hl2' Hmiss2 Hget2
              ltac:(done) ltac:(done))
    as (st0 & Hext0 & Hsame & Heq); try done.
  { by rewrite (extends_statics_of _ _ _ Hext). }
  { by rewrite (owner_of_extends _ _ _ _ Hext). }
  rewrite Heq.
  destruct (extends_scope _ _ _ _ Hext0 Hs2') as (s20 & Hs20 & _).
  destruct (extends_scope _ _ _ _ Hext0 Hso1) as (s_out0 & Hso0 & Hstat0).
  pose proof (extends_services_of _ _ _ _ service Hext0 Hstat0) as Hlo0.
  rewrite Hlo1 in Hlo0.
  destruct (from_owner_hit (scope_require n') sc2 service i2 options' (VRef d)
              sc_out st0 s20 s_out0 l_out j v Hs20 Hso0 Hc2 Hlo0 Hidx)
    as (st2 & Hf & _ & Hcin & Hcout'); [by rewrite Hsame | done |].
  rewrite (bind_run _ _ _ _ _ Hf). by exists st2.
Qed.

Lemma descendants_share_singleton_witness :
  let st1 := snd (getSingleton (scope_require 1) 1 "a" 0 VUndef siblings_state) in
  ∃ st2,
    getSingleton (scope_require 1) 2 "a" 0 VUndef st1 = (Ret (VRef 4), st2) ∧
    cached st2 2 "a" 0 = VRef 4 ∧ cached st2 0 "a" 0 = VRef 4.
Proof.
  intros st1.
  refine (descendants_share_singleton 1 1 1 2 0 "a" 0 0 0 VUndef VUndef
            siblings_state
            (default (Scoped "" None ∅ ∅ false) (st_scopes siblings_state !! 1))
            (default (Scoped "" None ∅ ∅ false) (st_scopes siblings_state !! 2))
            (default (Scoped "" None ∅ ∅ false) (st_scopes siblings_state !! 0))
            [VRef 3] [VRef 3] [VRef 3] 3 "outer" (VRef 4) st1
            _ _ _ _ _ _ _ _ _ _ _ _ _ _ _ _ _ _).
  - vm_compute; reflexivity.
  - vm_compute; reflexivity.
  - reflexivity.
  - vm_compute; reflexivity.
  - vm_compute; reflexivity.
  - reflexivity.
  - vm_compute; reflexivity.
  - reflexivity.
  - vm_compute; reflexivity.
  - discriminate.
  - vm_compute; reflexivity.
  - discriminate.
  - vm_compute; reflexivity.
  - vm_compute; reflexivity.
  - reflexivity.
  - vm_compute; reflexivity.
  - vm_compute; reflexivity.
  - vm_compute; reflexivity.
Defined.

(** *** Transient services in [getServices] *)



